(** * WalletConnect relay and client history: a shallow embedding

    The development follows four source files:
    - the client's [JsonRpcHistory] class (the pending-request history),
    - the relay's [WebSocketService] (ws.ts, the socket session layer),
    - the relay's [genWsOptions] and subscribe route (http.ts),
    - the relay's helpers (utils.ts).

    JavaScript values are modelled by data: a [Map] is an insertion-ordered
    association list with unique keys, and objects that are shared by
    reference (sockets, history records) live in a store indexed by
    identity. The history class is given twice: in module [History] each
    [async] method is a function from the instance's state to an outcome
    and a new state, the method run in one piece; in module [Loop] the
    methods run step by step on the promise job queue, where calls
    interleave at their [await]s. [LoopFacts.alone_as_history] relates the
    two. *)

From stdpp Require Import base decidable option numbers strings functions list.

Set Warnings "-clear-no-such-hyp".

(** * Part I: the model *)

(** ** JavaScript values *)

(** The payloads the code treats as [any]. Numbers are integers here: the
    identifiers and sizes the code handles are integral. *)
#[warnings="-register-all"]
Inductive JsValue :=
  | JsUndefined
  | JsNull
  | JsBool (b : bool)
  | JsNumber (n : Z)
  | JsString (s : string)
  | JsArray (items : list JsValue)
  | JsObject (fields : list (string * JsValue)).

(** Truthiness, as used by [!x] and [x || y]. *)
Definition truthy (v : JsValue) : bool :=
  match v with
  | JsUndefined | JsNull => false
  | JsBool b => b
  | JsNumber n => negb (n =? 0)%Z
  | JsString s => negb (String.eqb s "")%string
  | JsArray _ | JsObject _ => true
  end.

(** [a || b] *)
Definition js_or (a b : JsValue) : JsValue := if truthy a then a else b.

(** ** [Map]: insertion-ordered, one entry per key *)

Section JsMap.

Context {K V : Type} `{EqDecision K}.

(** [m.get(k)] *)
Fixpoint jm_get (k : K) (m : list (K * V)) : option V :=
  match m with
  | [] => None
  | (k', v) :: m' => if decide (k' = k) then Some v else jm_get k m'
  end.

(** [m.has(k)] *)
Definition jm_has (k : K) (m : list (K * V)) : bool :=
  match jm_get k m with Some _ => true | None => false end.

(** [m.set(k, v)]: an existing key keeps its position, a new key goes
    last. *)
Fixpoint jm_set (k : K) (v : V) (m : list (K * V)) : list (K * V) :=
  match m with
  | [] => [(k, v)]
  | (k', v') :: m' =>
      if decide (k' = k) then (k, v) :: m' else (k', v') :: jm_set k v m'
  end.

(** [m.delete(k)] *)
Fixpoint jm_delete (k : K) (m : list (K * V)) : list (K * V) :=
  match m with
  | [] => []
  | (k', v') :: m' =>
      if decide (k' = k) then jm_delete k m' else (k', v') :: jm_delete k m'
  end.

(** [Array.from(m.keys())], [Array.from(m.values())], [m.size] *)
Definition jm_keys (m : list (K * V)) : list K := m.*1.
Definition jm_values (m : list (K * V)) : list V := m.*2.
Definition jm_size (m : list (K * V)) : nat := length m.

End JsMap.

(** ** The client's JSON-RPC history ([JsonRpcHistory]) *)

Module History.

(** *** Data *)

(** [ErrorResponse] of a JSON-RPC error. *)
Record ErrorResponse := { err_code : Z; err_message : string }.

(** [JsonRpcRequest]: [params] is [JsUndefined] when the field is absent. *)
Record JsonRpcRequest :=
  { req_id : Z; req_method : string; req_params : JsValue }.

(** [JsonRpcResponse = JsonRpcResult | JsonRpcError] *)
Inductive JsonRpcResponse :=
  | JsonRpcResult (id : Z) (result : JsValue)
  | JsonRpcError (id : Z) (error : ErrorResponse).

Definition resp_id (response : JsonRpcResponse) : Z :=
  match response with JsonRpcResult id _ | JsonRpcError id _ => id end.

(** [isJsonRpcError]: the payload carries an [error] field. *)
Definition isJsonRpcError (response : JsonRpcResponse) : bool :=
  match response with JsonRpcError _ _ => true | JsonRpcResult _ _ => false end.

(** The [response] field of a record: [{ result }] or [{ error }]. *)
Inductive RecordResponse :=
  | ResponseResult (result : JsValue)
  | ResponseError (error : ErrorResponse).

Record RequestArguments := { method : string; params : JsValue }.

(** [JsonRpcRecord]; [None] stands for an absent optional field. *)
Record JsonRpcRecord :=
  { rec_id : Z;
    rec_topic : string;
    rec_request : RequestArguments;
    rec_chainId : option string;
    rec_response : option RecordResponse }.

(** [record.response = r] *)
Definition with_response (record : JsonRpcRecord) (r : RecordResponse) : JsonRpcRecord :=
  {| rec_id := rec_id record;
     rec_topic := rec_topic record;
     rec_request := rec_request record;
     rec_chainId := rec_chainId record;
     rec_response := Some r |}.

(** The entries of the [ERROR] table the class formats and throws; the
    formatted text is kept as its tag and the identifier it mentions. *)
Inductive HistoryError :=
  | RECORD_ALREADY_EXISTS (id : Z)
  | NO_MATCHING_ID (id : Z)
  | MISMATCHED_TOPIC (id : Z)
  | RESTORE_WILL_OVERRIDE.

(** [HISTORY_EVENTS] *)
Inductive HistoryEvent :=
  | created (record : JsonRpcRecord)
  | updated (record : JsonRpcRecord)
  | deleted (record : JsonRpcRecord)
  | enabled
  | disabled.

(** A call of a public method, kept while it waits at the gate. *)
Inductive Call :=
  | CallSet (topic : string) (request : JsonRpcRequest) (chainId : option string)
  | CallUpdate (topic : string) (response : JsonRpcResponse)
  | CallGet (topic : string) (id : Z)
  | CallDelete (topic : string) (id : option Z)
  | CallExists (topic : string) (id : Z).

Inductive Value :=
  | VUnit
  | VRecord (record : JsonRpcRecord)
  | VBool (b : bool).

(** How a promise stands after the call ran as far as it can. *)
Inductive Outcome (A : Type) :=
  | Resolved (a : A)
  | Rejected (e : HistoryError)
  | Suspended.
Arguments Resolved {A} a.
Arguments Rejected {A} e.
Arguments Suspended {A}.

(** The instance: the [records] map, the [cached] snapshot, and what the
    instance did to its surroundings: events emitted, snapshots handed to
    [storage.setItem], errors given to [logger.error], the calls parked
    on the one-shot [enabled] listener, and how parked calls settled. *)
Record History :=
  { records : list (Z * JsonRpcRecord);
    cached : list JsonRpcRecord;
    emitted : list HistoryEvent;
    stored : list (list JsonRpcRecord);
    logged : list HistoryError;
    waiting : list Call;
    settled : list (Call * Outcome Value) }.

(** [new JsonRpcHistory(client, logger)] *)
Definition new_history : History :=
  {| records := []; cached := []; emitted := []; stored := [];
     logged := []; waiting := []; settled := [] |}.

Definition with_records (f : list (Z * JsonRpcRecord) → list (Z * JsonRpcRecord))
    (h : History) : History :=
  {| records := f (records h); cached := cached h; emitted := emitted h;
     stored := stored h; logged := logged h; waiting := waiting h;
     settled := settled h |}.

Definition with_cached (c : list JsonRpcRecord) (h : History) : History :=
  {| records := records h; cached := c; emitted := emitted h;
     stored := stored h; logged := logged h; waiting := waiting h;
     settled := settled h |}.

Definition with_emitted (e : HistoryEvent) (h : History) : History :=
  {| records := records h; cached := cached h; emitted := emitted h ++ [e];
     stored := stored h; logged := logged h; waiting := waiting h;
     settled := settled h |}.

Definition with_stored (s : list JsonRpcRecord) (h : History) : History :=
  {| records := records h; cached := cached h; emitted := emitted h;
     stored := stored h ++ [s]; logged := logged h; waiting := waiting h;
     settled := settled h |}.

Definition with_logged (e : HistoryError) (h : History) : History :=
  {| records := records h; cached := cached h; emitted := emitted h;
     stored := stored h; logged := logged h ++ [e]; waiting := waiting h;
     settled := settled h |}.

Definition with_waiting (w : list Call) (h : History) : History :=
  {| records := records h; cached := cached h; emitted := emitted h;
     stored := stored h; logged := logged h; waiting := w;
     settled := settled h |}.

Definition with_settled (c : Call) (o : Outcome Value) (h : History) : History :=
  {| records := records h; cached := cached h; emitted := emitted h;
     stored := stored h; logged := logged h; waiting := waiting h;
     settled := settled h ++ [(c, o)] |}.

(** *** Asynchronous methods

    An [async] method is run from the state it is called in up to its
    return, its throw, or the gate of [isEnabled], in one piece: this is
    what the method does when no other job of the instance runs between
    its [await]s. What calls do to each other when they interleave is in
    module [Loop]. *)
Definition Async (A : Type) : Type := History → Outcome A * History.

#[export] Instance Async_ret : MRet Async := λ A a h, (Resolved a, h).
#[export] Instance Async_bind : MBind Async := λ A B f m h,
  match m h with
  | (Resolved a, h') => f a h'
  | (Rejected e, h') => (Rejected e, h')
  | (Suspended, h') => (Suspended, h')
  end.

(** [throw new Error(error.message)] *)
Definition throw {A} (e : HistoryError) : Async A := λ h, (Rejected e, h).

(** [try { body } catch (e) { handler }] *)
Definition try_catch {A} (body : Async A) (handler : HistoryError → Async A) : Async A :=
  λ h, match body h with
       | (Rejected e, h') => handler e h'
       | r => r
       end.

Definition this : Async History := λ h, (Resolved h, h).
Definition modify (f : History → History) : Async unit := λ h, (Resolved (), f h).

(** [xs.forEach(f)] *)
Fixpoint forEach {A} (xs : list A) (f : A → Async unit) : Async unit :=
  match xs with
  | [] => mret ()
  | x :: xs' => f x ;; forEach xs' f
  end.

(** [get values()] *)
Definition values (h : History) : list JsonRpcRecord := jm_values (records h).

(** [this.logger.error(...)] *)
Definition logger_error (e : HistoryError) : Async unit := modify (with_logged e).

(** [persist], as far as it runs when called: the write handed to the
    storage. The [sync] event that follows the write's completion has no
    listener in the class and is not tracked. *)
Definition persist : Async unit := modify (λ h, with_stored (values h) h).

(** [this.events.emit(e)] for the three record events, with the listeners
    of [registerEventListeners]: each of them calls [persist]. *)
Definition emit (e : HistoryEvent) : Async unit :=
  modify (with_emitted e) ;; persist.

(** [isEnabled]: passes when [cached] is empty; otherwise the promise
    stays pending until [enabled] is emitted. *)
Definition isEnabled : Async unit := λ h,
  if (length (cached h) =? 0)%nat then (Resolved (), h) else (Suspended, h).

Definition getRecord (id : Z) : Async JsonRpcRecord :=
  isEnabled ;;
  h ← this;
  match jm_get id (records h) with
  | None => logger_error (NO_MATCHING_ID id) ;; throw (NO_MATCHING_ID id)
  | Some record => mret record
  end.

Definition set (topic : string) (request : JsonRpcRequest) (chainId : option string)
    : Async unit :=
  isEnabled ;;
  h ← this;
  if jm_has (req_id request) (records h) then
    logger_error (RECORD_ALREADY_EXISTS (req_id request)) ;;
    throw (RECORD_ALREADY_EXISTS (req_id request))
  else
    let record :=
      {| rec_id := req_id request;
         rec_topic := topic;
         rec_request := {| method := req_method request;
                           params := js_or (req_params request) JsNull |};
         rec_chainId := chainId;
         rec_response := None |} in
    modify (with_records (jm_set (rec_id record) record)) ;;
    emit (created record).

(** [isJsonRpcError(response) ? { error: response.error }
                               : { result: response.result }] *)
Definition response_of (response : JsonRpcResponse) : RecordResponse :=
  match response with
  | JsonRpcError _ error => ResponseError error
  | JsonRpcResult _ result => ResponseResult result
  end.

(** [update] in one piece: nothing runs between its [records.has] and the
    read of [await this.getRecord], so the record checked is the record
    read ([Loop.after_gate] and [Loop.in_getRecord] give the two steps
    apart). The assignment [record.response = ...] writes into the object
    the map holds under [response.id]; [records.set(record.id, record)]
    then stores that same object under its own [id]. *)
Definition update (topic : string) (response : JsonRpcResponse) : Async unit :=
  isEnabled ;;
  h ← this;
  if negb (jm_has (resp_id response) (records h)) then mret () else
  record ← getRecord (resp_id response);
  if decide (rec_topic record ≠ topic) then mret () else
  if decide (rec_response record ≠ None) then mret () else
  let record' := with_response record (response_of response) in
  modify (with_records (jm_set (resp_id response) record')) ;;
  modify (with_records (jm_set (rec_id record') record')) ;;
  emit (updated record').

Definition get (topic : string) (id : Z) : Async JsonRpcRecord :=
  isEnabled ;;
  record ← getRecord id;
  if decide (rec_topic record ≠ topic) then
    logger_error (MISMATCHED_TOPIC id) ;; throw (MISMATCHED_TOPIC id)
  else mret record.

(** The callback of the loop of [delete]; [id] is [None] when the argument
    is left out ([typeof id === "undefined"]). *)
Definition delete_step (topic : string) (id : option Z) (record : JsonRpcRecord)
    : Async unit :=
  if decide (rec_topic record = topic) then
    match id with
    | Some i =>
        if decide (rec_id record ≠ i) then mret () else
        modify (with_records (jm_delete (rec_id record))) ;;
        emit (deleted record)
    | None =>
        modify (with_records (jm_delete (rec_id record))) ;;
        emit (deleted record)
    end
  else mret ().

Definition delete (topic : string) (id : option Z) : Async unit :=
  isEnabled ;;
  h ← this;
  forEach (values h) (delete_step topic id).

(** [exists] in one piece, as [update] above. *)
Definition exists_ (topic : string) (id : Z) : Async bool :=
  isEnabled ;;
  h ← this;
  if negb (jm_has id (records h)) then mret false else
  record ← getRecord id;
  mret (bool_decide (rec_topic record = topic)).

(** *** The gate and the restoration *)

(** A public call as its caller sees it. *)
Definition run (c : Call) : Async Value :=
  match c with
  | CallSet topic request chainId => set topic request chainId ;; mret VUnit
  | CallUpdate topic response => update topic response ;; mret VUnit
  | CallGet topic id => record ← get topic id; mret (VRecord record)
  | CallDelete topic id => delete topic id ;; mret VUnit
  | CallExists topic id => b ← exists_ topic id; mret (VBool b)
  end.

(** Calling a method: a call stopped by the gate leaves its continuation
    on the one-shot [enabled] listener; any other call has settled. *)
Definition invoke (c : Call) (h : History) : option (Outcome Value) * History :=
  match run c h with
  | (Suspended, h') => (None, with_waiting (waiting h' ++ [c]) h')
  | (o, h') => (Some o, h')
  end.

(** A parked call resumes past the gate. *)
Definition resume (h : History) (c : Call) : History :=
  match invoke c h with
  | (Some o, h') => with_settled c o h'
  | (None, h') => h'
  end.

(** [enable]: [cached] is emptied and [enabled] emitted; its one-shot
    listeners resolve the parked calls, taken here one after the other in
    the order they were parked, each in one piece. With no call parked
    this is all [enable] does; how several released calls interleave is
    given by [Loop.enable] and the queue. *)
Definition enable : Async unit := λ h,
  let h1 := with_emitted enabled (with_cached [] h) in
  (Resolved (), foldl resume (with_waiting [] h1) (waiting h1)).

Definition disable : Async unit := λ h,
  let h1 := if (length (cached h) =? 0)%nat then with_cached (values h) h else h in
  (Resolved (), with_emitted disabled h1).

(** [restore] up to its [await Promise.all(...)]: [true] when the snapshot
    was loaded and [enable] is still to come. *)
Definition restore_load (persisted : option (list JsonRpcRecord)) : Async bool :=
  match persisted with
  | None => mret false
  | Some persisted =>
      if (length persisted =? 0)%nat then mret false else
      h ← this;
      if negb (jm_size (records h) =? 0)%nat then
        logger_error RESTORE_WILL_OVERRIDE ;; throw RESTORE_WILL_OVERRIDE
      else
        modify (with_cached persisted) ;;
        h ← this;
        forEach (cached h) (λ record,
          modify (with_records (jm_set (rec_id record) record))) ;;
        mret true
  end.

(** [restore]; [persisted] is what [storage.getItem] resolved to. *)
Definition restore (persisted : option (list JsonRpcRecord)) : Async unit :=
  try_catch
    (loaded ← restore_load persisted;
     if loaded : bool then enable else mret ())
    (λ e, logger_error e).

Definition init (persisted : option (list JsonRpcRecord)) : Async unit :=
  restore persisted.

Definition reset : Async unit :=
  disable ;;
  h ← this;
  forEach (cached h) (λ record,
    modify (with_records (jm_set (rec_id record) record))) ;;
  enable.

(** *** Vocabulary of the properties *)

(** The shape every reachable [records] map has: one entry per key, and
    each record filed under its own [id]. *)
Definition records_ok (m : list (Z * JsonRpcRecord)) : Prop :=
  NoDup (jm_keys m) ∧ Forall (λ p, rec_id p.2 = p.1) m.

#[export] Instance records_ok_dec m : Decision (records_ok m) := and_dec _ _.

(** The gate is open: [cached] is empty. *)
Definition gate_open (h : History) : Prop := cached h = [].

(** The record [set] builds from its arguments. *)
Definition record_of (topic : string) (request : JsonRpcRequest) (chainId : option string)
    : JsonRpcRecord :=
  {| rec_id := req_id request;
     rec_topic := topic;
     rec_request := {| method := req_method request;
                       params := js_or (req_params request) JsNull |};
     rec_chainId := chainId;
     rec_response := None |}.

(** The record the specification describes: the request's [params] as they
    came. *)
Definition record_as_specified (topic : string) (request : JsonRpcRequest)
    (chainId : option string) : JsonRpcRecord :=
  {| rec_id := req_id request;
     rec_topic := topic;
     rec_request := {| method := req_method request; params := req_params request |};
     rec_chainId := chainId;
     rec_response := None |}.

(** A run of later [update] calls, each applied to the state the one before
    left. *)
Definition updates (calls : list (string * JsonRpcResponse)) (h : History) : History :=
  foldl (λ h c, (update c.1 c.2 h).2) h calls.

(** The records that the loop of [delete] removes. *)
Definition selected (topic : string) (id : option Z) (record : JsonRpcRecord) : bool :=
  bool_decide (rec_topic record = topic) &&
  match id with
  | Some i => bool_decide (rec_id record = i)
  | None => true
  end.

(** The map after the loop went through [l]. *)
Definition delete_all (topic : string) (id : option Z) (l : list JsonRpcRecord)
    (m : list (Z * JsonRpcRecord)) : list (Z * JsonRpcRecord) :=
  foldl (λ m record,
           if selected topic id record then jm_delete (rec_id record) m else m) m l.

(** The instance once [enable] has emptied [cached] and emitted [enabled],
    before any parked call has resumed. *)
Definition opened (h : History) : History :=
  with_waiting [] (with_emitted enabled (with_cached [] h)).


(** An [eth_sign] request without [params], and the instance that holds
    it under topic ["T"]. *)
Definition request7 : JsonRpcRequest :=
  {| req_id := 7; req_method := "eth_sign"; req_params := JsUndefined |}.

Definition history7 : History := (set "T" request7 None new_history).2.

Definition record7 : JsonRpcRecord := record_of "T" request7 None.

Definition snapshot1 : list JsonRpcRecord :=
  [ {| rec_id := 1; rec_topic := "A";
       rec_request := {| method := "eth_accounts"; params := JsNull |};
       rec_chainId := None; rec_response := None |} ].

(** A new instance whose [restore] has loaded [snapshot1] and has not yet
    reached [enable]. *)
Definition restoring1 : History := (restore_load (Some snapshot1) new_history).2.

(** *** The pending requests *)

(** [RequestEvent] *)
Record RequestEvent :=
  { ev_topic : string;
    ev_request : JsonRpcRequest;
    ev_chainId : option string }.

Section Pending.

(** [formatJsonRpcRequest(method, params, id)] of the JSON-RPC utilities,
    taken as it is given. *)
Variable formatJsonRpcRequest : string → JsValue → Z → JsonRpcRequest.

(** The event [pending] builds for a record. *)
Definition request_event (record : JsonRpcRecord) : RequestEvent :=
  {| ev_topic := rec_topic record;
     ev_request := formatJsonRpcRequest (method (rec_request record))
                     (params (rec_request record)) (rec_id record);
     ev_chainId := rec_chainId record |}.

(** [get pending()]: the loop pushes an event for each record that has no
    response. *)
Definition pending (h : History) : list RequestEvent :=
  foldl (λ requests record,
           if decide (rec_response record ≠ None) then requests
           else requests ++ [request_event record])
        [] (values h).

End Pending.

(** A formatter that puts its three arguments into a request, for the
    concrete runs. *)
Definition format_plain (method : string) (params : JsValue) (id : Z) : JsonRpcRequest :=
  {| req_id := id; req_method := method; req_params := params |}.

(** [get size()], [get keys()] *)
Definition size (h : History) : nat := jm_size (records h).

(** A run of public calls, each made when the one before has settled or
    parked. *)
Definition calls (cs : list Call) (h : History) : History :=
  foldl (λ h c, (invoke c h).2) h cs.

End History.

(** ** The history instance on the event loop

    The methods of the class are [async]: each runs up to an [await],
    leaves the rest of its body as a job of the promise job queue, and
    lets the jobs queued before it run first. Calls made one after the
    other in the same tick are therefore interleaved at their [await]s.
    This module follows the class step by step: the instance with its
    record objects held by identity, the queue of jobs, and the calls
    parked at the gate of [isEnabled]. The module [History] above gives
    each method run in one piece, which is what a call does when no other
    job of the instance runs between its steps. *)

Module Loop.

Import History.

(** Where an [async] method of the class stands at an [await]. Every
    public method starts with [await this.isEnabled()]; [update], [get]
    and [exists] go on to [await this.getRecord(id)], which itself starts
    with [await this.isEnabled()] and then settles with the record object
    it found or with the error it throws. *)
Inductive Task :=
  | AfterGate (c : Call)
  | InGetRecord (c : Call)
  | AfterGetRecord (c : Call) (found : nat + HistoryError).

(** The jobs of the promise job queue that concern the instance:
    - the continuation of a method after an [await];
    - the reaction that settles the promise [isEnabled] returned, once the
      promise it wraps is fulfilled, after which the continuation is
      queued;
    - the job that subscribes the promise [isEnabled] returned to the
      promise it wraps ([isEnabled] is [async] and returns a promise);
    - [restore], from the answer of [storage.getItem] to its
      [await Promise.all(...)];
    - the last of the reactions of that [Promise.all], after which the
      rest of [restore] is queued;
    - the rest of [restore]: [await this.enable()]. *)
Inductive Job :=
  | Run (t : Task)
  | Pass (t : Task)
  | Subscribe (key : nat)
  | Load (persisted : option (list JsonRpcRecord))
  | PassEnable
  | Enable.

(** How far a parked call is: its one-shot listener of [enabled] is
    registered, and the promise [isEnabled] returned is not yet subscribed
    to the listener's promise, or is subscribed to it, or the listener has
    fired before the subscription. *)
Inductive Listening :=
  | Unsubscribed
  | Subscribed
  | Fulfilled.

#[export] Instance Listening_eq_dec : EqDecision Listening.
Proof. solve_decision. Defined.

Record Parked :=
  { pk_key : nat;
    pk_task : Task;
    pk_state : Listening }.

(** The instance: the record objects by identity ([heap], with the
    identities below [top] in use), the [records] map ([index]), which
    holds identities, [cached] likewise, what the instance did to its
    surroundings (events emitted, snapshots handed to [storage.setItem],
    errors given to [logger.error]), the job queue, the parked calls in
    the order of their listeners, a counter that names them, and how the
    promises of the public calls settled. *)
Record Instance :=
  { heap : nat → JsonRpcRecord;
    top : nat;
    index : list (Z * nat);
    cache : list nat;
    events : list HistoryEvent;
    writes : list (list JsonRpcRecord);
    errors : list HistoryError;
    jobs : list Job;
    parked : list Parked;
    serial : nat;
    outcomes : list (Call * Outcome Value) }.

Definition no_record : JsonRpcRecord :=
  {| rec_id := 0; rec_topic := EmptyString;
     rec_request := {| method := EmptyString; params := JsUndefined |};
     rec_chainId := None; rec_response := None |}.

(** [new JsonRpcHistory(client, logger)] *)
Definition new_instance : Instance :=
  {| heap := λ _, no_record; top := 0; index := []; cache := []; events := [];
     writes := []; errors := []; jobs := []; parked := []; serial := 0;
     outcomes := [] |}.

Definition with_heap (f : (nat → JsonRpcRecord) → nat → JsonRpcRecord) (σ : Instance)
    : Instance :=
  {| heap := f (heap σ); top := top σ; index := index σ; cache := cache σ;
     events := events σ; writes := writes σ; errors := errors σ; jobs := jobs σ;
     parked := parked σ; serial := serial σ; outcomes := outcomes σ |}.

Definition with_top (n : nat) (σ : Instance) : Instance :=
  {| heap := heap σ; top := n; index := index σ; cache := cache σ;
     events := events σ; writes := writes σ; errors := errors σ; jobs := jobs σ;
     parked := parked σ; serial := serial σ; outcomes := outcomes σ |}.

Definition with_index (f : list (Z * nat) → list (Z * nat)) (σ : Instance) : Instance :=
  {| heap := heap σ; top := top σ; index := f (index σ); cache := cache σ;
     events := events σ; writes := writes σ; errors := errors σ; jobs := jobs σ;
     parked := parked σ; serial := serial σ; outcomes := outcomes σ |}.

Definition with_cache (c : list nat) (σ : Instance) : Instance :=
  {| heap := heap σ; top := top σ; index := index σ; cache := c;
     events := events σ; writes := writes σ; errors := errors σ; jobs := jobs σ;
     parked := parked σ; serial := serial σ; outcomes := outcomes σ |}.

Definition with_event (e : HistoryEvent) (σ : Instance) : Instance :=
  {| heap := heap σ; top := top σ; index := index σ; cache := cache σ;
     events := events σ ++ [e]; writes := writes σ; errors := errors σ;
     jobs := jobs σ; parked := parked σ; serial := serial σ;
     outcomes := outcomes σ |}.

Definition with_write (s : list JsonRpcRecord) (σ : Instance) : Instance :=
  {| heap := heap σ; top := top σ; index := index σ; cache := cache σ;
     events := events σ; writes := writes σ ++ [s]; errors := errors σ;
     jobs := jobs σ; parked := parked σ; serial := serial σ;
     outcomes := outcomes σ |}.

(** [this.logger.error(...)] *)
Definition logger_error (e : HistoryError) (σ : Instance) : Instance :=
  {| heap := heap σ; top := top σ; index := index σ; cache := cache σ;
     events := events σ; writes := writes σ; errors := errors σ ++ [e];
     jobs := jobs σ; parked := parked σ; serial := serial σ;
     outcomes := outcomes σ |}.

Definition with_jobs (q : list Job) (σ : Instance) : Instance :=
  {| heap := heap σ; top := top σ; index := index σ; cache := cache σ;
     events := events σ; writes := writes σ; errors := errors σ; jobs := q;
     parked := parked σ; serial := serial σ; outcomes := outcomes σ |}.

Definition with_parked (ps : list Parked) (σ : Instance) : Instance :=
  {| heap := heap σ; top := top σ; index := index σ; cache := cache σ;
     events := events σ; writes := writes σ; errors := errors σ; jobs := jobs σ;
     parked := ps; serial := serial σ; outcomes := outcomes σ |}.

(** The promise of the public call [c] settles. *)
Definition settle (c : Call) (o : Outcome Value) (σ : Instance) : Instance :=
  {| heap := heap σ; top := top σ; index := index σ; cache := cache σ;
     events := events σ; writes := writes σ; errors := errors σ; jobs := jobs σ;
     parked := parked σ; serial := serial σ;
     outcomes := outcomes σ ++ [(c, o)] |}.

(** A job goes to the back of the queue. *)
Definition enqueue (j : Job) (σ : Instance) : Instance :=
  with_jobs (jobs σ ++ [j]) σ.

(** [isEnabled] with [cached] not empty: the one-shot listener of
    [enabled] is registered, and the promise returned is subscribed to the
    listener's promise by a job of its own. *)
Definition park (t : Task) (σ : Instance) : Instance :=
  {| heap := heap σ; top := top σ; index := index σ; cache := cache σ;
     events := events σ; writes := writes σ; errors := errors σ;
     jobs := jobs σ ++ [Subscribe (serial σ)];
     parked := parked σ ++ [ {| pk_key := serial σ; pk_task := t;
                                pk_state := Unsubscribed |} ];
     serial := S (serial σ); outcomes := outcomes σ |}.

(** [await this.isEnabled()], with [t] what follows it: with [cached]
    empty the promise is already fulfilled and what follows is queued. *)
Definition await_isEnabled (t : Task) (σ : Instance) : Instance :=
  if (length (cache σ) =? 0)%nat then enqueue (Run t) σ else park t σ.

(** [get values()], as identities and as the records they stand for. *)
Definition values (σ : Instance) : list nat := jm_values (index σ).
Definition snapshot (σ : Instance) : list JsonRpcRecord := heap σ <$> values σ.

(** [persist], as far as it runs when called: [this.values] is handed to
    [storage.setItem]. *)
Definition persist (σ : Instance) : Instance := with_write (snapshot σ) σ.

(** [this.events.emit(e)] for the three record events, whose listeners
    call [persist]. *)
Definition emit (e : HistoryEvent) (σ : Instance) : Instance :=
  persist (with_event e σ).

(** [set] after its gate. *)
Definition set_body (c : Call) (topic : string) (request : JsonRpcRequest)
    (chainId : option string) (σ : Instance) : Instance :=
  if jm_has (req_id request) (index σ) then
    settle c (Rejected (RECORD_ALREADY_EXISTS (req_id request)))
      (logger_error (RECORD_ALREADY_EXISTS (req_id request)) σ)
  else
    let record :=
      {| rec_id := req_id request;
         rec_topic := topic;
         rec_request := {| method := req_method request;
                           params := js_or (req_params request) JsNull |};
         rec_chainId := chainId;
         rec_response := None |} in
    let ref := top σ in
    let σ1 := with_top (S ref) (with_heap <[ref := record]> σ) in
    settle c (Resolved VUnit)
      (emit (created record) (with_index (jm_set (rec_id record) ref) σ1)).

(** The callback of the loop of [delete], on the record object [ref]. *)
Definition delete_turn (topic : string) (id : option Z) (σ : Instance) (ref : nat)
    : Instance :=
  let record := heap σ ref in
  if decide (rec_topic record = topic) then
    match id with
    | Some i =>
        if decide (rec_id record ≠ i) then σ else
        emit (deleted record) (with_index (jm_delete (rec_id record)) σ)
    | None =>
        emit (deleted record) (with_index (jm_delete (rec_id record)) σ)
    end
  else σ.

(** The identifier a method gives to [getRecord]. *)
Definition wanted (c : Call) : Z :=
  match c with
  | CallSet _ request _ => req_id request
  | CallUpdate _ response => resp_id response
  | CallGet _ id | CallExists _ id => id
  | CallDelete _ id => default 0%Z id
  end.

(** A public method from its first [await this.isEnabled()] to its next
    [await], or to its end. *)
Definition after_gate (c : Call) (σ : Instance) : Instance :=
  match c with
  | CallSet topic request chainId => set_body c topic request chainId σ
  | CallUpdate topic response =>
      if negb (jm_has (resp_id response) (index σ)) then settle c (Resolved VUnit) σ
      else await_isEnabled (InGetRecord c) σ
  | CallGet topic id => await_isEnabled (InGetRecord c) σ
  | CallDelete topic id =>
      settle c (Resolved VUnit) (foldl (delete_turn topic id) σ (values σ))
  | CallExists topic id =>
      if negb (jm_has id (index σ)) then settle c (Resolved (VBool false)) σ
      else await_isEnabled (InGetRecord c) σ
  end.

(** [getRecord] after its gate: its promise settles, and the method that
    awaits it is queued. *)
Definition in_getRecord (c : Call) (σ : Instance) : Instance :=
  match jm_get (wanted c) (index σ) with
  | None =>
      enqueue (Run (AfterGetRecord c (inr (NO_MATCHING_ID (wanted c)))))
        (logger_error (NO_MATCHING_ID (wanted c)) σ)
  | Some ref => enqueue (Run (AfterGetRecord c (inl ref))) σ
  end.

(** A method after [await this.getRecord(id)]. What [getRecord] threw
    leaves the method as it is. In [update] the assignment
    [record.response = ...] writes into the record object, whoever else
    holds it, and [records.set(record.id, record)] files that object under
    its [id]. *)
Definition after_getRecord (c : Call) (found : nat + HistoryError) (σ : Instance)
    : Instance :=
  match found with
  | inr e => settle c (Rejected e) σ
  | inl ref =>
      let record := heap σ ref in
      match c with
      | CallUpdate topic response =>
          if decide (rec_topic record ≠ topic) then settle c (Resolved VUnit) σ else
          if decide (rec_response record ≠ None) then settle c (Resolved VUnit) σ else
          let record' := with_response record (response_of response) in
          settle c (Resolved VUnit)
            (emit (updated record')
               (with_index (jm_set (rec_id record') ref)
                  (with_heap <[ref := record']> σ)))
      | CallGet topic id =>
          if decide (rec_topic record ≠ topic) then
            settle c (Rejected (MISMATCHED_TOPIC id))
              (logger_error (MISMATCHED_TOPIC id) σ)
          else settle c (Resolved (VRecord record)) σ
      | CallExists topic id =>
          settle c (Resolved (VBool (bool_decide (rec_topic record = topic)))) σ
      | CallSet _ _ _ | CallDelete _ _ => σ
      end
  end.

Definition run_task (t : Task) (σ : Instance) : Instance :=
  match t with
  | AfterGate c => after_gate c σ
  | InGetRecord c => in_getRecord c σ
  | AfterGetRecord c found => after_getRecord c found σ
  end.

(** The entry of the parked call [key] is subscribed; when its listener
    has fired already, the entry is done with and its task comes out. *)
Fixpoint subscribe_entry (key : nat) (ps : list Parked) : list Parked * option Task :=
  match ps with
  | [] => ([], None)
  | p :: ps' =>
      if decide (pk_key p = key) then
        match pk_state p with
        | Fulfilled => (ps', Some (pk_task p))
        | _ => ({| pk_key := pk_key p; pk_task := pk_task p;
                   pk_state := Subscribed |} :: ps', None)
        end
      else
        let (qs, t) := subscribe_entry key ps' in (p :: qs, t)
  end.

(** The job that subscribes the promise of the parked call [key]: when
    the listener has fired already, the reaction is queued at once. *)
Definition subscribe (key : nat) (σ : Instance) : Instance :=
  match subscribe_entry key (parked σ) with
  | (ps, Some t) => enqueue (Pass t) (with_parked ps σ)
  | (ps, None) => with_parked ps σ
  end.

(** [enable]: [cached] is emptied and [enabled] emitted. Its one-shot
    listeners fire in the order they were registered: each fulfils the
    promise of a parked call, whose reaction is queued when the promise
    [isEnabled] returned is subscribed to it. *)
Definition enable (σ : Instance) : Instance :=
  let σ1 := with_event enabled (with_cache [] σ) in
  let ready := filter (λ p, pk_state p = Subscribed) (parked σ1) in
  let rest := filter (λ p, pk_state p ≠ Subscribed) (parked σ1) in
  with_jobs (jobs σ1 ++ (Pass ∘ pk_task <$> ready))
    (with_parked ((λ p, {| pk_key := pk_key p; pk_task := pk_task p;
                           pk_state := Fulfilled |}) <$> rest) σ1).

(** [restore] from the answer of [storage.getItem] to its
    [await Promise.all(...)]. The records of the snapshot are new
    objects; [cached] and the map hold the same ones. What the [try]
    throws is caught and logged. *)
Definition load (persisted : option (list JsonRpcRecord)) (σ : Instance) : Instance :=
  match persisted with
  | None => σ
  | Some persisted =>
      if (length persisted =? 0)%nat then σ else
      if negb (jm_size (index σ) =? 0)%nat then
        logger_error RESTORE_WILL_OVERRIDE (logger_error RESTORE_WILL_OVERRIDE σ)
      else
        let refs := seq (top σ) (length persisted) in
        let objects := λ ref,
          if decide (top σ ≤ ref)%nat
          then default (heap σ ref) (persisted !! (ref - top σ)%nat)
          else heap σ ref in
        let σ1 := with_cache refs
                    (with_top (top σ + length persisted)%nat
                       (with_heap (λ _, objects) σ)) in
        enqueue PassEnable
          (foldl (λ σ ref, with_index (jm_set (rec_id (heap σ ref)) ref) σ) σ1 refs)
  end.

Definition run_job (j : Job) (σ : Instance) : Instance :=
  match j with
  | Run t => run_task t σ
  | Pass t => enqueue (Run t) σ
  | Subscribe key => subscribe key σ
  | Load persisted => load persisted σ
  | PassEnable => enqueue Enable σ
  | Enable => enable σ
  end.

(** The job at the head of the queue runs. *)
Definition tick (σ : Instance) : Instance :=
  match jobs σ with
  | [] => σ
  | j :: rest => run_job j (with_jobs rest σ)
  end.

(** What happens to the instance: a public method is called, which runs
    it up to its first [await]; the storage answers the [getItem] of
    [restore]; the job at the head of the queue runs. *)
Inductive Event :=
  | Called (c : Call)
  | Answered (persisted : option (list JsonRpcRecord))
  | Turn.

Definition step (σ : Instance) (e : Event) : Instance :=
  match e with
  | Called c => await_isEnabled (AfterGate c) σ
  | Answered persisted => enqueue (Load persisted) σ
  | Turn => tick σ
  end.

Definition play (es : list Event) (σ : Instance) : Instance := foldl step σ es.

(** The instance as [History] has it: the map and [cached] with the
    records in place of their identities. *)
Definition view (σ : Instance) : History :=
  {| records := prod_map id (heap σ) <$> index σ;
     cached := heap σ <$> cache σ;
     emitted := events σ;
     stored := writes σ;
     logged := errors σ;
     waiting := [];
     settled := outcomes σ |}.


(** What a record object can go through from one state of the instance
    to a later one: it stays as it is, or, having no response, it is given
    one. Identities in use stay in use. *)
Definition keeps (σ σ' : Instance) : Prop :=
  (top σ ≤ top σ')%nat ∧
  ∀ ref, (ref < top σ)%nat →
    heap σ' ref = heap σ ref ∨
    (rec_response (heap σ ref) = None ∧ ∃ r, heap σ' ref = with_response (heap σ ref) r).

(** Nothing of the instance is queued: no call is under way. *)
Definition idle (σ : Instance) : Prop := jobs σ = [] ∧ cache σ = [].

(** The shape every reachable map has: one entry per key, no object filed
    twice, each object filed under its own [id], and every identity in
    use. *)
Definition index_ok (σ : Instance) : Prop :=
  NoDup (jm_keys (index σ)) ∧ NoDup (jm_values (index σ)) ∧
  Forall (λ p, rec_id (heap σ p.2) = p.1 ∧ (p.2 < top σ)%nat) (index σ).

(** A task, a job, holds the identity of a record object only if the
    identity is in use. *)
Definition task_ok (n : nat) (t : Task) : Prop :=
  match t with
  | AfterGetRecord _ (inl ref) => (ref < n)%nat
  | _ => True
  end.

Definition job_ok (n : nat) (j : Job) : Prop :=
  match j with
  | Run t | Pass t => task_ok n t
  | _ => True
  end.

(** The shape of every instance that events bring about: the map as
    above, and no identity out of use held by a job or a parked call. *)
Definition well_formed (σ : Instance) : Prop :=
  index_ok σ ∧
  Forall (job_ok (top σ)) (jobs σ) ∧
  Forall (λ p, task_ok (top σ) (pk_task p)) (parked σ).

(** The instance that holds [request7] under topic ["T"], and the calls
    used on it below. *)
Definition instance7 : Instance :=
  play [Called (CallSet "T" request7 None); Turn] new_instance.

Definition response7 : JsonRpcResponse := JsonRpcResult 7 (JsString "0x1").

(** The same instance once the request was answered with [response7]. *)
Definition answered7 : Instance :=
  play [Called (CallUpdate "T" response7); Turn; Turn; Turn] instance7.

(** A new instance whose [restore] has loaded [snapshot1] and is at its
    [await Promise.all(...)]. *)
Definition loading1 : Instance :=
  play [Answered (Some snapshot1); Turn] new_instance.

End Loop.

(** ** The relay: transport options (http.ts) and sockets (ws.ts) *)

Module Relay.

(** *** [genWsOptions] *)

(** The options handed to the WebSocket server. [verifyClient] accepts
    every origin; the notice it files for an origin outside
    INTERNAL_ORIGINS is instrumentation and is left out. *)
Record ServerOptions :=
  { maxPayload : Z;
    perMessageDeflate : bool;
    verifyClient : string → bool }.

Definition genWsOptions : ServerOptions :=
  {| maxPayload := 500 * 1024;
     perMessageDeflate := true;
     verifyClient := λ origin, true |}.

Inductive FrameVerdict :=
  | Delivered
  | ClosedWith (code : Z).

(** Modelled from the spec: the size ceiling on inbound frames, which the
    WebSocket library applies and the relay only configures. A frame above
    the ceiling is rejected and the socket closed with code 1009; the
    ceiling is the [maxPayload] option, counted in bytes. *)
Definition receive_frame (options : ServerOptions) (size : Z) : FrameVerdict :=
  if (maxPayload options <? size)%Z then ClosedWith 1009 else Delivered.

(** *** Sockets *)

(** A socket object of the WebSocket library, as far as the service uses
    it: the [isAlive] flag the service keeps on it ([None] before it is
    first assigned), [readyState], and what the service asked of it:
    messages given to [send], [ping]s, [terminate], [close(code)]. *)
Record Socket :=
  { isAlive : option bool;
    readyState : Z;
    sent : list string;
    pings : nat;
    terminated : bool;
    closed : option Z }.

Definition socket_send (message : string) (s : Socket) : Socket :=
  {| isAlive := isAlive s; readyState := readyState s; sent := sent s ++ [message];
     pings := pings s; terminated := terminated s; closed := closed s |}.

Definition socket_ping (s : Socket) : Socket :=
  {| isAlive := isAlive s; readyState := readyState s; sent := sent s;
     pings := S (pings s); terminated := terminated s; closed := closed s |}.

Definition socket_terminate (s : Socket) : Socket :=
  {| isAlive := isAlive s; readyState := readyState s; sent := sent s;
     pings := pings s; terminated := true; closed := closed s |}.

Definition socket_close (code : Z) (s : Socket) : Socket :=
  {| isAlive := isAlive s; readyState := readyState s; sent := sent s;
     pings := pings s; terminated := terminated s; closed := Some code |}.

(** [socket.isAlive = b] *)
Definition socket_alive (b : bool) (s : Socket) : Socket :=
  {| isAlive := Some b; readyState := readyState s; sent := sent s;
     pings := pings s; terminated := terminated s; closed := closed s |}.

(** [WEBSOCKET_EVENTS] emitted on [server.events]. *)
Inductive ServerEvent :=
  | ws_open (socketId : string)
  | ws_close (socketId : string).

(** The service. Socket objects are shared by reference between the
    [sockets] map and the handlers that closed over them: [objects] gives
    the state of each object by its identity, and the map holds
    identities. [errors] are the lines given to [logger.error]. Counters
    and tracing spans are instrumentation and are left out. *)
Record WebSocketService :=
  { sockets : list (string * nat);
    objects : nat → Socket;
    events : list ServerEvent;
    errors : list string }.

Definition with_sockets (f : list (string * nat) → list (string * nat))
    (ws : WebSocketService) : WebSocketService :=
  {| sockets := f (sockets ws); objects := objects ws; events := events ws;
     errors := errors ws |}.

(** A method call on the object [r]. *)
Definition on_object (r : nat) (f : Socket → Socket) (ws : WebSocketService)
    : WebSocketService :=
  {| sockets := sockets ws; objects := alter f r (objects ws); events := events ws;
     errors := errors ws |}.

Definition emit (e : ServerEvent) (ws : WebSocketService) : WebSocketService :=
  {| sockets := sockets ws; objects := objects ws; events := events ws ++ [e];
     errors := errors ws |}.

Definition logger_error (line : string) (ws : WebSocketService) : WebSocketService :=
  {| sockets := sockets ws; objects := objects ws; events := events ws;
     errors := errors ws ++ [line] |}.

(** [string | JsonRpcPayload | LegacySocketMessage] *)
Inductive SocketMessage :=
  | MsgString (s : string)
  | MsgPayload (payload : JsValue).

(** A JavaScript string is held as its UTF-8 text: [data.toString()] reads
    the frame as UTF-8. [text_of] is the text with the given bytes. *)
Definition text_of (bytes : list nat) : string :=
  foldr (λ b s, String (Ascii.ascii_of_nat b) s) EmptyString bytes.

(** The characters [trim] strips, each as its UTF-8 text: the WhiteSpace
    characters U+0009, U+000B, U+000C, U+0020, U+00A0, U+1680, U+2000 to
    U+200A, U+202F, U+205F, U+3000 and U+FEFF, and the LineTerminator
    characters U+000A, U+000D, U+2028 and U+2029. *)
Definition spaces : list string :=
  text_of <$>
    [ [9]; [10]; [11]; [12]; [13]; [32];
      [194; 160];
      [225; 154; 128];
      [226; 128; 128]; [226; 128; 129]; [226; 128; 130]; [226; 128; 131];
      [226; 128; 132]; [226; 128; 133]; [226; 128; 134]; [226; 128; 135];
      [226; 128; 136]; [226; 128; 137]; [226; 128; 138];
      [226; 128; 168]; [226; 128; 169]; [226; 128; 175];
      [226; 129; 159];
      [227; 128; 128];
      [239; 187; 191] ].

(** The text that follows [e] in [s], when [s] starts with [e]. *)
Fixpoint strip_prefix (e s : string) : option string :=
  match e with
  | EmptyString => Some s
  | String a e' =>
      match s with
      | EmptyString => None
      | String b s' => if Ascii.eqb a b then strip_prefix e' s' else None
      end
  end.

Fixpoint strip_any (es : list string) (s : string) : option string :=
  match es with
  | [] => None
  | e :: es' =>
      match strip_prefix e s with
      | Some r => Some r
      | None => strip_any es' s
      end
  end.

(** The text after the first character of [s], when [trim] strips that
    character. *)
Definition skip_space (s : string) : option string := strip_any spaces s.

Fixpoint trimStart_go (fuel : nat) (s : string) : string :=
  match fuel with
  | 0 => s
  | S fuel' =>
      match skip_space s with
      | Some r => trimStart_go fuel' r
      | None => s
      end
  end.

(** [s.trimStart()]; every character stripped takes a byte at least, so
    the length of the text is fuel enough. *)
Definition trimStart (s : string) : string := trimStart_go (String.length s) s.

(** [s.trimEnd()]: the text is cut where nothing but characters that
    [trim] strips follows. *)
Fixpoint trimEnd (s : string) : string :=
  match s with
  | EmptyString => EmptyString
  | String c s' =>
      if String.eqb (trimStart s) EmptyString then EmptyString
      else String c (trimEnd s')
  end.

(** [s.trim()] *)
Definition trim (s : string) : string := trimEnd (trimStart s).

(** [!s] for a string. *)
Definition str_falsy (s : string) : bool := String.eqb s "".

(** How a handler ends: it returns, or it throws and the promise of the
    [async] handler is rejected. *)
Inductive Handled :=
  | Finished (ws : WebSocketService)
  | Thrown (ws : WebSocketService).

Section Service.

(** What the service takes from its surroundings: [JSON.parse] ([None]
    when it throws), [safeJsonStringify], the two payload classifiers
    ([None] when the classifier throws, as [isJsonRpcPayload] does on a
    payload that the [in] operator refuses: [null], a number, a boolean),
    the mode switches [isLegacyDisabled(config.mode)] and
    [isJsonRpcDisabled(config.mode)], and the two services that handle a
    classified payload. *)
Variable JSON_parse : string → option JsValue.
Variable safeJsonStringify : JsValue → string.
Variable isLegacySocketMessage : JsValue → option bool.
Variable isJsonRpcPayload : JsValue → option bool.
Variable legacyDisabled : bool.
Variable jsonRpcDisabled : bool.
Variable legacy_onRequest : string → JsValue → WebSocketService → WebSocketService.
Variable jsonrpc_onPayload : string → JsValue → WebSocketService → WebSocketService.

(** [safeJsonParse]: the parsed value, or the text itself when it does not
    parse. *)
Definition safeJsonParse (value : string) : JsValue :=
  match JSON_parse value with
  | Some v => v
  | None => JsString value
  end.

Definition getSocket (socketId : string) (ws : WebSocketService)
    : option nat * WebSocketService :=
  match jm_get socketId (sockets ws) with
  | None => (None, logger_error ("Socket not found with socketId: " +:+ socketId) ws)
  | Some socket => (Some socket, ws)
  end.

Definition send (socketId : string) (msg : SocketMessage) (ws : WebSocketService)
    : bool * WebSocketService :=
  match getSocket socketId ws with
  | (None, ws) => (false, ws)
  | (Some socket, ws) =>
      let message :=
        match msg with
        | MsgString s => s
        | MsgPayload payload => safeJsonStringify payload
        end in
      (true, on_object socket (socket_send message) ws)
  end.

Definition isSocketConnected (socketId : string) (ws : WebSocketService)
    : bool * WebSocketService :=
  match getSocket socketId ws with
  | (None, ws) => (false, ws)
  | (Some socket, ws) => (bool_decide (readyState (objects ws socket) = 1%Z), ws)
  end.

(** [close]: every socket of the map is closed with 1012. *)
Definition close (ws : WebSocketService) : WebSocketService :=
  foldl (λ ws s, on_object s (socket_close 1012) ws) ws (jm_values (sockets ws)).

(** The [message] handler installed by [addNewSocket] for the connection
    registered as [socketId]; [data] is the text [data.toString()] gives.
    The handler has a [finally] and no [catch]: what a classifier throws
    leaves the handler, after nothing was sent. *)
Definition on_message (socketId : string) (data : string) (ws : WebSocketService)
    : Handled :=
  let message := data in
  if str_falsy message || str_falsy (trim message) then
    Finished (send socketId (MsgString "Missing or invalid socket data") ws).2
  else
    let payload := safeJsonParse message in
    match payload with
    | JsString _ => Finished (send socketId (MsgString "Socket message is invalid") ws).2
    | _ =>
        match isLegacySocketMessage payload with
        | None => Thrown ws
        | Some true =>
            if legacyDisabled then
              Finished (send socketId (MsgString "Legacy messages are disabled") ws).2
            else Finished (legacy_onRequest socketId payload ws)
        | Some false =>
            match isJsonRpcPayload payload with
            | None => Thrown ws
            | Some true =>
                if jsonRpcDisabled then
                  Finished (send socketId (MsgString "JSON-RPC messages are disabled") ws).2
                else Finished (jsonrpc_onPayload socketId payload ws)
            | Some false =>
                Finished (send socketId (MsgString "Socket message unsupported") ws).2
            end
        end
    end.

End Service.

(** The [pong] handler of the socket object [socket]. *)
Definition on_pong (socket : nat) (ws : WebSocketService) : WebSocketService :=
  on_object socket (socket_alive true) ws.

(** The [close] handler of the connection registered as [socketId]. *)
Definition on_close (socketId : string) (ws : WebSocketService) : WebSocketService :=
  emit (ws_close socketId) (with_sockets (jm_delete socketId) ws).

(** [addNewSocket(socket)]; [socketId] is the value drawn by
    [generateRandomBytes32]. The handlers it installs are [on_message],
    [on_pong] and [on_close] above. *)
Definition addNewSocket (socketId : string) (socket : nat) (ws : WebSocketService)
    : WebSocketService :=
  emit (ws_open socketId) (with_sockets (jm_set socketId socket) ws).

(** One turn of the loop of [clearInactiveSockets]. *)
Definition beat_socket (ws : WebSocketService) (socketId : string) : WebSocketService :=
  match jm_get socketId (sockets ws) with
  | None => ws
  | Some socket =>
      if decide (isAlive (objects ws socket) = Some false) then
        emit (ws_close socketId)
          (on_object socket socket_terminate
             (with_sockets (jm_delete socketId) ws))
      else
        on_object socket socket_ping (on_object socket (socket_alive false) ws)
  end.

(** [clearInactiveSockets], the listener of the server's [beat]. *)
Definition clearInactiveSockets (ws : WebSocketService) : WebSocketService :=
  let socketIds := jm_keys (sockets ws) in
  foldl beat_socket ws socketIds.

(** What reaches the service during a run: a beat of the server, or a pong
    on a socket object. *)
Inductive WsEvent :=
  | Beat
  | Pong (socket : nat).

Definition handle (ws : WebSocketService) (e : WsEvent) : WebSocketService :=
  match e with
  | Beat => clearInactiveSockets ws
  | Pong socket => on_pong socket ws
  end.

(** The peer behind [socket] answers every ping: no beat arrives while a
    ping of an earlier beat is still unanswered. [owed] tells whether a ping
    is unanswered at the start of the trace. *)
Fixpoint answers (socket : nat) (owed : bool) (trace : list WsEvent) : bool :=
  match trace with
  | [] => true
  | Beat :: trace' => negb owed && answers socket true trace'
  | Pong s :: trace' =>
      if decide (s = socket) then answers socket false trace'
      else answers socket owed trace'
  end.

(** A frame's text is blank: it is made of characters that [trim] strips
    and of nothing else; the empty text is blank. *)
Inductive blank : string → Prop :=
  | blank_empty : blank EmptyString
  | blank_space (e s : string) : e ∈ spaces → blank s → blank (e +:+ s).

(** A JSON-RPC error response travels as the text of a JSON object, with
    members [jsonrpc], [id] and [error]: the first character of the text
    that is not blank is an opening brace. *)
Definition opens_json_object (text : string) : bool :=
  String.prefix "{" (trimStart text).

(** The shape every reachable [sockets] map has: one entry per socketId,
    and no socket object registered twice. *)
Definition sockets_ok (m : list (string * nat)) : Prop :=
  NoDup (jm_keys m) ∧ NoDup (jm_values m).

#[export] Instance sockets_ok_dec m : Decision (sockets_ok m) := and_dec _ _.

(** A socket object as the library hands it over, a service without
    connections, and the service after two connections were accepted. *)
Definition fresh_socket : Socket :=
  {| isAlive := None; readyState := 1; sent := []; pings := 0;
     terminated := false; closed := None |}.

Definition service0 : WebSocketService :=
  {| sockets := []; objects := λ _, fresh_socket; events := []; errors := [] |}.

Definition service2 : WebSocketService :=
  addNewSocket "b" 1 (addNewSocket "a" 0 service0).

(** The same service one beat later, after the peer of ["a"] has answered
    its ping and the peer of ["b"] has not. *)
Definition service2_after_beat : WebSocketService :=
  on_pong 0 (clearInactiveSockets service2).

(** The message handler in surroundings where no text parses and no
    payload is classified; the frames it is used on below are answered
    before a payload is classified. *)
Definition on_message_unparsed : string → string → WebSocketService → Handled :=
  on_message (λ _, None) (λ _, "null") (λ _, Some false) (λ _, Some false) false false
    (λ _ _ ws, ws) (λ _ _ ws, ws).

(** The service a handler leaves behind. *)
Definition service_of (r : Handled) : WebSocketService :=
  match r with Finished ws | Thrown ws => ws end.

(** The ideographic space U+3000, as a frame. *)
Definition ideographic_space : string := text_of [227; 128; 128].

(** A run of the events of a service's life: a connection accepted under
    a socketId, a connection closed, a beat, a pong. *)
Inductive LifeEvent :=
  | Accepted (socketId : string) (socket : nat)
  | Closed (socketId : string)
  | Beaten
  | Ponged (socket : nat).

Definition live (ws : WebSocketService) (e : LifeEvent) : WebSocketService :=
  match e with
  | Accepted socketId socket => addNewSocket socketId socket ws
  | Closed socketId => on_close socketId ws
  | Beaten => clearInactiveSockets ws
  | Ponged socket => on_pong socket ws
  end.

(** The event can occur: a connection is accepted under a socketId that is
    not in use, with a socket object that no entry of the map holds. *)
Definition admissible (ws : WebSocketService) (e : LifeEvent) : Prop :=
  match e with
  | Accepted socketId socket =>
      jm_get socketId (sockets ws) = None ∧ socket ∉ jm_values (sockets ws)
  | _ => True
  end.

(** Every event of the run can occur when its turn comes. *)
Fixpoint admissible_run (ws : WebSocketService) (es : list LifeEvent) : Prop :=
  match es with
  | [] => True
  | e :: es' => admissible ws e ∧ admissible_run (live ws e) es'
  end.


End Relay.

(** ** The relay's helpers (utils.ts) and the subscribe route (http.ts) *)

Module Utils.

(** [typeof v] *)
Definition typeof (v : JsValue) : string :=
  match v with
  | JsUndefined => "undefined"
  | JsNull => "object"
  | JsBool _ => "boolean"
  | JsNumber _ => "number"
  | JsString _ => "string"
  | JsArray _ | JsObject _ => "object"
  end.

(** What [obj[key]] finds on an object given by its own properties: an own
    property; or, the key not being an own one, what every object inherits
    from [Object.prototype], namely one of its methods, which is a
    function, or the accessor [__proto__], which gives the prototype, an
    object; or nothing, which reads as [undefined]. *)
Inductive Looked :=
  | Own (v : JsValue)
  | Method
  | Prototype
  | Absent.

(** The methods of [Object.prototype]. *)
Definition object_methods : list string :=
  [ "constructor"; "hasOwnProperty"; "isPrototypeOf"; "propertyIsEnumerable";
    "toLocaleString"; "toString"; "valueOf";
    "__defineGetter__"; "__defineSetter__"; "__lookupGetter__"; "__lookupSetter__" ].

(** [obj[key]] *)
Definition js_lookup (obj : list (string * JsValue)) (key : string) : Looked :=
  match jm_get key obj with
  | Some v => Own v
  | None =>
      if bool_decide (key ∈ object_methods) then Method
      else if String.eqb key "__proto__" then Prototype
      else Absent
  end.

(** [!!x] and [typeof x] of what was found. *)
Definition looked_truthy (x : Looked) : bool :=
  match x with
  | Own v => truthy v
  | Method | Prototype => true
  | Absent => false
  end.

Definition looked_typeof (x : Looked) : string :=
  match x with
  | Own v => typeof v
  | Method => "function"
  | Prototype => "object"
  | Absent => "undefined"
  end.

(** What a function comes to: it returns, or it throws an [Error] with a
    message. *)
Inductive Result (A : Type) :=
  | Returned (a : A)
  | Threw (message : string).
Arguments Returned {A} a.
Arguments Threw {A} message.

(** The double quote, as a text. *)
Definition dquote : string := String (Ascii.ascii_of_nat 34) EmptyString.

(** [assertType(obj, key, type)]; [type] is ["string"] when left out. *)
Definition assertType (obj : list (string * JsValue)) (key : string) (type : string)
    : Result unit :=
  if negb (looked_truthy (js_lookup obj key))
     || negb (String.eqb (looked_typeof (js_lookup obj key)) type)
  then Threw ("Missing or invalid " +:+ dquote +:+ key +:+ dquote +:+ " param")
  else Returned ().

(** [s.split(',')[0]]: the text before the first comma. *)
Fixpoint before_comma (s : string) : string :=
  match s with
  | EmptyString => EmptyString
  | String c s' =>
      if Ascii.eqb c (Ascii.ascii_of_nat 44) then EmptyString
      else String c (before_comma s')
  end.

(** A header of an incoming request: one string, or an array of them. *)
Inductive HeaderValue :=
  | Single (s : string)
  | Multi (items : list string).

(** [http.IncomingMessage], as far as [getRequestIP] reads it. *)
Record IncomingMessage :=
  { headers : list (string * HeaderValue);
    remoteAddress : option string }.

Definition IP_HEADERS : list string := [ "cf-connecting-ip"; "x-forwarded-for" ].

(** The callback [getRequestIP] maps over [IP_HEADERS]; [None] is
    [undefined]. Taking [value[0]] of an empty array gives [undefined],
    whose [split] throws a [TypeError]. *)
Definition header_ip (req : IncomingMessage) (h : string) : Result (option string) :=
  match jm_get h (headers req) with
  | None => Returned None
  | Some (Single s) =>
      if String.eqb s "" then Returned None else Returned (Some (before_comma s))
  | Some (Multi []) => Threw "Cannot read properties of undefined (reading 'split')"
  | Some (Multi (s :: _)) => Returned (Some (before_comma s))
  end.

(** [xs.map(f)] for a callback that may throw. *)
Fixpoint map_result {A B} (f : A → Result B) (xs : list A) : Result (list B) :=
  match xs with
  | [] => Returned []
  | x :: xs' =>
      match f x with
      | Threw m => Threw m
      | Returned b =>
          match map_result f xs' with
          | Threw m => Threw m
          | Returned bs => Returned (b :: bs)
          end
      end
  end.

(** [xs.find(h => !!h)] on strings and [undefined]. *)
Fixpoint find_truthy (xs : list (option string)) : option string :=
  match xs with
  | [] => None
  | Some s :: xs' => if String.eqb s "" then find_truthy xs' else Some s
  | None :: xs' => find_truthy xs'
  end.

Definition getRequestIP (req : IncomingMessage) : Result (option string) :=
  match map_result (header_ip req) IP_HEADERS with
  | Threw m => Threw m
  | Returned ips =>
      match find_truthy ips with
      | Some ip => Returned (Some ip)
      | None => Returned (remoteAddress req)
      end
  end.

(** The text has no comma. *)
Fixpoint comma_free (s : string) : bool :=
  match s with
  | EmptyString => true
  | String c s' => negb (Ascii.eqb c (Ascii.ascii_of_nat 44)) && comma_free s'
  end.

(** *** [POST /subscribe] *)

(** What the route answers: [200 { success: true }] once the webhook is
    registered, or [400 { message }]. *)
Inductive SubscribeReply :=
  | Subscribed (topic webhook : string)
  | BadRequest (message : string).

(** The handler of [POST /subscribe] on a request with the given [body]
    ([JsUndefined] when the request has none). [register] stands for
    [notification.register]: [None] when it returns, the message of its
    error when it throws. Indexing an array body by ["topic"] or
    ["webhook"] gives [undefined], as an object without these fields
    does. *)
Definition post_subscribe (register : string → string → option string) (body : JsValue)
    : SubscribeReply :=
  let fields := match body with JsObject fields => fields | _ => [] end in
  match assertType [("body", body)] "body" "object" with
  | Threw m => BadRequest ("Error: " +:+ m)
  | Returned _ =>
      match assertType fields "topic" "string" with
      | Threw m => BadRequest ("Error: " +:+ m)
      | Returned _ =>
          match assertType fields "webhook" "string" with
          | Threw m => BadRequest ("Error: " +:+ m)
          | Returned _ =>
              match js_lookup fields "topic", js_lookup fields "webhook" with
              | Own (JsString topic), Own (JsString webhook) =>
                  match register topic webhook with
                  | Some m => BadRequest ("Error: " +:+ m)
                  | None => Subscribed topic webhook
                  end
              | _, _ => BadRequest "Error: "
              end
          end
      end
  end.

End Utils.

(** * Part II: the properties *)

(** ** Facts on maps *)

Section JsMapFacts.

Context {K V : Type} `{EqDecision K}.

Lemma jm_get_set_eq (k : K) (v : V) (m : list (K * V)) : jm_get k (jm_set k v m) = Some v.
Proof.
  induction m as [|[k' v'] m IH]; simpl.
  - by rewrite decide_True.
  - destruct (decide (k' = k)) as [->|Hne]; simpl.
    + by rewrite decide_True.
    + by rewrite decide_False.
Qed.

Lemma jm_get_set_ne (k k' : K) (v : V) (m : list (K * V)) : k ≠ k' → jm_get k' (jm_set k v m) = jm_get k' m.
Proof.
  intros Hne. induction m as [|[k0 v0] m IH]; simpl.
  - by rewrite decide_False.
  - destruct (decide (k0 = k)) as [->|Hk0]; simpl.
    + by rewrite !decide_False.
    + by rewrite IH.
Qed.

Lemma jm_get_delete_eq (k : K) (m : list (K * V)) : jm_get k (jm_delete k m) = None.
Proof.
  induction m as [|[k' v'] m IH]; simpl; [done|].
  destruct (decide (k' = k)); simpl; [done|]. by rewrite decide_False.
Qed.

Lemma jm_get_delete_ne (k k' : K) (m : list (K * V)) : k ≠ k' → jm_get k' (jm_delete k m) = jm_get k' m.
Proof.
  intros Hne. induction m as [|[k0 v0] m IH]; simpl; [done|].
  destruct (decide (k0 = k)) as [->|Hk0]; simpl.
  - by rewrite decide_False.
  - by rewrite IH.
Qed.

Lemma jm_get_None (k : K) (m : list (K * V)) : jm_get k m = None ↔ k ∉ jm_keys m.
Proof.
  unfold jm_keys. induction m as [|[k' v'] m IH]; simpl.
  - split; [intros _; apply not_elem_of_nil | done].
  - rewrite not_elem_of_cons. destruct (decide (k' = k)) as [->|Hne].
    + split; [done | intros [? _]; done].
    + rewrite IH. split; [intros ?; split; [congruence|done] | intros [_ ?]; done].
Qed.

Lemma jm_get_Some_elem (k : K) (v : V) (m : list (K * V)) : jm_get k m = Some v → (k, v) ∈ m.
Proof.
  induction m as [|[k' v'] m IH]; simpl; [done|].
  destruct (decide (k' = k)) as [->|Hne].
  - intros [= ->]. apply list_elem_of_here.
  - intros H. apply list_elem_of_further, IH, H.
Qed.

Lemma jm_elem_get (k : K) (v : V) (m : list (K * V)) : NoDup (jm_keys m) → (k, v) ∈ m → jm_get k m = Some v.
Proof.
  unfold jm_keys. induction m as [|[k' v'] m IH]; simpl.
  - intros _ H. by apply elem_of_nil in H.
  - intros Hnd H. apply NoDup_cons in Hnd as [Hnotin Hnd].
    apply elem_of_cons in H as [[= -> ->]|H].
    + by rewrite decide_True.
    + destruct (decide (k' = k)) as [->|Hne]; [|by apply IH].
      exfalso. apply Hnotin. apply (list_elem_of_fmap_2 fst) in H. exact H.
Qed.

Lemma jm_keys_delete (k : K) (m : list (K * V)) (k' : K) :
  k' ∈ jm_keys (jm_delete k m) ↔ k' ≠ k ∧ k' ∈ jm_keys m.
Proof.
  unfold jm_keys. induction m as [|[k0 v0] m IH]; simpl.
  - split; [intros H; by apply elem_of_nil in H | intros [_ H]; done].
  - destruct (decide (k0 = k)) as [->|Hne]; simpl.
    + rewrite IH, elem_of_cons. naive_solver.
    + rewrite !elem_of_cons, IH. naive_solver.
Qed.

Lemma jm_NoDup_delete (k : K) (m : list (K * V)) : NoDup (jm_keys m) → NoDup (jm_keys (jm_delete k m)).
Proof.
  induction m as [|[k0 v0] m IH]; simpl; [done|].
  unfold jm_keys in *. simpl. rewrite NoDup_cons. intros [Hnotin Hnd].
  destruct (decide (k0 = k)); simpl; [by apply IH|].
  apply NoDup_cons. split; [|by apply IH].
  intros Hin. apply Hnotin. by apply (jm_keys_delete k m k0) in Hin as [_ ?].
Qed.

Lemma jm_keys_set (k : K) (v : V) (m : list (K * V)) (k' : K) :
  k' ∈ jm_keys (jm_set k v m) ↔ k' = k ∨ k' ∈ jm_keys m.
Proof.
  unfold jm_keys. induction m as [|[k0 v0] m IH]; simpl.
  - rewrite list_elem_of_singleton. split; [by left | intros [?|H]; [done|by apply elem_of_nil in H]].
  - destruct (decide (k0 = k)) as [->|Hne]; simpl.
    + rewrite !elem_of_cons. naive_solver.
    + rewrite !elem_of_cons, IH. naive_solver.
Qed.

Lemma jm_NoDup_set (k : K) (v : V) (m : list (K * V)) : NoDup (jm_keys m) → NoDup (jm_keys (jm_set k v m)).
Proof.
  induction m as [|[k0 v0] m IH]; simpl.
  - intros _. apply NoDup_singleton.
  - unfold jm_keys in *. simpl. rewrite NoDup_cons. intros [Hnotin Hnd].
    destruct (decide (k0 = k)) as [->|Hne]; simpl.
    + by apply NoDup_cons.
    + apply NoDup_cons. split; [|by apply IH].
      intros Hin. apply (jm_keys_set k v m k0) in Hin as [?|?]; [congruence|done].
Qed.

Lemma jm_elem_set (k : K) (v : V) (m : list (K * V)) (p : K * V) :
  p ∈ jm_set k v m → p = (k, v) ∨ p ∈ m.
Proof.
  induction m as [|[k0 v0] m IH]; simpl.
  - rewrite list_elem_of_singleton. by left.
  - destruct (decide (k0 = k)) as [->|Hne]; rewrite !elem_of_cons; naive_solver.
Qed.

Lemma jm_elem_delete (k : K) (m : list (K * V)) (p : K * V) : p ∈ jm_delete k m → p ∈ m.
Proof.
  induction m as [|[k0 v0] m IH]; simpl; [done|].
  destruct (decide (k0 = k)) as [->|Hne]; rewrite ?elem_of_cons; naive_solver.
Qed.

Lemma jm_get_Some_key (k : K) (v : V) (m : list (K * V)) : jm_get k m = Some v → k ∈ jm_keys m.
Proof.
  intros Hget. destruct (decide (k ∈ jm_keys m)) as [|Hnot]; [done|].
  apply jm_get_None in Hnot. congruence.
Qed.

Lemma jm_get_Some_value (k : K) (v : V) (m : list (K * V)) : jm_get k m = Some v → v ∈ jm_values m.
Proof.
  intros Hget. apply jm_get_Some_elem in Hget.
  apply (list_elem_of_fmap_2 snd _ (k, v)), Hget.
Qed.

Lemma jm_elem_delete_ne (k k' : K) (v : V) (m : list (K * V)) : (k', v) ∈ jm_delete k m → k' ≠ k.
Proof.
  intros Hin. apply (list_elem_of_fmap_2 fst) in Hin. simpl in Hin.
  by apply (jm_keys_delete k m k') in Hin as [? _].
Qed.

Lemma jm_values_delete (k : K) (v : V) (m : list (K * V)) :
  v ∈ jm_values (jm_delete k m) → v ∈ jm_values m.
Proof.
  unfold jm_values. intros Hin. apply list_elem_of_fmap in Hin as ([k' v'] & -> & Hin).
  apply (list_elem_of_fmap_2 snd _ (k', v')). by apply (jm_elem_delete k).
Qed.

Lemma jm_NoDup_values_delete (k : K) (m : list (K * V)) :
  NoDup (jm_values m) → NoDup (jm_values (jm_delete k m)).
Proof.
  induction m as [|[k0 v0] m IH]; simpl; [done|].
  unfold jm_values in *. simpl. rewrite NoDup_cons. intros [Hnotin Hnd].
  destruct (decide (k0 = k)); simpl; [by apply IH|].
  apply NoDup_cons. split; [|by apply IH].
  intros Hin. by apply Hnotin, (jm_values_delete k).
Qed.

Lemma jm_value_key (k1 k2 : K) (v : V) (m : list (K * V)) :
  NoDup (jm_values m) → (k1, v) ∈ m → (k2, v) ∈ m → k1 = k2.
Proof.
  unfold jm_values. induction m as [|[k0 v0] m IH]; simpl.
  - intros _ H. by apply elem_of_nil in H.
  - rewrite NoDup_cons. intros [Hnotin Hnd] H1 H2.
    apply elem_of_cons in H1 as [H1|H1]; apply elem_of_cons in H2 as [H2|H2].
    + congruence.
    + exfalso. apply Hnotin. injection H1 as _ <-.
      apply (list_elem_of_fmap_2 snd _ (k2, v)), H2.
    + exfalso. apply Hnotin. injection H2 as _ <-.
      apply (list_elem_of_fmap_2 snd _ (k1, v)), H1.
    + by apply IH.
Qed.

End JsMapFacts.

(** ** Properties of the history *)

Module HistoryFacts.

Import History.

Ltac async :=
  unfold set, update, get, exists_, getRecord, emit, persist, logger_error,
    isEnabled, this, modify, throw, try_catch,
    mbind, Async_bind, mret, Async_ret in *;
  simpl in *.

Lemma gate_cases h : gate_open h ∨ ¬ gate_open h.
Proof. unfold gate_open. destruct (cached h); [by left | by right]. Qed.

Lemma gate_open_length h : gate_open h → (length (cached h) =? 0)%nat = true.
Proof. unfold gate_open. by intros ->. Qed.

Lemma gate_closed_length h : ¬ gate_open h → (length (cached h) =? 0)%nat = false.
Proof. unfold gate_open. by destruct (cached h). Qed.

Lemma records_ok_nil : records_ok [].
Proof. split; [apply NoDup_nil_2 | apply Forall_nil_2]. Qed.

Lemma records_ok_id m k r : records_ok m → jm_get k m = Some r → rec_id r = k.
Proof.
  intros [_ Hall] Hget. apply jm_get_Some_elem in Hget.
  rewrite Forall_forall in Hall. by apply (Hall (k, r)).
Qed.

Lemma records_ok_set m r : records_ok m → records_ok (jm_set (rec_id r) r m).
Proof.
  intros [Hnd Hall]. split; [by apply jm_NoDup_set|].
  rewrite Forall_forall in *. intros p Hp.
  apply jm_elem_set in Hp as [->|Hp]; [done | by apply Hall].
Qed.


Lemma jm_has_true {V} (k : Z) (m : list (Z * V)) :
  jm_has k m = true ↔ ∃ v, jm_get k m = Some v.
Proof. unfold jm_has. destruct (jm_get k m); naive_solver. Qed.

Lemma jm_has_false {V} (k : Z) (m : list (Z * V)) :
  jm_has k m = false ↔ jm_get k m = None.
Proof. unfold jm_has. destruct (jm_get k m); naive_solver. Qed.

(** *** [get] *)

Lemma getRecord_found id h r :
  gate_open h → jm_get id (records h) = Some r → getRecord id h = (Resolved r, h).
Proof. intros Hg Hr. async. by rewrite (gate_open_length h Hg), Hr. Qed.

Lemma getRecord_missing id h :
  gate_open h → jm_get id (records h) = None →
  getRecord id h = (Rejected (NO_MATCHING_ID id), with_logged (NO_MATCHING_ID id) h).
Proof. intros Hg Hr. async. by rewrite (gate_open_length h Hg), Hr. Qed.

Lemma get_missing topic id h :
  gate_open h → jm_get id (records h) = None →
  get topic id h = (Rejected (NO_MATCHING_ID id), with_logged (NO_MATCHING_ID id) h).
Proof.
  intros Hg Hnone. pose proof (gate_open_length h Hg) as Hlen.
  async. by rewrite !Hlen, Hnone.
Qed.

Lemma get_mismatch topic id h r :
  gate_open h → jm_get id (records h) = Some r → rec_topic r ≠ topic →
  get topic id h = (Rejected (MISMATCHED_TOPIC id), with_logged (MISMATCHED_TOPIC id) h).
Proof.
  intros Hg Hr Hne. pose proof (gate_open_length h Hg) as Hlen.
  async. rewrite !Hlen, Hr. by rewrite decide_True.
Qed.

Lemma get_found topic id h r :
  gate_open h → jm_get id (records h) = Some r → rec_topic r = topic →
  get topic id h = (Resolved r, h).
Proof.
  intros Hg Hr Heq. pose proof (gate_open_length h Hg) as Hlen.
  async. rewrite !Hlen, Hr. by rewrite decide_False by (intros ?; done).
Qed.

Lemma get_records topic id h : gate_open h → records (get topic id h).2 = records h.
Proof.
  intros Hg. destruct (jm_get id (records h)) as [r|] eqn:Hr; [|by rewrite get_missing].
  destruct (decide (rec_topic r = topic)) as [Ht|Ht].
  - by rewrite (get_found topic id h r).
  - by rewrite (get_mismatch topic id h r).
Qed.

(** C6. [get(topic, id)] past the gate: with no record under [id] it
    rejects with NO_MATCHING_ID; with a record of another topic it
    rejects with MISMATCHED_TOPIC; otherwise it resolves to the stored
    record. In every case the [records] map is the one it was called
    with. *)
Theorem get_spec (topic : string) (id : Z) (h : History) :
  gate_open h →
  (jm_get id (records h) = None →
     get topic id h = (Rejected (NO_MATCHING_ID id), with_logged (NO_MATCHING_ID id) h)) ∧
  (∀ r, jm_get id (records h) = Some r → rec_topic r ≠ topic →
     get topic id h = (Rejected (MISMATCHED_TOPIC id), with_logged (MISMATCHED_TOPIC id) h)) ∧
  (∀ r, jm_get id (records h) = Some r → rec_topic r = topic →
     get topic id h = (Resolved r, h)) ∧
  records (get topic id h).2 = records h.
Proof.
  intros Hg. split; [by apply get_missing|].
  split; [intros r; by apply get_mismatch|].
  split; [intros r; by apply get_found|].
  by apply get_records.
Qed.

Lemma get_parked topic id h : ¬ gate_open h → get topic id h = (Suspended, h).
Proof. intros Hg. async. by rewrite (gate_closed_length h Hg). Qed.

(** *** [set] *)

Lemma set_fresh topic request chainId h :
  gate_open h → jm_get (req_id request) (records h) = None →
  set topic request chainId h =
    (Resolved (),
     with_stored (jm_values (jm_set (req_id request) (record_of topic request chainId) (records h)))
       (with_emitted (created (record_of topic request chainId))
          (with_records (jm_set (req_id request) (record_of topic request chainId)) h))).
Proof.
  intros Hg Hnone. apply jm_has_false in Hnone. async.
  by rewrite (gate_open_length h Hg), Hnone.
Qed.

Lemma set_taken topic request chainId h :
  gate_open h → jm_has (req_id request) (records h) = true →
  set topic request chainId h =
    (Rejected (RECORD_ALREADY_EXISTS (req_id request)),
     with_logged (RECORD_ALREADY_EXISTS (req_id request)) h).
Proof. intros Hg Hhas. async. by rewrite (gate_open_length h Hg), Hhas. Qed.

(** C5, as the code has it. [set(topic, request, chainId)] past the gate:
    when a record is filed under [request.id], whatever its topic, the call
    rejects with RECORD_ALREADY_EXISTS and leaves the map as it was;
    otherwise it resolves, the map holds under [request.id] the record
    [{id, topic, request: {method, params: request.params || null},
    chainId}] with no response, every other key is as before, and [get]
    with the same topic and id returns that record. For truthy [params]
    this is the record with the request's own [params]. *)
Theorem set_spec (topic : string) (request : JsonRpcRequest) (chainId : option string)
    (h : History) :
  gate_open h →
  (∀ r, jm_get (req_id request) (records h) = Some r →
     (set topic request chainId h).1 = Rejected (RECORD_ALREADY_EXISTS (req_id request)) ∧
     records (set topic request chainId h).2 = records h) ∧
  (jm_get (req_id request) (records h) = None →
     let h' := (set topic request chainId h).2 in
     (set topic request chainId h).1 = Resolved () ∧
     jm_get (req_id request) (records h') = Some (record_of topic request chainId) ∧
     (∀ k, k ≠ req_id request → jm_get k (records h') = jm_get k (records h)) ∧
     get topic (req_id request) h' = (Resolved (record_of topic request chainId), h') ∧
     (truthy (req_params request) = true →
        record_of topic request chainId = record_as_specified topic request chainId)).
Proof.
  intros Hg. split.
  - intros r Hr. rewrite set_taken; [done..|]. apply jm_has_true. eauto.
  - intros Hnone. simpl. rewrite (set_fresh _ _ _ _ Hg Hnone). simpl.
    split; [done|]. split; [apply jm_get_set_eq|]. split.
    + intros k Hk. by apply jm_get_set_ne.
    + split; [apply get_found; [exact Hg | apply jm_get_set_eq | done]|].
      intros Htruthy. unfold record_of, record_as_specified, js_or. by rewrite Htruthy.
Qed.

(** *** [update] *)

Lemma update_parked topic response h :
  ¬ gate_open h → update topic response h = (Suspended, h).
Proof. intros Hg. async. by rewrite (gate_closed_length h Hg). Qed.

Lemma update_noop topic response h :
  gate_open h →
  (jm_get (resp_id response) (records h) = None ∨
   ∃ r, jm_get (resp_id response) (records h) = Some r ∧
        (rec_topic r ≠ topic ∨ rec_response r ≠ None)) →
  update topic response h = (Resolved (), h).
Proof.
  intros Hg Hcase. pose proof (gate_open_length h Hg) as Hlen.
  async. unfold jm_has.
  destruct Hcase as [Hget|(r & Hget & Hr)];
    repeat (first [rewrite Hlen | rewrite Hget]; simpl); [done|].
  destruct (decide (rec_topic r ≠ topic)); [done|].
  destruct (decide (rec_response r ≠ None)); [done|]. naive_solver.
Qed.

Lemma update_applies topic response h r :
  gate_open h →
  jm_get (resp_id response) (records h) = Some r →
  rec_topic r = topic → rec_response r = None →
  ∃ h', update topic response h = (Resolved (), h') ∧
        records h' =
          jm_set (rec_id r) (with_response r (response_of response))
            (jm_set (resp_id response) (with_response r (response_of response)) (records h)) ∧
        cached h' = cached h ∧
        emitted h' = emitted h ++ [updated (with_response r (response_of response))].
Proof.
  intros Hg Hr Ht Hnone. pose proof (gate_open_length h Hg) as Hlen.
  async. unfold jm_has.
  repeat (first [rewrite Hlen | rewrite Hr]; simpl).
  rewrite decide_False by (intros ?; done).
  rewrite decide_False by (intros ?; done).
  eexists. split; [reflexivity|]. by destruct response.
Qed.

Lemma update_ok topic response h :
  records_ok (records h) → records_ok (records (update topic response h).2).
Proof.
  intros Hok. destruct (gate_cases h) as [Hg|Hg];
    [|by rewrite update_parked].
  destruct (jm_get (resp_id response) (records h)) as [r|] eqn:Hr;
    [|rewrite update_noop; auto].
  destruct (decide (rec_topic r = topic)) as [Ht|Ht];
    [|rewrite update_noop; eauto].
  destruct (rec_response r) as [x|] eqn:Hx.
  { rewrite update_noop; [done..|]. right. exists r. split; [done|]. right. by rewrite Hx. }
  destruct (update_applies topic response h r Hg Hr Ht Hx) as (h' & Hrun & Hrec & _).
  rewrite Hrun. simpl. rewrite Hrec.
  pose proof (records_ok_id _ _ _ Hok Hr) as Hid.
  apply (records_ok_set _ (with_response r (response_of response))).
  rewrite <- Hid.
  apply (records_ok_set _ (with_response r (response_of response))), Hok.
Qed.

Lemma update_keeps_answered topic response h k r :
  records_ok (records h) →
  jm_get k (records h) = Some r → rec_response r ≠ None →
  jm_get k (records (update topic response h).2) = Some r.
Proof.
  intros Hok Hk Hans. destruct (gate_cases h) as [Hg|Hg];
    [|by rewrite update_parked].
  destruct (jm_get (resp_id response) (records h)) as [r0|] eqn:Hr;
    [|rewrite update_noop; auto].
  destruct (decide (rec_topic r0 = topic)) as [Ht|Ht];
    [|rewrite update_noop; eauto].
  destruct (rec_response r0) as [x|] eqn:Hx.
  { rewrite update_noop; [done..|]. right. exists r0. split; [done|]. right. by rewrite Hx. }
  destruct (update_applies topic response h r0 Hg Hr Ht Hx) as (h' & Hrun & Hrec & _).
  rewrite Hrun. simpl. rewrite Hrec.
  pose proof (records_ok_id _ _ _ Hok Hr) as Hid. rewrite Hid.
  assert (resp_id response ≠ k) as Hne.
  { intros <-. rewrite Hr in Hk. injection Hk as ->. by rewrite Hx in Hans. }
  by rewrite !jm_get_set_ne.
Qed.

Lemma updates_keep_answered calls : ∀ h k r,
  records_ok (records h) →
  jm_get k (records h) = Some r → rec_response r ≠ None →
  jm_get k (records (updates calls h)) = Some r.
Proof.
  induction calls as [|[t resp] calls IH]; intros h k r Hok Hk Hans; [done|].
  simpl. apply IH; [by apply update_ok | by apply update_keeps_answered | done].
Qed.


(** *** [delete] *)

Lemma delete_unfold topic id h :
  gate_open h → delete topic id h = forEach (values h) (delete_step topic id) h.
Proof.
  intros Hg. unfold delete. async. by rewrite (gate_open_length h Hg).
Qed.

Lemma delete_step_skip topic id record h :
  selected topic id record = false → delete_step topic id record h = (Resolved (), h).
Proof.
  unfold selected, delete_step. intros Hsel.
  destruct (decide (rec_topic record = topic)) as [Ht|Ht]; [|done].
  rewrite bool_decide_eq_true_2 in Hsel by done. simpl in Hsel.
  destruct id as [i|]; [|done].
  apply bool_decide_eq_false in Hsel. by rewrite decide_True.
Qed.

Lemma delete_step_hit topic id record h :
  selected topic id record = true →
  delete_step topic id record h =
    (Resolved (),
     with_stored (jm_values (jm_delete (rec_id record) (records h)))
       (with_emitted (deleted record)
          (with_records (jm_delete (rec_id record)) h))).
Proof.
  unfold selected, delete_step. intros Hsel.
  apply andb_true_iff in Hsel as [Ht Hid]. apply bool_decide_eq_true in Ht.
  rewrite decide_True by done.
  destruct id as [i|]; [|done].
  apply bool_decide_eq_true in Hid. by rewrite decide_False by (intros ?; done).
Qed.

Lemma delete_loop topic id l : ∀ h,
  ∃ h', forEach l (delete_step topic id) h = (Resolved (), h') ∧
        records h' = delete_all topic id l (records h) ∧
        cached h' = cached h ∧
        emitted h' = (emitted h ++ (deleted <$> filter (λ r, selected topic id r = true) l))%list.
Proof.
  induction l as [|record l IH]; intros h; simpl.
  - exists h. by rewrite app_nil_r.
  - unfold mbind, Async_bind at 1.
    destruct (selected topic id record) eqn:Hsel.
    + rewrite (delete_step_hit _ _ _ _ Hsel).
      destruct (IH (with_stored (jm_values (jm_delete (rec_id record) (records h)))
                      (with_emitted (deleted record)
                         (with_records (jm_delete (rec_id record)) h))))
        as (h' & -> & Hrec & Hc & Hev).
      exists h'. split; [done|]. split; [done|]. split; [done|].
      rewrite Hev. simpl. rewrite filter_cons_True by done.
      by rewrite fmap_cons, <- app_assoc.
    + rewrite (delete_step_skip _ _ _ _ Hsel).
      destruct (IH h) as (h' & -> & Hrec & Hc & Hev).
      exists h'. split; [done|]. split; [done|]. split; [done|].
      rewrite Hev. by rewrite filter_cons_False by (by rewrite Hsel).
Qed.

Lemma get_delete_all topic id l : ∀ m k,
  jm_get k (delete_all topic id l m) =
    if existsb (λ r, selected topic id r && bool_decide (rec_id r = k)) l
    then None else jm_get k m.
Proof.
  unfold delete_all. induction l as [|record l IH]; intros m k; simpl; [done|].
  rewrite IH. clear IH.
  destruct (existsb _ l); [by rewrite orb_true_r|]. rewrite orb_false_r.
  destruct (selected topic id record); simpl; [|done].
  destruct (decide (rec_id record = k)) as [Hk|Hk].
  - rewrite bool_decide_eq_true_2 by done. by rewrite Hk, jm_get_delete_eq.
  - rewrite bool_decide_eq_false_2 by done. by rewrite jm_get_delete_ne.
Qed.

(** With one entry per key, each filed under its own [id], the records the
    loop meets under a key are the one record the map holds there. *)
Lemma existsb_values topic id m k :
  records_ok m →
  existsb (λ r, selected topic id r && bool_decide (rec_id r = k)) (jm_values m) =
    match jm_get k m with
    | Some r => selected topic id r
    | None => false
    end.
Proof.
  intros Hok. destruct (existsb _ _) eqn:Hex.
  - apply existsb_exists in Hex as (r & Hin & Hand).
    apply andb_true_iff in Hand as [Hsel Hid]. apply bool_decide_eq_true in Hid.
    apply list_elem_of_In in Hin. unfold jm_values in Hin.
    apply list_elem_of_fmap in Hin as ([k' r'] & -> & Hin). simpl in *.
    destruct Hok as [Hnd Hall]. rewrite Forall_forall in Hall.
    pose proof (Hall _ Hin) as Hkey. simpl in Hkey.
    rewrite <- Hid, Hkey. by rewrite (jm_elem_get _ _ _ Hnd Hin), Hsel.
  - destruct (jm_get k m) as [r|] eqn:Hget; [|done].
    destruct (selected topic id r) eqn:Hsel; [|done].
    exfalso. apply not_true_iff_false in Hex. apply Hex.
    apply existsb_exists. exists r. split.
    + apply list_elem_of_In. unfold jm_values.
      apply (list_elem_of_fmap_2 snd _ (k, r)). by apply jm_get_Some_elem.
    + rewrite Hsel. simpl. apply bool_decide_eq_true.
      by apply (records_ok_id m).
Qed.

Lemma filter_agree {A} (P Q : A → Prop) `{∀ x, Decision (P x)} `{∀ x, Decision (Q x)}
    (l : list A) :
  (∀ x, x ∈ l → P x ↔ Q x) → filter P l = filter Q l.
Proof.
  induction l as [|x l IH]; intros Hagree; [done|].
  rewrite !filter_cons.
  rewrite IH by (intros y Hy; apply Hagree; by apply list_elem_of_further).
  pose proof (Hagree x (list_elem_of_here x l)) as Hx.
  destruct (decide (P x)) as [HP|HP], (decide (Q x)) as [HQ|HQ]; try done.
  - exfalso. by apply HQ, Hx.
  - exfalso. by apply HP, Hx.
Qed.

(** C7. [delete(topic, id)] past the gate resolves. With an [id], the
    record under that [id] is removed exactly when its stored topic is
    [topic], and every other key keeps its record. Without an [id], every
    record whose topic is [topic] is removed and every record of another
    topic stays. The events emitted are one [deleted] per removed record,
    in the order of the map. *)
Theorem delete_spec (topic : string) (id : option Z) (h : History) :
  records_ok (records h) → gate_open h →
  let h' := (delete topic id h).2 in
  (delete topic id h).1 = Resolved () ∧
  (∀ i, id = Some i →
     (∀ r, jm_get i (records h) = Some r → rec_topic r = topic →
        jm_get i (records h') = None) ∧
     (∀ r, jm_get i (records h) = Some r → rec_topic r ≠ topic →
        jm_get i (records h') = Some r) ∧
     (∀ k, k ≠ i → jm_get k (records h') = jm_get k (records h))) ∧
  (id = None →
     ∀ k r, jm_get k (records h) = Some r →
       (rec_topic r = topic → jm_get k (records h') = None) ∧
       (rec_topic r ≠ topic → jm_get k (records h') = Some r)) ∧
  (∀ k, jm_get k (records h) = None → jm_get k (records h') = None) ∧
  emitted h' =
    (emitted h ++
     (deleted <$> filter (λ r, jm_get (rec_id r) (records h') = None) (values h)))%list.
Proof.
  intros Hok Hg. simpl. rewrite (delete_unfold _ _ _ Hg).
  destruct (delete_loop topic id (values h) h) as (h' & -> & Hrec & _ & Hev). simpl.
  assert (∀ k, jm_get k (records h') =
               match jm_get k (records h) with
               | Some r => if selected topic id r then None else Some r
               | None => None
               end) as Hget.
  { intros k. rewrite Hrec, get_delete_all. unfold values.
    rewrite (existsb_values _ _ _ _ Hok).
    destruct (jm_get k (records h)) as [r|]; [|done]. by destruct (selected topic id r). }
  split; [done|]. split; [|split; [|split]].
  - intros i ->. split; [|split].
    + intros r Hr Ht. rewrite Hget, Hr. unfold selected.
      rewrite bool_decide_eq_true_2 by done.
      by rewrite bool_decide_eq_true_2 by (by apply (records_ok_id (records h))).
    + intros r Hr Ht. rewrite Hget, Hr. unfold selected.
      by rewrite bool_decide_eq_false_2 by done.
    + intros k Hk. rewrite Hget. destruct (jm_get k (records h)) as [r|] eqn:Hr; [|done].
      unfold selected. rewrite (bool_decide_eq_false_2 (rec_id r = i)).
      * by rewrite andb_false_r.
      * rewrite (records_ok_id _ _ _ Hok Hr). done.
  - intros -> k r Hr. split; intros Ht; rewrite Hget, Hr; unfold selected.
    + by rewrite bool_decide_eq_true_2 by done.
    + by rewrite bool_decide_eq_false_2 by done.
  - intros k Hk. by rewrite Hget, Hk.
  - rewrite Hev. f_equal. f_equal. apply filter_agree.
    intros r Hin. unfold values, jm_values in Hin.
    apply list_elem_of_fmap in Hin as ([k r'] & -> & Hin). simpl.
    destruct Hok as [Hnd Hall]. rewrite Forall_forall in Hall.
    pose proof (Hall _ Hin) as Hkey. simpl in Hkey.
    rewrite Hget, Hkey, (jm_elem_get _ _ _ Hnd Hin).
    destruct (selected topic id r'); naive_solver.
Qed.

(** *** The gate *)

Lemma run_parked c h : ¬ gate_open h → run c h = (Suspended, h).
Proof.
  intros Hg. pose proof (gate_closed_length h Hg) as Hlen.
  destruct c; unfold run, delete; async; by rewrite Hlen.
Qed.

Lemma exists_settles topic id h : gate_open h → ∃ b, exists_ topic id h = (Resolved b, h).
Proof.
  intros Hg. pose proof (gate_open_length h Hg) as Hlen. async. unfold jm_has.
  destruct (jm_get id (records h)) as [r|] eqn:Hr;
    repeat (first [rewrite Hlen | rewrite Hr]; simpl); by eexists.
Qed.

Lemma run_settles c h : gate_open h → (run c h).1 ≠ Suspended.
Proof.
  intros Hg. destruct c as [topic request chainId|topic response|topic id|topic id|topic id];
    unfold run, mbind, Async_bind, mret, Async_ret.
  - destruct (jm_get (req_id request) (records h)) as [r|] eqn:Hr.
    + rewrite set_taken; [done..|]. apply jm_has_true; eauto.
    + by rewrite set_fresh.
  - destruct (jm_get (resp_id response) (records h)) as [r|] eqn:Hr;
      [|rewrite update_noop; auto].
    destruct (decide (rec_topic r = topic)) as [Ht|Ht];
      [|rewrite update_noop; eauto].
    destruct (rec_response r) as [x|] eqn:Hx.
    + rewrite update_noop; [done..|]. right. exists r. split; [done|]. right. by rewrite Hx.
    + by destruct (update_applies topic response h r Hg Hr Ht Hx) as (h' & -> & _).
  - destruct (jm_get id (records h)) as [r|] eqn:Hr.
    + destruct (decide (rec_topic r = topic)) as [Ht|Ht].
      * by rewrite (get_found topic id h r).
      * by rewrite (get_mismatch topic id h r).
    + by rewrite get_missing.
  - rewrite (delete_unfold _ _ _ Hg).
    by destruct (delete_loop topic id (values h) h) as (h' & -> & _).
  - by destruct (exists_settles topic id h Hg) as (b & ->).
Qed.

Lemma enable_unfold h : enable h = (Resolved (), foldl resume (opened h) (waiting h)).
Proof. done. Qed.

Lemma invoke_parked c h :
  ¬ gate_open h → invoke c h = (None, with_waiting (waiting h ++ [c]) h).
Proof. intros Hg. unfold invoke. by rewrite run_parked. Qed.

Lemma invoke_settles c h :
  gate_open h → invoke c h = (Some (run c h).1, (run c h).2).
Proof.
  intros Hg. unfold invoke. pose proof (run_settles c h Hg) as Hrun.
  by destruct (run c h) as [[a|e|] h'].
Qed.

Lemma restore_loop l : ∀ h,
  ∃ h', forEach l (λ record, modify (with_records (jm_set (rec_id record) record))) h
          = (Resolved (), h') ∧
        cached h' = cached h ∧
        records h' = foldl (λ m record, jm_set (rec_id record) record m) (records h) l ∧
        emitted h' = emitted h ∧ logged h' = logged h ∧ waiting h' = waiting h.
Proof.
  induction l as [|record l IH]; intros h; simpl; [by exists h|].
  unfold mbind, Async_bind at 1. unfold modify at 1.
  destruct (IH (with_records (jm_set (rec_id record) record) h)) as (h' & -> & ? & ? & ?).
  by exists h'.
Qed.

Lemma restore_load_loads persisted h :
  persisted ≠ [] → records h = [] →
  ∃ h', restore_load (Some persisted) h = (Resolved true, h') ∧
        cached h' = persisted ∧
        records h' = foldl (λ m record, jm_set (rec_id record) record m) [] persisted ∧
        waiting h' = waiting h.
Proof.
  intros Hne Hempty.
  destruct (restore_loop persisted (with_cached persisted h))
    as (h' & Hrun & Hc & Hr & _ & _ & Hw).
  exists h'. unfold restore_load.
  assert ((length persisted =? 0)%nat = false) as -> by (by destruct persisted).
  unfold mbind, Async_bind, this, mret, Async_ret. rewrite Hempty. simpl.
  unfold modify in *. simpl. rewrite Hrun.
  split; [done|]. split; [done|]. split; [|done].
  rewrite Hr. simpl. by rewrite Hempty.
Qed.

Lemma run_cached c h : cached (run c h).2 = cached h.
Proof.
  destruct (gate_cases h) as [Hg|Hg]; [|by rewrite run_parked].
  destruct c as [topic request chainId|topic response|topic id|topic id|topic id];
    unfold run, mbind, Async_bind, mret, Async_ret.
  - destruct (jm_get (req_id request) (records h)) as [r|] eqn:Hr.
    + rewrite set_taken; [done..|]. apply jm_has_true; eauto.
    + by rewrite set_fresh.
  - destruct (jm_get (resp_id response) (records h)) as [r|] eqn:Hr;
      [|rewrite update_noop; auto].
    destruct (decide (rec_topic r = topic)) as [Ht|Ht];
      [|rewrite update_noop; eauto].
    destruct (rec_response r) as [x|] eqn:Hx.
    + rewrite update_noop; [done..|]. right. exists r. split; [done|]. right. by rewrite Hx.
    + destruct (update_applies topic response h r Hg Hr Ht Hx) as (h' & Hrun & _ & Hc & _).
      by rewrite Hrun.
  - destruct (jm_get id (records h)) as [r|] eqn:Hr.
    + destruct (decide (rec_topic r = topic)) as [Ht|Ht].
      * by rewrite (get_found topic id h r).
      * by rewrite (get_mismatch topic id h r).
    + by rewrite get_missing.
  - rewrite (delete_unfold _ _ _ Hg).
    destruct (delete_loop topic id (values h) h) as (h' & Hrun & _ & Hc & _).
    by rewrite Hrun.
  - by destruct (exists_settles topic id h Hg) as (b & ->).
Qed.

Lemma resume_cached h c : cached (resume h c) = cached h.
Proof.
  unfold resume, invoke. pose proof (run_cached c h) as Hc.
  by destruct (run c h) as [[a|e|] h'].
Qed.

Lemma resumes_cached l : ∀ h, cached (foldl resume h l) = cached h.
Proof.
  induction l as [|c l IH]; intros h; simpl; [done|]. by rewrite IH, resume_cached.
Qed.

Lemma resume_open h c :
  gate_open h → resume h c = with_settled c (run c h).1 (run c h).2.
Proof. intros Hg. unfold resume. by rewrite invoke_settles. Qed.

Lemma enable_opens h : gate_open (enable h).2.
Proof. rewrite enable_unfold. simpl. unfold gate_open. by rewrite resumes_cached. Qed.

(** *** Every reachable instance is well formed *)






Lemma restore_load_cases persisted h :
  (∃ h', restore_load persisted h = (Resolved false, h') ∧ records h' = records h) ∨
  (∃ h', restore_load persisted h = (Rejected RESTORE_WILL_OVERRIDE, h') ∧
         records h' = records h) ∨
  (∃ h' l, restore_load persisted h = (Resolved true, h') ∧ records h = [] ∧
           records h' = foldl (λ m record, jm_set (rec_id record) record m) [] l).
Proof.
  destruct persisted as [l|]; [|left; by exists h].
  destruct l as [|record l]; [left; by exists h|].
  destruct (records h) as [|e m] eqn:Hm.
  - right. right.
    destruct (restore_load_loads (record :: l) h) as (h' & Hrun & _ & Hrec & _); [done..|].
    by exists h', (record :: l).
  - right. left. exists (with_logged RESTORE_WILL_OVERRIDE h). split; [|done].
    unfold restore_load, mbind, Async_bind, this, logger_error, modify, throw, jm_size.
    simpl. by rewrite Hm.
Qed.





(** *** [restore] over records already present *)

(** C4, as the code has it. [restore] (and so [init]) of a non-empty
    snapshot into an instance that already holds records raises
    RESTORE_WILL_OVERRIDE inside its [try] block; the [catch] block logs
    it and the call resolves. The records and the [cached] snapshot are
    left as they were, and nothing is emitted. *)
Theorem restore_override (persisted : list JsonRpcRecord) (h : History) :
  records h ≠ [] → persisted ≠ [] →
  restore (Some persisted) h =
    (Resolved (), with_logged RESTORE_WILL_OVERRIDE (with_logged RESTORE_WILL_OVERRIDE h)) ∧
  init (Some persisted) h = restore (Some persisted) h ∧
  records (init (Some persisted) h).2 = records h ∧
  cached (init (Some persisted) h).2 = cached h ∧
  emitted (init (Some persisted) h).2 = emitted h.
Proof.
  intros Hrec Hper.
  assert (restore (Some persisted) h =
            (Resolved (), with_logged RESTORE_WILL_OVERRIDE
                            (with_logged RESTORE_WILL_OVERRIDE h))) as Hrun.
  { unfold restore, restore_load, try_catch, mbind, Async_bind, this, logger_error,
      modify, throw, jm_size.
    destruct persisted as [|p persisted]; [done|].
    destruct (records h) as [|e m] eqn:Hm; [done|]. simpl. by rewrite Hm. }
  unfold init. by rewrite Hrun.
Qed.

Lemma history7_ok : records_ok (records history7).
Proof. apply (bool_decide_unpack _). vm_compute. exact I. Defined.

Lemma get_spec_witness : get "T" 7 history7 = (Resolved record7, history7).
Proof.
  exact (proj1 (proj2 (proj2 (get_spec "T" 7 history7 eq_refl))) record7 eq_refl eq_refl).
Defined.


Lemma delete_spec_witness : jm_get 7%Z (records (delete "T" (Some 7%Z) history7).2) = None.
Proof.
  exact (proj1 (proj1 (proj2 (delete_spec "T" (Some 7%Z) history7 history7_ok eq_refl))
                 7%Z eq_refl) record7 eq_refl eq_refl).
Defined.

Lemma set_spec_witness :
  jm_get 7%Z (records history7) = Some record7 ∧
  (set "U" request7 None history7).1 = Rejected (RECORD_ALREADY_EXISTS 7).
Proof.
  split.
  - exact (proj1 (proj2 (proj2 (set_spec "T" request7 None new_history eq_refl) eq_refl))).
  - exact (proj1 (proj1 (set_spec "U" request7 None history7 eq_refl) record7 eq_refl)).
Defined.

Lemma restore_override_witness :
  init (Some snapshot1) history7 =
    (Resolved (),
     with_logged RESTORE_WILL_OVERRIDE (with_logged RESTORE_WILL_OVERRIDE history7)).
Proof.
  destruct (restore_override snapshot1 history7) as (Hrun & Hinit & _).
  - vm_compute. discriminate.
  - vm_compute. discriminate.
  - by rewrite Hinit.
Defined.


(** C5, the sentence as written: the stored record carries the request's
    [params]. A request without [params] is stored with [params: null]. *)
Lemma set_params_absent :
  jm_get (req_id request7) (records (set "T" request7 None new_history).2)
    ≠ Some (record_as_specified "T" request7 None).
Proof. vm_compute. discriminate. Qed.


(** C4, the sentence as written: the error reaches the caller. With
    records in memory and a non-empty snapshot, [init] resolves. *)
Lemma restore_override_swallowed :
  records history7 ≠ [] ∧ snapshot1 ≠ [] ∧
  (init (Some snapshot1) history7).1 = Resolved () ∧
  (init (Some snapshot1) history7).1 ≠ Rejected RESTORE_WILL_OVERRIDE.
Proof. repeat split; vm_compute; discriminate || reflexivity. Qed.

End HistoryFacts.

(** ** Properties of the relay *)

Module RelayFacts.

Import Relay.

Lemma sockets_ok_key m k1 k2 s :
  sockets_ok m → jm_get k1 m = Some s → jm_get k2 m = Some s → k1 = k2.
Proof.
  intros [_ Hv] H1 H2. apply (jm_value_key k1 k2 s m Hv); by apply jm_get_Some_elem.
Qed.

Lemma sockets_ok_delete m k : sockets_ok m → sockets_ok (jm_delete k m).
Proof.
  intros [Hk Hv]. split; [by apply jm_NoDup_delete | by apply jm_NoDup_values_delete].
Qed.

Lemma sockets_ok_gone m k s :
  sockets_ok m → jm_get k m = Some s → s ∉ jm_values (jm_delete k m).
Proof.
  intros [Hk Hv] Hget Hin. unfold jm_values in Hin.
  apply list_elem_of_fmap in Hin as ([k' s'] & -> & Hin). simpl in *.
  pose proof (jm_elem_delete_ne _ _ _ _ Hin) as Hne.
  apply jm_elem_delete in Hin. apply jm_get_Some_elem in Hget.
  apply Hne. by apply (jm_value_key k' k s' m Hv).
Qed.

(** *** The transport ceiling *)

(** C2, as the code has it. The ceiling [genWsOptions] sets is
    [500 * 1024 = 512000] bytes: a frame larger than that is rejected and
    the socket closed with code 1009, and a frame of at most 512000 bytes
    is not rejected for its size. *)
Theorem frame_ceiling (size : Z) :
  maxPayload genWsOptions = 512000%Z ∧
  ((512000 < size)%Z → receive_frame genWsOptions size = ClosedWith 1009) ∧
  ((size ≤ 512000)%Z → receive_frame genWsOptions size = Delivered).
Proof.
  unfold receive_frame. simpl. split; [done|]. split; intros Hsize.
  - by rewrite (proj2 (Z.ltb_lt _ _)) by lia.
  - by rewrite (proj2 (Z.ltb_ge _ _)) by lia.
Qed.

(** C2, the sentence as written: with a ceiling of 512 KiB a frame of
    512001 bytes passes. It is rejected. *)
Lemma frame_512001_rejected :
  (512001 ≤ 512 * 1024)%Z ∧ receive_frame genWsOptions 512001 = ClosedWith 1009.
Proof. split; [lia | reflexivity]. Qed.

(** *** [send] *)

Section ServiceFacts.

Variable JSON_parse : string → option JsValue.
Variable safeJsonStringify : JsValue → string.
Variable isLegacySocketMessage : JsValue → option bool.
Variable isJsonRpcPayload : JsValue → option bool.
Variable legacyDisabled : bool.
Variable jsonRpcDisabled : bool.
Variable legacy_onRequest : string → JsValue → WebSocketService → WebSocketService.
Variable jsonrpc_onPayload : string → JsValue → WebSocketService → WebSocketService.

(** C10. [send(socketId, msg)] returns a boolean on every input. For a
    [socketId] that the map does not hold it returns [false], and no socket
    object and no entry of the map changes (the miss is logged). For a
    [socketId] the map holds it returns [true]; the text given to that
    socket's [send] is [msg] itself when it is a string and its JSON
    serialisation otherwise; every other socket object is as before. *)
Theorem send_spec (socketId : string) (msg : SocketMessage) (ws : WebSocketService) :
  let ws' := (send safeJsonStringify socketId msg ws).2 in
  (jm_get socketId (sockets ws) = None →
     (send safeJsonStringify socketId msg ws).1 = false ∧
     sockets ws' = sockets ws ∧
     (∀ s, objects ws' s = objects ws s) ∧
     events ws' = events ws) ∧
  (∀ socket, jm_get socketId (sockets ws) = Some socket →
     let message := match msg with
                    | MsgString s => s
                    | MsgPayload payload => safeJsonStringify payload
                    end in
     (send safeJsonStringify socketId msg ws).1 = true ∧
     objects ws' socket = socket_send message (objects ws socket) ∧
     sent (objects ws' socket) = (sent (objects ws socket) ++ [message])%list ∧
     (∀ s, s ≠ socket → objects ws' s = objects ws s) ∧
     sockets ws' = sockets ws ∧
     events ws' = events ws ∧ errors ws' = errors ws).
Proof.
  simpl. unfold send, getSocket. split.
  - intros ->. by simpl.
  - intros socket ->. simpl. rewrite fn_lookup_alter.
    repeat split; try done. intros s Hs. by rewrite fn_lookup_alter_ne.
Qed.

(** *** The message handler on malformed frames *)

Lemma append_cons a s t : String a s +:+ t = String a (s +:+ t).
Proof. reflexivity. Qed.

Lemma length_append s t :
  String.length (s +:+ t) = (String.length s + String.length t)%nat.
Proof. induction s as [|a s IH]; [done|]. rewrite append_cons. simpl. by rewrite IH. Qed.

Lemma strip_prefix_app e r : strip_prefix e (e +:+ r) = Some r.
Proof.
  induction e as [|a e IH]; [done|].
  rewrite append_cons. simpl. by rewrite Ascii.eqb_refl.
Qed.

Lemma strip_prefix_Some e s r : strip_prefix e s = Some r → s = e +:+ r.
Proof.
  revert s. induction e as [|a e IH]; intros s; simpl.
  - by intros [= ->].
  - destruct s as [|b s]; [done|].
    destruct (Ascii.eqb a b) eqn:Hab; [|done].
    apply Ascii.eqb_eq in Hab as ->. intros Hs.
    rewrite append_cons. f_equal. by apply IH.
Qed.

Lemma strip_any_Some es s r :
  strip_any es s = Some r → ∃ e, e ∈ es ∧ s = e +:+ r.
Proof.
  induction es as [|e es IH]; simpl; [done|].
  destruct (strip_prefix e s) as [r'|] eqn:He.
  - intros [= ->]. exists e. split; [apply list_elem_of_here|].
    by apply strip_prefix_Some.
  - intros Hs. destruct (IH Hs) as (e' & Hin & ->).
    exists e'. split; [by apply list_elem_of_further | done].
Qed.

(** No character that [trim] strips starts like another one: the text
    after it is found whatever follows. *)
Lemma skip_space_app e r : e ∈ spaces → skip_space (e +:+ r) = Some r.
Proof.
  intros He. cbv [spaces fmap list_fmap] in He.
  repeat (apply elem_of_cons in He as [->|He]; [reflexivity|]).
  by apply elem_of_nil in He.
Qed.

Lemma space_length e : e ∈ spaces → (0 < String.length e)%nat.
Proof.
  intros He. cbv [spaces fmap list_fmap] in He.
  repeat (apply elem_of_cons in He as [->|He]; [simpl; lia|]).
  by apply elem_of_nil in He.
Qed.

Lemma skip_space_shorter s r :
  skip_space s = Some r → (String.length r < String.length s)%nat.
Proof.
  intros Hs. apply strip_any_Some in Hs as (e & He & ->).
  rewrite length_append. pose proof (space_length e He). lia.
Qed.

Lemma trimStart_go_blank n s :
  (String.length s ≤ n)%nat → blank s → trimStart_go n s = EmptyString.
Proof.
  revert s. induction n as [|n IH]; intros s Hn Hs.
  - destruct s; [done | simpl in Hn; lia].
  - destruct Hs as [|e r He Hr]; [done|]. simpl.
    rewrite (skip_space_app e r He). apply IH; [|done].
    pose proof (skip_space_shorter _ _ (skip_space_app e r He)). lia.
Qed.

Lemma trimStart_go_empty n s : trimStart_go n s = EmptyString → blank s.
Proof.
  revert s. induction n as [|n IH]; intros s; simpl.
  - intros ->. constructor.
  - destruct (skip_space s) as [r|] eqn:Hs.
    + intros Hr. apply strip_any_Some in Hs as (e & He & ->).
      constructor; [done | by apply IH].
    + intros ->. constructor.
Qed.

Lemma trimStart_go_solid n s :
  (String.length s ≤ n)%nat → skip_space (trimStart_go n s) = None.
Proof.
  revert s. induction n as [|n IH]; intros s Hn.
  - by destruct s; [|simpl in Hn; lia].
  - simpl. destruct (skip_space s) as [r|] eqn:Hs; [|done].
    apply IH. pose proof (skip_space_shorter _ _ Hs). lia.
Qed.

(** The blank texts are those [trimStart] strips to nothing. *)
Lemma blank_trimStart s : blank s ↔ trimStart s = EmptyString.
Proof.
  split.
  - by apply trimStart_go_blank.
  - apply trimStart_go_empty.
Qed.

Lemma trimStart_solid s : trimStart (trimStart s) = trimStart s.
Proof.
  pose proof (trimStart_go_solid (String.length s) s (le_n _)) as Hs.
  fold (trimStart s) in Hs. unfold trimStart at 1.
  destruct (String.length (trimStart s)); simpl; [done|]. by rewrite Hs.
Qed.

Lemma trimEnd_empty t :
  trimEnd t = EmptyString → t = EmptyString ∨ trimStart t = EmptyString.
Proof.
  destruct t as [|c t]; [by left|]. simpl trimEnd.
  destruct (String.eqb (trimStart (String c t)) EmptyString) eqn:Ht; [|done].
  right. by apply String.eqb_eq.
Qed.

(** The test [!message || !message.trim()] holds exactly of the blank
    frames, the empty one among them. *)
Lemma blank_test s : str_falsy s || str_falsy (trim s) = true ↔ blank s.
Proof.
  unfold str_falsy, trim. rewrite orb_true_iff, !String.eqb_eq. split.
  - intros [->|Ht]; [constructor|]. apply blank_trimStart.
    destruct (trimEnd_empty _ Ht) as [H|H]; [done|].
    by rewrite trimStart_solid in H.
  - intros Hs. right. by rewrite (proj1 (blank_trimStart s) Hs).
Qed.


(** What giving a notice to a registered socket does to the service. *)
Lemma send_notice socketId socket text ws :
  jm_get socketId (sockets ws) = Some socket →
  let ws' := (send safeJsonStringify socketId (MsgString text) ws).2 in
  sent (objects ws' socket) = (sent (objects ws socket) ++ [text])%list ∧
  closed (objects ws' socket) = closed (objects ws socket) ∧
  terminated (objects ws' socket) = terminated (objects ws socket) ∧
  (∀ s, s ≠ socket → objects ws' s = objects ws s) ∧
  sockets ws' = sockets ws ∧
  events ws' = events ws.
Proof.
  intros Hget. simpl. unfold send, getSocket. rewrite Hget. simpl.
  rewrite fn_lookup_alter. repeat split; try done.
  intros s Hs. by rewrite fn_lookup_alter_ne.
Qed.

(** C8, as the code has it. On a blank frame, the empty one among them,
    the handler answers ["Missing or invalid socket data"]; on a frame that
    is not blank and does not parse it answers
    ["Socket message is invalid"]. A frame is blank when it is made of
    the characters that [trim] strips, those above U+00FF among them. The
    answer is that plain text, not the text of a JSON object; it is given
    to the socket registered as [socketId] and to no other. The handler
    returns; the socket is neither closed nor terminated, the map of live
    sockets is as before, and no server event is emitted. *)
Theorem on_message_malformed (socketId data : string) (socket : nat)
    (ws : WebSocketService) :
  jm_get socketId (sockets ws) = Some socket →
  blank data ∨ JSON_parse data = None →
  let notice := "Missing or invalid socket data" in
  let invalid := "Socket message is invalid" in
  ∃ ws',
    on_message JSON_parse safeJsonStringify isLegacySocketMessage
      isJsonRpcPayload legacyDisabled jsonRpcDisabled
      legacy_onRequest jsonrpc_onPayload socketId data ws = Finished ws' ∧
    (blank data → sent (objects ws' socket) = (sent (objects ws socket) ++ [notice])%list) ∧
    (¬ blank data → sent (objects ws' socket) = (sent (objects ws socket) ++ [invalid])%list) ∧
    opens_json_object notice = false ∧
    opens_json_object invalid = false ∧
    closed (objects ws' socket) = closed (objects ws socket) ∧
    terminated (objects ws' socket) = terminated (objects ws socket) ∧
    (∀ s, s ≠ socket → objects ws' s = objects ws s) ∧
    sockets ws' = sockets ws ∧
    jm_get socketId (sockets ws') = Some socket ∧
    events ws' = events ws.
Proof.
  intros Hget Hbad. simpl. unfold on_message.
  destruct (str_falsy data || str_falsy (trim data)) eqn:Htest.
  - apply blank_test in Htest.
    destruct (send_notice socketId socket "Missing or invalid socket data" ws Hget)
      as (? & ? & ? & ? & Hs & ?).
    eexists. split; [done|]. rewrite Hs. repeat split; done.
  - assert (¬ blank data) as Hsolid.
    { intros Hb. apply blank_test in Hb. congruence. }
    destruct Hbad as [?|Hparse]; [done|].
    unfold safeJsonParse. rewrite Hparse.
    destruct (send_notice socketId socket "Socket message is invalid" ws Hget)
      as (? & ? & ? & ? & Hs & ?).
    eexists. split; [done|]. rewrite Hs. repeat split; done.
Qed.

End ServiceFacts.

(** *** The beat *)

Lemma beat_socket_miss ws socketId :
  jm_get socketId (sockets ws) = None → beat_socket ws socketId = ws.
Proof. unfold beat_socket. by intros ->. Qed.

Lemma beat_socket_dead ws socketId socket :
  jm_get socketId (sockets ws) = Some socket →
  isAlive (objects ws socket) = Some false →
  beat_socket ws socketId =
    emit (ws_close socketId)
      (on_object socket socket_terminate (with_sockets (jm_delete socketId) ws)).
Proof. unfold beat_socket. intros -> Hdead. by rewrite decide_True. Qed.

Lemma beat_socket_live ws socketId socket :
  jm_get socketId (sockets ws) = Some socket →
  isAlive (objects ws socket) ≠ Some false →
  beat_socket ws socketId =
    on_object socket socket_ping (on_object socket (socket_alive false) ws).
Proof. unfold beat_socket. intros -> Hlive. by rewrite decide_False. Qed.

(** A turn of the loop leaves alone every object but the one its socketId
    is mapped to. *)
Lemma beat_socket_object_other ws socketId s :
  jm_get socketId (sockets ws) ≠ Some s →
  objects (beat_socket ws socketId) s = objects ws s.
Proof.
  intros Hne. unfold beat_socket.
  destruct (jm_get socketId (sockets ws)) as [socket|]; [|done].
  assert (socket ≠ s) by congruence.
  destruct (decide (isAlive (objects ws socket) = Some false)); simpl;
    by rewrite ?fn_lookup_alter_ne.
Qed.

(** A turn of the loop keeps the map or deletes its own socketId. *)
Lemma beat_socket_sockets ws socketId :
  sockets (beat_socket ws socketId) = sockets ws ∨
  sockets (beat_socket ws socketId) = jm_delete socketId (sockets ws).
Proof.
  unfold beat_socket. destruct (jm_get socketId (sockets ws)) as [socket|]; [|by left].
  destruct (decide (isAlive (objects ws socket) = Some false)); [by right | by left].
Qed.

Lemma beat_socket_get_other ws socketId k :
  socketId ≠ k →
  jm_get k (sockets (beat_socket ws socketId)) = jm_get k (sockets ws).
Proof.
  intros Hne. destruct (beat_socket_sockets ws socketId) as [->| ->]; [done|].
  by apply jm_get_delete_ne.
Qed.

Lemma beat_socket_ok ws socketId :
  sockets_ok (sockets ws) → sockets_ok (sockets (beat_socket ws socketId)).
Proof.
  intros Hok. destruct (beat_socket_sockets ws socketId) as [->| ->]; [done|].
  by apply sockets_ok_delete.
Qed.

(** The turns for other socketIds, while the socket is registered. *)
Lemma beat_others_present l : ∀ ws socketId socket,
  socketId ∉ l → sockets_ok (sockets ws) →
  jm_get socketId (sockets ws) = Some socket →
  jm_get socketId (sockets (foldl beat_socket ws l)) = Some socket ∧
  objects (foldl beat_socket ws l) socket = objects ws socket ∧
  sockets_ok (sockets (foldl beat_socket ws l)).
Proof.
  induction l as [|k l IH]; intros ws socketId socket Hnotin Hok Hget; [done|].
  apply not_elem_of_cons in Hnotin as [Hne Hnotin]. simpl.
  destruct (IH (beat_socket ws k) socketId socket) as (Hg & Ho & Hk); [done|..].
  - by apply beat_socket_ok.
  - rewrite beat_socket_get_other by done. exact Hget.
  - split; [done|]. split; [|done]. rewrite Ho.
    apply beat_socket_object_other. intros Hk'.
    apply Hne. by apply (sockets_ok_key (sockets ws) socketId k socket).
Qed.

(** The turns for other socketIds, once the socket is out of the map. *)
Lemma beat_others_absent l : ∀ ws socketId socket,
  socket ∉ jm_values (sockets ws) →
  jm_get socketId (sockets ws) = None →
  jm_get socketId (sockets (foldl beat_socket ws l)) = None ∧
  objects (foldl beat_socket ws l) socket = objects ws socket.
Proof.
  induction l as [|k l IH]; intros ws socketId socket Hout Hget; [done|].
  simpl. destruct (IH (beat_socket ws k) socketId socket) as (Hg & Ho).
  - destruct (beat_socket_sockets ws k) as [->| ->]; [done|].
    intros Hin. by apply Hout, (jm_values_delete k).
  - destruct (beat_socket_sockets ws k) as [->| ->]; [done|].
    destruct (decide (k = socketId)) as [->|Hne];
      [apply jm_get_delete_eq | by rewrite jm_get_delete_ne].
  - split; [done|]. rewrite Ho. apply beat_socket_object_other.
    intros Hk. by apply Hout, (jm_get_Some_value k).
Qed.

Lemma clearInactiveSockets_ok ws :
  sockets_ok (sockets ws) → sockets_ok (sockets (clearInactiveSockets ws)).
Proof.
  unfold clearInactiveSockets. generalize (jm_keys (sockets ws)) as l. intros l. revert ws.
  induction l as [|k l IH]; intros ws Hok; [done|]. simpl. by apply IH, beat_socket_ok.
Qed.

(** What one beat does to a registered socket. *)
Lemma beat_registered ws socketId socket :
  sockets_ok (sockets ws) → jm_get socketId (sockets ws) = Some socket →
  let ws' := clearInactiveSockets ws in
  (isAlive (objects ws socket) = Some false →
     jm_get socketId (sockets ws') = None ∧
     objects ws' socket = socket_terminate (objects ws socket)) ∧
  (isAlive (objects ws socket) ≠ Some false →
     jm_get socketId (sockets ws') = Some socket ∧
     objects ws' socket = socket_ping (socket_alive false (objects ws socket))).
Proof.
  intros Hok Hget. simpl. unfold clearInactiveSockets.
  pose proof (jm_get_Some_key _ _ _ Hget) as Hin.
  apply list_elem_of_split in Hin as (l1 & l2 & Hkeys).
  destruct Hok as [Hnd Hvals]. pose proof Hnd as Hnd'. rewrite Hkeys in Hnd'.
  apply NoDup_app in Hnd' as (_ & Hl1 & Hnd2). apply NoDup_cons in Hnd2 as [Hl2 _].
  assert (socketId ∉ l1) as Hnot1.
  { intros Hin1. apply (Hl1 _ Hin1). apply list_elem_of_here. }
  rewrite Hkeys, foldl_app. simpl.
  destruct (beat_others_present l1 ws socketId socket Hnot1 (conj Hnd Hvals) Hget)
    as (Hget1 & Hobj1 & Hok1).
  set (ws1 := foldl beat_socket ws l1) in *.
  split; intros Halive; rewrite <- Hobj1 in Halive.
  - rewrite (beat_socket_dead ws1 socketId socket Hget1 Halive).
    set (ws2 := emit _ _).
    destruct (beat_others_absent l2 ws2 socketId socket) as (Hg & Ho).
    + by apply (sockets_ok_gone (sockets ws1) socketId socket).
    + apply jm_get_delete_eq.
    + split; [done|]. rewrite Ho. unfold ws2. simpl. by rewrite fn_lookup_alter, Hobj1.
  - rewrite (beat_socket_live ws1 socketId socket Hget1 Halive).
    set (ws2 := on_object _ _ _).
    destruct (beat_others_present l2 ws2 socketId socket Hl2) as (Hg & Ho & _);
      [done..|].
    split; [done|]. rewrite Ho. unfold ws2. simpl.
    by rewrite !fn_lookup_alter, Hobj1.
Qed.

Lemma on_pong_alive socket ws : isAlive (objects (on_pong socket ws) socket) = Some true.
Proof. unfold on_pong. simpl. by rewrite fn_lookup_alter. Qed.

(** Through a run in which the peer answers every ping the socket stays
    registered and is not terminated. *)
Lemma answered_stays trace : ∀ ws owed socketId socket,
  sockets_ok (sockets ws) → jm_get socketId (sockets ws) = Some socket →
  terminated (objects ws socket) = false →
  (owed = false → isAlive (objects ws socket) ≠ Some false) →
  answers socket owed trace = true →
  jm_get socketId (sockets (foldl handle ws trace)) = Some socket ∧
  terminated (objects (foldl handle ws trace) socket) = false.
Proof.
  induction trace as [|[|s] trace IH]; intros ws owed socketId socket Hok Hget Hterm Hlive Hans;
    [done|..]; simpl in *.
  - apply andb_true_iff in Hans as [Howed Hans]. apply negb_true_iff in Howed.
    destruct (beat_registered ws socketId socket Hok Hget) as (_ & Hbeat).
    destruct (Hbeat (Hlive Howed)) as (Hget' & Hobj').
    apply (IH _ true); [by apply clearInactiveSockets_ok | done | | done | done].
    by rewrite Hobj'.
  - destruct (decide (s = socket)) as [->|Hne].
    + apply (IH _ false); [done | done | | | done].
      * unfold on_pong. simpl. by rewrite fn_lookup_alter.
      * intros _. by rewrite on_pong_alive.
    + apply (IH _ owed); [done | done | | | done];
        unfold on_pong; simpl; by rewrite fn_lookup_alter_ne.
Qed.

(** C9. At a beat, a registered socket whose [isAlive] is [false] is
    terminated and taken out of the map; any other registered socket gets
    [isAlive = false] and a ping and stays in the map. A pong sets
    [isAlive] to [true]. A socket whose peer answers every ping stays in
    the map, not terminated, through any run of beats and pongs. *)
Theorem beat_spec (ws : WebSocketService) (socketId : string) (socket : nat) :
  sockets_ok (sockets ws) → jm_get socketId (sockets ws) = Some socket →
  let ws' := clearInactiveSockets ws in
  (isAlive (objects ws socket) = Some false →
     jm_get socketId (sockets ws') = None ∧
     terminated (objects ws' socket) = true) ∧
  (isAlive (objects ws socket) ≠ Some false →
     jm_get socketId (sockets ws') = Some socket ∧
     isAlive (objects ws' socket) = Some false ∧
     pings (objects ws' socket) = S (pings (objects ws socket)) ∧
     terminated (objects ws' socket) = terminated (objects ws socket) ∧
     isAlive (objects (on_pong socket ws') socket) = Some true) ∧
  (∀ trace,
     isAlive (objects ws socket) ≠ Some false →
     terminated (objects ws socket) = false →
     answers socket false trace = true →
     jm_get socketId (sockets (foldl handle ws trace)) = Some socket ∧
     terminated (objects (foldl handle ws trace) socket) = false).
Proof.
  intros Hok Hget. simpl.
  destruct (beat_registered ws socketId socket Hok Hget) as (Hdead & Hlive).
  split; [|split].
  - intros Halive. destruct (Hdead Halive) as (Hg & Ho). by rewrite Ho.
  - intros Halive. destruct (Hlive Halive) as (Hg & Ho).
    rewrite Ho. repeat split; try done. apply on_pong_alive.
  - intros trace Halive Hterm Hans.
    by apply (answered_stays trace ws false socketId socket).
Qed.

(** *** Concrete runs *)

Lemma service2_ok : sockets_ok (sockets service2).
Proof. apply (bool_decide_unpack _). vm_compute. exact I. Defined.

Lemma service2_after_beat_ok : sockets_ok (sockets service2_after_beat).
Proof. apply (bool_decide_unpack _). vm_compute. exact I. Defined.

Lemma frame_ceiling_witness :
  receive_frame genWsOptions 512000 = Delivered ∧
  receive_frame genWsOptions 524288 = ClosedWith 1009.
Proof.
  split.
  - apply (proj2 (proj2 (frame_ceiling 512000))). lia.
  - apply (proj1 (proj2 (frame_ceiling 524288))). lia.
Defined.

Lemma send_spec_witness :
  (send (λ _, "null") "a" (MsgString "hello") service2).1 = true ∧
  (send (λ _, "null") "c" (MsgString "hello") service2).1 = false.
Proof.
  split.
  - exact (proj1 (proj2 (send_spec (λ _, "null") "a" (MsgString "hello") service2)
                   0 eq_refl)).
  - exact (proj1 (proj1 (send_spec (λ _, "null") "c" (MsgString "hello") service2)
                   eq_refl)).
Defined.

Lemma ideographic_space_blank : blank ideographic_space.
Proof.
  apply (blank_space ideographic_space EmptyString); [|constructor].
  cbv [spaces fmap list_fmap].
  repeat first [apply list_elem_of_here | apply list_elem_of_further].
Defined.

Lemma brace_solid : ¬ blank "{".
Proof. intros Hb. apply blank_trimStart in Hb. discriminate Hb. Defined.

Lemma on_message_malformed_witness :
  (∃ ws', on_message_unparsed "a" ideographic_space service2 = Finished ws' ∧
          sent (objects ws' 0) = ["Missing or invalid socket data"]) ∧
  (∃ ws', on_message_unparsed "a" "{" service2 = Finished ws' ∧
          sent (objects ws' 0) = ["Socket message is invalid"]).
Proof.
  split.
  - destruct (on_message_malformed (λ _, None) (λ _, "null") (λ _, Some false)
                (λ _, Some false) false false (λ _ _ ws, ws) (λ _ _ ws, ws)
                "a" ideographic_space 0 service2 eq_refl
                (or_introl ideographic_space_blank))
      as (ws' & Hrun & Hblank & _).
    exists ws'. split; [exact Hrun|]. exact (Hblank ideographic_space_blank).
  - destruct (on_message_malformed (λ _, None) (λ _, "null") (λ _, Some false)
                (λ _, Some false) false false (λ _ _ ws, ws) (λ _ _ ws, ws)
                "a" "{" 0 service2 eq_refl (or_intror eq_refl))
      as (ws' & Hrun & _ & Hsolid & _).
    exists ws'. split; [exact Hrun|]. exact (Hsolid brace_solid).
Defined.

Lemma beat_spec_witness :
  jm_get "a" (sockets (clearInactiveSockets service2)) = Some 0 ∧
  jm_get "b" (sockets (clearInactiveSockets service2_after_beat)) = None ∧
  terminated (objects (clearInactiveSockets service2_after_beat) 1) = true.
Proof.
  split.
  - apply (proj1 (proj2 (beat_spec service2 "a" 0 service2_ok eq_refl))).
    vm_compute. discriminate.
  - apply (proj1 (beat_spec service2_after_beat "b" 1 service2_after_beat_ok eq_refl)).
    reflexivity.
Defined.

(** C8, the sentence as written: the answer to a malformed frame is a
    JSON-RPC error response. The answer to the empty frame is a bare
    sentence, which is not the text of a JSON object. *)
Lemma empty_frame_plain_text :
  sent (objects (service_of (on_message_unparsed "a" "" service2)) 0)
    = ["Missing or invalid socket data"] ∧
  opens_json_object "Missing or invalid socket data" = false.
Proof. split; reflexivity. Qed.

End RelayFacts.

(** ** Further facts on maps *)

Section JsMapMore.

Context {K V : Type} `{EqDecision K}.

Lemma jm_set_fresh (k : K) (v : V) (m : list (K * V)) :
  jm_get k m = None → jm_set k v m = m ++ [(k, v)].
Proof.
  induction m as [|[k0 v0] m IH]; simpl; [done|].
  destruct (decide (k0 = k)); [done|]. intros Hnone. by rewrite IH.
Qed.

Lemma jm_set_same (k : K) (v : V) (m : list (K * V)) :
  jm_get k m = Some v → jm_set k v m = m.
Proof.
  induction m as [|[k0 v0] m IH]; simpl; [done|].
  destruct (decide (k0 = k)) as [->|Hne]; [by intros [= ->]|].
  intros Hget. by rewrite IH.
Qed.

Lemma jm_set_set (k : K) (v : V) (m : list (K * V)) :
  jm_set k v (jm_set k v m) = jm_set k v m.
Proof. apply jm_set_same, jm_get_set_eq. Qed.

Lemma jm_delete_absent (k : K) (m : list (K * V)) :
  jm_get k m = None → jm_delete k m = m.
Proof.
  induction m as [|[k0 v0] m IH]; simpl; [done|].
  destruct (decide (k0 = k)); [done|]. intros Hnone. by rewrite IH.
Qed.

Lemma jm_delete_last (k : K) (v : V) (m : list (K * V)) :
  jm_get k m = None → jm_delete k (m ++ [(k, v)]) = m.
Proof.
  induction m as [|[k0 v0] m IH]; simpl.
  - by rewrite decide_True.
  - destruct (decide (k0 = k)); [done|]. intros Hnone. by rewrite IH.
Qed.

End JsMapMore.

(** ** Further properties of the history *)

Module HistoryMore.

Import History HistoryFacts.

Lemma records_ok_value m r :
  records_ok m → r ∈ jm_values m → jm_get (rec_id r) m = Some r.
Proof.
  intros [Hnd Hall] Hin. unfold jm_values in Hin.
  apply list_elem_of_fmap in Hin as ([k r'] & -> & Hin). simpl.
  rewrite Forall_forall in Hall. pose proof (Hall _ Hin) as Hkey. simpl in Hkey.
  rewrite Hkey. by apply jm_elem_get.
Qed.

(** *** [exists] *)

Lemma exists_value topic id h :
  gate_open h →
  exists_ topic id h =
    (Resolved (match jm_get id (records h) with
               | Some r => bool_decide (rec_topic r = topic)
               | None => false
               end), h).
Proof.
  intros Hg. pose proof (gate_open_length h Hg) as Hlen. async. unfold jm_has.
  destruct (jm_get id (records h)) as [r|] eqn:Hr;
    repeat (first [rewrite Hlen | rewrite Hr]; simpl); done.
Qed.


(** *** [set], then [update], then [get] *)


(** *** [set], then [delete] *)

Lemma delete_all_none topic id l : ∀ m,
  Forall (λ r, selected topic id r = false) l → delete_all topic id l m = m.
Proof.
  unfold delete_all. induction l as [|r l IH]; intros m Hall; [done|].
  apply Forall_cons in Hall as [Hr Hall]. simpl. rewrite Hr. by apply IH.
Qed.

Lemma delete_all_app topic id l1 l2 m :
  delete_all topic id (l1 ++ l2) m = delete_all topic id l2 (delete_all topic id l1 m).
Proof. unfold delete_all. apply foldl_app. Qed.

Lemma filter_none {A} (P : A → Prop) `{∀ x, Decision (P x)} (l : list A) :
  Forall (λ x, ¬ P x) l → filter P l = [].
Proof.
  induction l as [|x l IH]; intros Hall; [done|].
  apply Forall_cons in Hall as [Hx Hl]. rewrite filter_cons_False by done. by apply IH.
Qed.

(** X3. Filing a request with [set] and deleting it with
    [delete(topic, id)] brings the map back to what it was before, entry
    for entry; the two calls emit [created] and then [deleted] for the
    record. *)
Theorem set_delete (topic : string) (request : JsonRpcRequest) (chainId : option string)
    (h : History) :
  records_ok (records h) → gate_open h →
  jm_get (req_id request) (records h) = None →
  let h1 := (set topic request chainId h).2 in
  let h2 := (delete topic (Some (req_id request)) h1).2 in
  (delete topic (Some (req_id request)) h1).1 = Resolved () ∧
  records h2 = records h ∧
  emitted h2 = emitted h ++ [created (record_of topic request chainId);
                              deleted (record_of topic request chainId)].
Proof.
  intros Hok Hg Hfresh. simpl. rewrite (set_fresh _ _ _ _ Hg Hfresh). simpl.
  set (r := record_of topic request chainId).
  set (h1 := with_stored _ _).
  assert (gate_open h1) as Hg1 by exact Hg.
  rewrite (delete_unfold _ _ _ Hg1).
  destruct (delete_loop topic (Some (req_id request)) (values h1) h1)
    as (h2 & Hrun & Hrec & _ & Hev).
  rewrite Hrun. simpl. split; [done|].
  assert (records h1 = records h ++ [(req_id request, r)]) as Hrec1.
  { unfold h1. simpl. by apply jm_set_fresh. }
  assert (values h1 = jm_values (records h) ++ [r]) as Hval1.
  { unfold values. rewrite Hrec1. unfold jm_values. by rewrite fmap_app. }
  assert (Forall (λ x, selected topic (Some (req_id request)) x = false)
            (jm_values (records h))) as Hnone.
  { apply Forall_forall. intros x Hx. unfold selected.
    rewrite (bool_decide_eq_false_2 (rec_id x = req_id request)); [apply andb_false_r|].
    intros Hid. pose proof (records_ok_value _ _ Hok Hx) as Hget.
    rewrite Hid, Hfresh in Hget. done. }
  assert (selected topic (Some (req_id request)) r = true) as Hsel.
  { unfold selected. simpl. by rewrite !bool_decide_eq_true_2. }
  split.
  - rewrite Hrec, Hval1, delete_all_app, (delete_all_none _ _ _ _ Hnone).
    unfold delete_all. simpl. rewrite Hsel, (jm_set_fresh _ _ _ Hfresh).
    by apply jm_delete_last.
  - rewrite Hev, Hval1, filter_app.
    rewrite (filter_none _ (jm_values (records h))).
    + rewrite filter_cons_True by done. unfold h1. simpl. by rewrite <- app_assoc.
    + eapply Forall_impl; [exact Hnone|]. simpl. intros x Hx. by rewrite Hx.
Qed.

(** *** [pending] *)

Section PendingFacts.

Variable formatJsonRpcRequest : string → JsValue → Z → JsonRpcRequest.

Lemma pending_loop l : ∀ requests,
  foldl (λ requests record,
           if decide (rec_response record ≠ None) then requests
           else requests ++ [request_event formatJsonRpcRequest record]) requests l
  = requests ++ (request_event formatJsonRpcRequest <$> filter (λ r, rec_response r = None) l).
Proof.
  induction l as [|r l IH]; intros requests; simpl; [by rewrite app_nil_r|].
  rewrite IH. destruct (decide (rec_response r ≠ None)) as [Hr|Hr].
  - rewrite filter_cons_False by done. done.
  - assert (rec_response r = None) as Hnone.
    { destruct (rec_response r); [exfalso; by apply Hr | done]. }
    rewrite filter_cons_True by done. by rewrite fmap_cons, <- app_assoc.
Qed.

Lemma pending_filter h :
  pending formatJsonRpcRequest h = request_event formatJsonRpcRequest <$> filter (λ r, rec_response r = None) (values h).
Proof. unfold pending. by rewrite pending_loop. Qed.

(** The unanswered records after the record under [k] got a response. *)
Lemma unanswered_after_answer (k : Z) (v : JsonRpcRecord) (m : list (Z * JsonRpcRecord)) :
  records_ok m → k ∈ jm_keys m → rec_response v ≠ None →
  filter (λ r, rec_response r = None) (jm_values (jm_set k v m))
  = filter (λ r, rec_response r = None ∧ rec_id r ≠ k) (jm_values m).
Proof.
  unfold jm_values, jm_keys. induction m as [|[k0 v0] m IH]; intros Hok Hin Hv.
  - by apply elem_of_nil in Hin.
  - destruct Hok as [Hnd Hall]. unfold jm_keys in Hnd.
    rewrite fmap_cons in Hnd, Hin.
    apply NoDup_cons in Hnd as [Hnotin Hnd]. apply Forall_cons in Hall as [Hk0 Hall].
    cbn [jm_set fst snd] in *. destruct (decide (k0 = k)) as [->|Hne].
    + rewrite !fmap_cons. cbn [snd].
      rewrite filter_cons_False by done.
      rewrite filter_cons_False by (intros [_ ?]; done).
      apply filter_agree. intros x Hx. split; [|by intros [? _]].
      intros Hnone. split; [done|]. intros Hid. apply Hnotin.
      apply list_elem_of_fmap in Hx as ([k' x'] & -> & Hx). cbn [snd] in *.
      rewrite Forall_forall in Hall. pose proof (Hall _ Hx) as Hkey. cbn [fst snd] in Hkey.
      apply (list_elem_of_fmap_2 fst) in Hx. cbn [fst] in Hx.
      assert (k = k') as -> by congruence. exact Hx.
    + apply elem_of_cons in Hin as [?|Hin]; [congruence|].
      rewrite !fmap_cons. cbn [snd].
      rewrite !filter_cons. rewrite (IH (conj Hnd Hall) Hin Hv).
      destruct (decide (rec_response v0 = None)) as [Hv0|Hv0].
      * rewrite decide_True; [done|]. split; [done|congruence].
      * rewrite decide_False; [done|]. by intros [? _].
Qed.

(** X4. [pending] lists, in the order of the map, one event for each record
    that has no response. A request filed with [set] joins the list at its
    end; a record answered by [update] leaves it, and no other entry
    changes. *)
Theorem pending_spec (h : History) :
  gate_open h → records_ok (records h) →
  pending formatJsonRpcRequest h
    = request_event formatJsonRpcRequest <$> filter (λ r, rec_response r = None) (values h) ∧
  (∀ topic request chainId,
     jm_get (req_id request) (records h) = None →
     pending formatJsonRpcRequest (set topic request chainId h).2
       = pending formatJsonRpcRequest h ++ [request_event formatJsonRpcRequest (record_of topic request chainId)]) ∧
  (∀ topic response r,
     jm_get (resp_id response) (records h) = Some r →
     rec_topic r = topic → rec_response r = None →
     pending formatJsonRpcRequest (update topic response h).2
       = request_event formatJsonRpcRequest <$> filter (λ x, rec_response x = None ∧ rec_id x ≠ resp_id response)
                     (values h)).
Proof.
  intros Hg Hok. split; [apply pending_filter|]. split.
  - intros topic request chainId Hfresh.
    rewrite !pending_filter, (set_fresh _ _ _ _ Hg Hfresh). unfold values. simpl.
    rewrite (jm_set_fresh _ _ _ Hfresh). unfold jm_values.
    rewrite fmap_app, filter_app, fmap_app. reflexivity.
  - intros topic response r Hr Ht Hnone.
    destruct (update_applies topic response h r Hg Hr Ht Hnone) as (h' & Hrun & Hrec & _).
    rewrite Hrun, pending_filter. simpl. unfold values.
    rewrite Hrec, (records_ok_id _ _ _ Hok Hr), jm_set_set.
    rewrite unanswered_after_answer; [done..| |done].
    by apply (jm_get_Some_key _ r).
Qed.

End PendingFacts.

(** *** What every reachable instance keeps *)


(** *** [restore] *)

Lemma load_fresh l : ∀ acc,
  NoDup (jm_keys acc ++ (rec_id <$> l)) →
  foldl (λ m record, jm_set (rec_id record) record m) acc l
  = acc ++ ((λ r, (rec_id r, r)) <$> l).
Proof.
  induction l as [|r l IH]; intros acc Hnd; simpl; [by rewrite app_nil_r|].
  assert (jm_get (rec_id r) acc = None) as Hfresh.
  { apply jm_get_None. apply NoDup_app in Hnd as (_ & Hdisj & _).
    intros Hin. apply (Hdisj _ Hin). apply list_elem_of_here. }
  rewrite (jm_set_fresh _ _ _ Hfresh), IH.
  - by rewrite <- app_assoc.
  - unfold jm_keys in *. rewrite fmap_app. simpl. rewrite <- app_assoc. exact Hnd.
Qed.

(** Loading the values of a well-formed map into an empty map builds the
    same map. *)
Lemma load_values m :
  records_ok m →
  foldl (λ m record, jm_set (rec_id record) record m) [] (jm_values m) = m.
Proof.
  intros [Hnd Hall]. rewrite Forall_forall in Hall.
  assert (rec_id <$> jm_values m = jm_keys m) as Hkeys.
  { unfold jm_values, jm_keys. rewrite <- list_fmap_compose.
    apply list_fmap_ext.
    intros ? p Hp. apply list_elem_of_lookup_2 in Hp. by apply Hall. }
  rewrite load_fresh by (simpl; by rewrite Hkeys). simpl.
  unfold jm_values. rewrite <- list_fmap_compose.
  rewrite <- (list_fmap_id m) at 2. apply list_fmap_ext.
  intros ? [k r] Hp. apply list_elem_of_lookup_2 in Hp. simpl.
  pose proof (Hall _ Hp) as Hkey. simpl in Hkey. by rewrite Hkey.
Qed.

Lemma restore_load_full persisted h :
  persisted ≠ [] → records h = [] →
  ∃ h', restore_load (Some persisted) h = (Resolved true, h') ∧
        cached h' = persisted ∧
        records h' = foldl (λ m record, jm_set (rec_id record) record m) [] persisted ∧
        emitted h' = emitted h ∧ logged h' = logged h ∧ waiting h' = waiting h.
Proof.
  intros Hne Hempty.
  destruct (restore_loop persisted (with_cached persisted h))
    as (h' & Hrun & Hc & Hr & He & Hl & Hw).
  exists h'. unfold restore_load.
  assert ((length persisted =? 0)%nat = false) as -> by (by destruct persisted).
  unfold mbind, Async_bind, this, mret, Async_ret. rewrite Hempty. simpl.
  unfold modify in *. simpl. rewrite Hrun.
  repeat split; try done. rewrite Hr. simpl. by rewrite Hempty.
Qed.

(** X6. The snapshot [persist] hands to the storage is the list of values
    of the map. Restoring such a snapshot of a non-empty map into an
    instance without records and without parked calls resolves, rebuilds
    the same map, entry for entry and in the same order, emits [enabled]
    and leaves the gate open. *)
Theorem restore_snapshot (h h0 : History) :
  records_ok (records h) → records h ≠ [] →
  records h0 = [] → waiting h0 = [] →
  let h' := (restore (Some (values h)) h0).2 in
  (restore (Some (values h)) h0).1 = Resolved () ∧
  records h' = records h ∧
  gate_open h' ∧
  emitted h' = emitted h0 ++ [enabled].
Proof.
  intros Hok Hne Hempty Hwait. simpl.
  assert (values h ≠ []) as Hvals.
  { unfold values, jm_values. by destruct (records h). }
  destruct (restore_load_full (values h) h0 Hvals Hempty)
    as (h1 & Hrun & Hc & Hrec & Hev & _ & Hw).
  unfold restore, try_catch, mbind, Async_bind. rewrite Hrun.
  rewrite enable_unfold, Hw, Hwait. simpl.
  split; [done|]. split; [|split; [done|by rewrite Hev]].
  rewrite Hrec. by apply load_values.
Qed.

(** X7. [restore], and [init] with it, resolves whatever the storage
    answered and whatever the instance holds: no error of its body reaches
    the caller. When the storage has no snapshot, or an empty one, the
    instance is left exactly as it was. *)
Theorem restore_resolves (persisted : option (list JsonRpcRecord)) (h : History) :
  (restore persisted h).1 = Resolved () ∧
  (init persisted h).1 = Resolved () ∧
  (persisted = None ∨ persisted = Some [] → restore persisted h = (Resolved (), h)).
Proof.
  assert ((restore persisted h).1 = Resolved ()) as Hres.
  { unfold restore, try_catch, mbind, Async_bind.
    destruct (restore_load_cases persisted h)
      as [(h' & -> & _)|[(h' & -> & _)|(h' & l & -> & _)]]; done. }
  split; [done|]. split; [done|]. by intros [->| ->].
Qed.

(** *** Every change of the map is handed to the storage *)

Lemma update_applies_stored topic response h r :
  gate_open h →
  jm_get (resp_id response) (records h) = Some r →
  rec_topic r = topic → rec_response r = None →
  ∃ h', update topic response h = (Resolved (), h') ∧
        stored h' = stored h ++ [values h'].
Proof.
  intros Hg Hr Ht Hnone. pose proof (gate_open_length h Hg) as Hlen.
  async. unfold jm_has.
  repeat (first [rewrite Hlen | rewrite Hr]; simpl).
  rewrite decide_False by (intros ?; done).
  rewrite decide_False by (intros ?; done).
  eexists. split; [reflexivity|]. done.
Qed.

Lemma forEach_cons {A} (f : A → Async unit) (x : A) (l : list A) h h1 :
  f x h = (Resolved (), h1) → forEach (x :: l) f h = forEach l f h1.
Proof. intros Hx. simpl. unfold mbind, Async_bind. by rewrite Hx. Qed.

Lemma delete_loop_stored topic id l : ∀ h,
  (records (forEach l (delete_step topic id) h).2 = records h ∧
   stored (forEach l (delete_step topic id) h).2 = stored h) ∨
  last (stored (forEach l (delete_step topic id) h).2)
    = Some (values (forEach l (delete_step topic id) h).2).
Proof.
  induction l as [|record l IH]; intros h; [by left|].
  destruct (selected topic id record) eqn:Hsel.
  - rewrite (forEach_cons _ _ _ _ _ (delete_step_hit _ _ _ h Hsel)). right.
    set (h1 := with_stored _ _).
    assert (last (stored h1) = Some (values h1)) as Hstep.
    { unfold h1. simpl. by rewrite last_snoc. }
    destruct (IH h1) as [[Hrec Hst]|Hin]; [|exact Hin].
    unfold values in *. by rewrite Hrec, Hst.
  - rewrite (forEach_cons _ _ _ _ _ (delete_step_skip _ _ _ h Hsel)). apply IH.
Qed.

(** X8. A public call that has run past the gate either leaves the map and
    the storage alone, or has handed the storage, as its last write, the
    list of values the map now has. *)
Theorem mutation_persisted (c : Call) (h : History) :
  gate_open h →
  let h' := (run c h).2 in
  (records h' = records h ∧ stored h' = stored h) ∨
  last (stored h') = Some (values h').
Proof.
  intros Hg. simpl.
  destruct c as [topic request chainId|topic response|topic id|topic id|topic id];
    unfold run, mbind, Async_bind, mret, Async_ret.
  - destruct (jm_get (req_id request) (records h)) as [r|] eqn:Hr.
    + rewrite set_taken; [by left|done|]. apply jm_has_true; eauto.
    + rewrite set_fresh by done. right. simpl. by rewrite last_snoc.
  - destruct (jm_get (resp_id response) (records h)) as [r|] eqn:Hr;
      [|rewrite update_noop; auto].
    destruct (decide (rec_topic r = topic)) as [Ht|Ht];
      [|rewrite update_noop; eauto].
    destruct (rec_response r) as [x|] eqn:Hx.
    + rewrite update_noop; [by left|done|]. right. exists r. split; [done|]. right.
      by rewrite Hx.
    + destruct (update_applies_stored topic response h r Hg Hr Ht Hx) as (h' & -> & Hst).
      right. simpl. by rewrite Hst, last_snoc.
  - left. destruct (jm_get id (records h)) as [r|] eqn:Hr.
    + destruct (decide (rec_topic r = topic)) as [Ht|Ht].
      * by rewrite (get_found topic id h r).
      * by rewrite (get_mismatch topic id h r).
    + by rewrite get_missing.
  - rewrite (delete_unfold _ _ _ Hg).
    pose proof (delete_loop_stored topic id (values h) h) as Hloop.
    by destruct (forEach (values h) (delete_step topic id) h) as [[[]|e|] h'].
  - left. by rewrite exists_value.
Qed.

(** *** [reset] *)

Lemma load_present l : ∀ m,
  Forall (λ r, jm_get (rec_id r) m = Some r) l →
  foldl (λ m record, jm_set (rec_id record) record m) m l = m.
Proof.
  induction l as [|r l IH]; intros m Hall; [done|].
  apply Forall_cons in Hall as [Hr Hall]. simpl.
  rewrite (jm_set_same _ _ _ Hr). by apply IH.
Qed.

(** X9. [reset] on a well-formed instance whose gate is open and on which
    no call is parked resolves and leaves the map as it was, entry for
    entry, and the gate open; it emits [disabled] and then [enabled]. *)
Theorem reset_spec (h : History) :
  records_ok (records h) → gate_open h → waiting h = [] →
  let h' := (reset h).2 in
  (reset h).1 = Resolved () ∧
  records h' = records h ∧
  gate_open h' ∧
  emitted h' = emitted h ++ [disabled; enabled].
Proof.
  intros Hok Hg Hwait. simpl. unfold reset, disable, mbind, Async_bind, this.
  rewrite (gate_open_length h Hg).
  set (h1 := with_emitted disabled (with_cached (values h) h)).
  destruct (restore_loop (cached h1) h1) as (h2 & Hrun & _ & Hrec & Hev & _ & Hw).
  rewrite Hrun, enable_unfold, Hw. simpl. rewrite Hwait. simpl.
  split; [done|]. split; [|split; [done|]].
  - rewrite Hrec. simpl. apply load_present. apply Forall_forall.
    intros r Hr. by apply records_ok_value.
  - rewrite Hev. simpl. by rewrite <- app_assoc.
Qed.

(** *** Concrete runs *)


Lemma set_delete_witness :
  records (delete "T" (Some 7%Z) history7).2 = records new_history.
Proof.
  exact (proj1 (proj2 (set_delete "T" request7 None new_history
                         records_ok_nil eq_refl eq_refl))).
Defined.

Lemma pending_spec_witness :
  pending format_plain (update "T" (JsonRpcResult 7 (JsString "0x1")) history7).2 = [] ∧
  pending format_plain history7 = [request_event format_plain record7].
Proof.
  split.
  - exact (proj2 (proj2 (pending_spec format_plain history7 eq_refl history7_ok))
             "T" (JsonRpcResult 7 (JsString "0x1")) record7 eq_refl eq_refl eq_refl).
  - exact (proj1 (proj2 (pending_spec format_plain new_history eq_refl records_ok_nil))
             "T" request7 None eq_refl).
Defined.


Lemma restore_snapshot_witness :
  records (restore (Some (values history7)) new_history).2 = records history7.
Proof.
  apply (restore_snapshot history7 new_history history7_ok); [|reflexivity..].
  vm_compute. discriminate.
Defined.

Lemma mutation_persisted_witness :
  (records (run (CallSet "T" request7 None) new_history).2 = records new_history ∧
   stored (run (CallSet "T" request7 None) new_history).2 = stored new_history) ∨
  last (stored (run (CallSet "T" request7 None) new_history).2)
    = Some (values (run (CallSet "T" request7 None) new_history).2).
Proof. exact (mutation_persisted (CallSet "T" request7 None) new_history eq_refl). Defined.

Lemma reset_spec_witness :
  records (reset history7).2 = records history7 ∧
  emitted (reset history7).2 = emitted history7 ++ [disabled; enabled].
Proof.
  destruct (reset_spec history7 history7_ok eq_refl eq_refl) as (_ & Hrec & _ & Hev).
  by split.
Defined.

End HistoryMore.

(** ** The history instance on the event loop *)

Module LoopFacts.

Import History Loop.

Lemma tick_cons σ j rest : jobs σ = j :: rest → tick σ = run_job j (with_jobs rest σ).
Proof. unfold tick. by intros ->. Qed.

(** *** [update] run alone *)


(** *** Calls made in the same tick *)

Lemma delete_turn_same topic id σ ref :
  let σ' := delete_turn topic id σ ref in
  heap σ' = heap σ ∧ top σ' = top σ ∧ cache σ' = cache σ ∧ errors σ' = errors σ ∧
  jobs σ' = jobs σ ∧ parked σ' = parked σ ∧ serial σ' = serial σ ∧
  outcomes σ' = outcomes σ.
Proof.
  simpl. unfold delete_turn.
  destruct (decide (rec_topic (heap σ ref) = topic)); [|done].
  destruct id as [i|]; [|done]. by destruct (decide (rec_id (heap σ ref) ≠ i)).
Qed.

Lemma delete_loop_same topic id refs σ :
  let σ' := foldl (delete_turn topic id) σ refs in
  heap σ' = heap σ ∧ top σ' = top σ ∧ cache σ' = cache σ ∧ errors σ' = errors σ ∧
  jobs σ' = jobs σ ∧ parked σ' = parked σ ∧ serial σ' = serial σ ∧
  outcomes σ' = outcomes σ.
Proof.
  simpl. revert σ. induction refs as [|ref refs IH]; intros σ; simpl; [done|].
  destruct (IH (delete_turn topic id σ ref)) as (-> & -> & -> & -> & -> & -> & -> & ->).
  apply delete_turn_same.
Qed.

Lemma delete_loop_events topic id refs σ :
  ∃ gone, events (foldl (delete_turn topic id) σ refs) = events σ ++ (deleted <$> gone).
Proof.
  revert σ. induction refs as [|ref refs IH]; intros σ; simpl.
  - exists []. by rewrite app_nil_r.
  - destruct (IH (delete_turn topic id σ ref)) as (gone & ->).
    unfold delete_turn.
    destruct (decide (rec_topic (heap σ ref) = topic)); [|by exists gone].
    destruct id as [i|].
    + destruct (decide (rec_id (heap σ ref) ≠ i)); [by exists gone|].
      exists (heap σ ref :: gone). simpl. by rewrite <-app_assoc.
    + exists (heap σ ref :: gone). simpl. by rewrite <-app_assoc.
Qed.

Lemma delete_turn_absent topic id σ ref (k : Z) :
  jm_get k (index σ) = None → jm_get k (index (delete_turn topic id σ ref)) = None.
Proof.
  intros Hk. unfold delete_turn.
  assert (∀ k', jm_get k (jm_delete k' (index σ)) = None) as Hdel.
  { intros k'. destruct (decide (k' = k)) as [->|Hne].
    - apply jm_get_delete_eq.
    - by rewrite jm_get_delete_ne. }
  destruct (decide (rec_topic (heap σ ref) = topic)); [|done].
  destruct id as [i|]; [|apply Hdel].
  destruct (decide (rec_id (heap σ ref) ≠ i)); [done|apply Hdel].
Qed.

Lemma delete_loop_absent topic id refs σ (k : Z) :
  jm_get k (index σ) = None →
  jm_get k (index (foldl (delete_turn topic id) σ refs)) = None.
Proof.
  revert σ. induction refs as [|ref refs IH]; intros σ Hk; simpl; [done|].
  apply IH. by apply delete_turn_absent.
Qed.

(** The loop of [delete] takes a record of the topic out of the map. *)
Lemma delete_loop_gone topic id refs σ ref (k : Z) :
  ref ∈ refs →
  rec_topic (heap σ ref) = topic → rec_id (heap σ ref) = k →
  id = None ∨ id = Some k →
  jm_get k (index (foldl (delete_turn topic id) σ refs)) = None.
Proof.
  revert σ. induction refs as [|r refs IH]; intros σ Hin Ht Hk Hid.
  { by apply elem_of_nil in Hin. }
  simpl. apply elem_of_cons in Hin as [<-|Hin].
  - apply delete_loop_absent. unfold delete_turn. rewrite Ht, Hk.
    destruct (decide (topic = topic)); [|done].
    destruct Hid as [->| ->]; simpl.
    + apply jm_get_delete_eq.
    + destruct (decide (k ≠ k)); [done|]. apply jm_get_delete_eq.
  - destruct (delete_turn_same topic id σ r) as (Hh & _).
    apply IH; try done; by rewrite Hh.
Qed.

Lemma play_app es1 es2 σ : play (es1 ++ es2) σ = play es2 (play es1 σ).
Proof. unfold play. apply foldl_app. Qed.

(** [getRecord] on an identifier the map does not hold, and its caller. *)
Lemma getRecord_absent (c : Call) (σ : Instance) :
  jobs σ = [Run (InGetRecord c)] →
  jm_get (wanted c) (index σ) = None →
  let σ' := play [Turn; Turn] σ in
  outcomes σ' = outcomes σ ++ [(c, Rejected (NO_MATCHING_ID (wanted c)))] ∧
  errors σ' = errors σ ++ [NO_MATCHING_ID (wanted c)] ∧
  heap σ' = heap σ ∧ top σ' = top σ ∧ index σ' = index σ ∧ events σ' = events σ ∧
  writes σ' = writes σ ∧ jobs σ' = [].
Proof.
  intros Hjobs Hget. destruct σ as [hp tp ix ca ev wr er jb pk se oc].
  simpl in *. subst jb. unfold tick. simpl. unfold in_getRecord. simpl.
  rewrite Hget. simpl. done.
Qed.

(** A call that checks the map and then asks [getRecord], followed in
    the same tick by a [delete]: the loop of [delete] runs between the
    check and the read. *)
Lemma overtaken_start (c : Call) (topic : string) (id : option Z) (σ : Instance) :
  idle σ →
  (∃ t response, c = CallUpdate t response) ∨ (∃ t i, c = CallExists t i) →
  jm_has (wanted c) (index σ) = true →
  let d := CallDelete topic id in
  play [Called c; Called d; Turn; Turn] σ
    = settle d (Resolved VUnit)
        (foldl (delete_turn topic id) (with_jobs [Run (InGetRecord c)] σ) (values σ)).
Proof.
  intros [Hjobs Hcache] Hc Hhas. destruct σ as [hp tp ix ca ev wr er jb pk se oc].
  simpl in *. subst jb ca. unfold await_isEnabled, tick. simpl.
  destruct Hc as [(t & response & ->)|(t & i & ->)]; simpl in *; rewrite Hhas; simpl;
    unfold await_isEnabled; simpl; done.
Qed.

(** C1, at an input where the code parts from it. [update] checks with
    [records.has] that a record is filed under [response.id] and then
    reads it with [await this.getRecord(response.id)]; the [await] lets
    the jobs queued before run first. When a [delete] of the record's
    topic is called in the same tick, after the [update], its loop runs
    between the check and the read: [getRecord] finds nothing and throws,
    and the [update] is rejected with NO_MATCHING_ID. The record is gone,
    no response was attached to its object, and no [updated] event was
    emitted, although at the call the record was filed under the topic
    and had no response. *)
Theorem update_overtaken (topic : string) (response : JsonRpcResponse)
    (id : option Z) (ref : nat) (σ : Instance) :
  idle σ →
  jm_get (resp_id response) (index σ) = Some ref →
  rec_id (heap σ ref) = resp_id response →
  rec_topic (heap σ ref) = topic →
  rec_response (heap σ ref) = None →
  id = None ∨ id = Some (resp_id response) →
  let u := CallUpdate topic response in
  let d := CallDelete topic id in
  let σ' := play [Called u; Called d; Turn; Turn; Turn; Turn] σ in
  outcomes σ' = outcomes σ ++ [(d, Resolved VUnit);
                               (u, Rejected (NO_MATCHING_ID (resp_id response)))] ∧
  jm_get (resp_id response) (index σ') = None ∧
  heap σ' = heap σ ∧
  (∃ gone, events σ' = events σ ++ (deleted <$> gone)) ∧
  errors σ' = errors σ ++ [NO_MATCHING_ID (resp_id response)] ∧
  jobs σ' = [].
Proof.
  intros Hidle Hget Hid Ht _ Hsel u d σ'. subst σ' d.
  change [Called u; Called (CallDelete topic id); Turn; Turn; Turn; Turn]
    with ([Called u; Called (CallDelete topic id); Turn; Turn] ++ [Turn; Turn]).
  rewrite play_app, (overtaken_start u topic id σ Hidle);
    [|left; by eexists _, _|unfold jm_has; simpl; by rewrite Hget].
  set (σ2 := with_jobs [Run (InGetRecord u)] σ).
  destruct (delete_loop_same topic id (values σ) σ2)
    as (Hheap & Htop & Hca & Herr & Hjb & Hpk & Hse & Hout).
  destruct (delete_loop_events topic id (values σ) σ2) as (gone & Hev).
  set (σ3 := foldl (delete_turn topic id) σ2 (values σ)) in *.
  assert (jm_get (resp_id response) (index σ3) = None) as Hgone.
  { apply (delete_loop_gone topic id (values σ) σ2 ref); try done.
    by apply (jm_get_Some_value (resp_id response)). }
  destruct (getRecord_absent u (settle (CallDelete topic id) (Resolved VUnit) σ3))
    as (Ho & He & Hh & _ & Hi & Hv & _ & Hj); [by simpl; rewrite Hjb|done|].
  rewrite Ho, He, Hh, Hi, Hv, Hj. simpl. rewrite Hout, Herr, Hheap, Hev. simpl.
  split; [by rewrite <-app_assoc|]. split; [done|]. split; [done|].
  split; [by exists gone|done].
Qed.

(** X1. [exists(topic, id)] on the event loop. Run with no other job of
    the instance between its steps, it resolves and changes nothing: it
    answers [true] exactly when a record is filed under [id] with that
    topic. But it checks with [records.has] and then reads with
    [await this.getRecord(id)]: when a [delete] of the topic is called in
    the same tick after it, the record is gone at the read, and [exists]
    is rejected with NO_MATCHING_ID. *)
Theorem exists_spec (topic : string) (id : Z) (σ : Instance) :
  idle σ →
  let c := CallExists topic id in
  (let σ' := play [Called c; Turn; Turn; Turn] σ in
   ∃ b, outcomes σ' = outcomes σ ++ [(c, Resolved (VBool b))] ∧
        (b = true ↔ ∃ ref, jm_get id (index σ) = Some ref ∧
                           rec_topic (heap σ ref) = topic) ∧
        heap σ' = heap σ ∧ index σ' = index σ ∧ events σ' = events σ ∧
        writes σ' = writes σ ∧ errors σ' = errors σ ∧ jobs σ' = []) ∧
  (∀ ref del,
     jm_get id (index σ) = Some ref →
     rec_id (heap σ ref) = id → rec_topic (heap σ ref) = topic →
     del = None ∨ del = Some id →
     let d := CallDelete topic del in
     let σ' := play [Called c; Called d; Turn; Turn; Turn; Turn] σ in
     outcomes σ' = outcomes σ ++ [(d, Resolved VUnit);
                                  (c, Rejected (NO_MATCHING_ID id))] ∧
     jm_get id (index σ') = None).
Proof.
  intros Hidle c. split.
  - destruct Hidle as [Hjobs Hcache]. destruct σ as [hp tp ix ca ev wr er jb pk se oc].
    simpl in *. subst jb ca. unfold await_isEnabled, tick. simpl.
    unfold jm_has. destruct (jm_get id ix) as [ref|] eqn:Hget; simpl.
    + unfold await_isEnabled, tick. simpl. unfold in_getRecord. simpl.
      rewrite Hget. simpl.
      exists (bool_decide (rec_topic (hp ref) = topic)). repeat split; try done.
      * intros Hb. apply bool_decide_eq_true in Hb. by exists ref.
      * intros (r & [= <-] & Ht). by apply bool_decide_eq_true.
    + exists false. repeat split; try done. by intros (r & ? & _).
  - intros ref del Hget Hid Ht Hsel d σ'. subst σ' d.
    change [Called c; Called (CallDelete topic del); Turn; Turn; Turn; Turn]
      with ([Called c; Called (CallDelete topic del); Turn; Turn] ++ [Turn; Turn]).
    rewrite play_app, (overtaken_start c topic del σ Hidle);
      [|right; by eexists _, _|unfold jm_has; simpl; by rewrite Hget].
    set (σ2 := with_jobs [Run (InGetRecord c)] σ).
    destruct (delete_loop_same topic del (values σ) σ2)
      as (Hheap & Htop & Hca & Herr & Hjb & Hpk & Hse & Hout).
    set (σ3 := foldl (delete_turn topic del) σ2 (values σ)) in *.
    assert (jm_get id (index σ3) = None) as Hgone.
    { apply (delete_loop_gone topic del (values σ) σ2 ref); try done.
      by apply (jm_get_Some_value id). }
    destruct (getRecord_absent c (settle (CallDelete topic del) (Resolved VUnit) σ3))
      as (Ho & _ & _ & _ & Hi & _); [by simpl; rewrite Hjb|done|].
    rewrite Ho, Hi. simpl. rewrite Hout. split; [by rewrite <-app_assoc|done].
Qed.

(** *** Record objects over time *)

Lemma keeps_same σ σ' : heap σ' = heap σ → top σ' = top σ → keeps σ σ'.
Proof. intros Hh Ht. split; [by rewrite Ht|]. intros ref _. left. by rewrite Hh. Qed.

Lemma keeps_trans σ1 σ2 σ3 : keeps σ1 σ2 → keeps σ2 σ3 → keeps σ1 σ3.
Proof.
  intros [Ht1 H1] [Ht2 H2]. split; [lia|]. intros ref Href.
  destruct (H1 ref Href) as [E1|(Hn & r & E1)];
    (destruct (H2 ref ltac:(lia)) as [E2|(Hn2 & r2 & E2)]).
  - left. congruence.
  - right. rewrite E1 in *. split; [done|]. by exists r2.
  - right. split; [done|]. exists r. congruence.
  - rewrite E1 in Hn2. done.
Qed.

Lemma await_isEnabled_keeps t σ : keeps σ (await_isEnabled t σ).
Proof. apply keeps_same; unfold await_isEnabled; by destruct (_ =? _)%nat. Qed.

Lemma run_task_keeps t σ : keeps σ (run_task t σ).
Proof.
  destruct t as [c|c|c found]; simpl.
  - destruct c as [topic request chainId|topic response|topic id|topic id|topic id]; simpl.
    + unfold set_body. destruct (jm_has _ _); [by apply keeps_same|].
      split; simpl; [lia|]. intros ref Href. left. rewrite fn_lookup_insert_ne; [done|lia].
    + destruct (negb _); [by apply keeps_same | apply await_isEnabled_keeps].
    + apply await_isEnabled_keeps.
    + destruct (delete_loop_same topic id (values σ) σ) as (Hh & Ht & _).
      by apply keeps_same.
    + destruct (negb _); [by apply keeps_same | apply await_isEnabled_keeps].
  - unfold in_getRecord. destruct (jm_get _ _); by apply keeps_same.
  - unfold after_getRecord. destruct found as [ref|e]; [|by apply keeps_same].
    destruct c as [topic request chainId|topic response|topic id|topic id|topic id];
      try (by apply keeps_same).
    + destruct (decide (rec_topic (heap σ ref) ≠ topic)); [by apply keeps_same|].
      destruct (decide (rec_response (heap σ ref) ≠ None)) as [|Hn]; [by apply keeps_same|].
      split; simpl; [lia|]. intros r Hr. destruct (decide (r = ref)) as [->|Hne].
      * right. rewrite fn_lookup_insert. split; [|by eexists].
        by destruct (rec_response (heap σ ref)); [destruct Hn|].
      * left. by rewrite fn_lookup_insert_ne.
    + destruct (decide _); by apply keeps_same.
Qed.

Lemma load_keeps persisted σ : keeps σ (load persisted σ).
Proof.
  unfold load. destruct persisted as [l|]; [|by apply keeps_same].
  destruct (length l =? 0)%nat; [by apply keeps_same|].
  destruct (negb _); [by apply keeps_same|].
  match goal with
  | |- keeps _ (enqueue _ (foldl ?f ?s ?refs)) =>
      assert (∀ refs' s', heap (foldl f s' refs') = heap s' ∧ top (foldl f s' refs') = top s')
        as Hfold
  end.
  { induction refs' as [|r refs' IH]; intros s'; simpl; [done|].
    destruct (IH (with_index (jm_set (rec_id (heap s' r)) r) s')) as [-> ->]. done. }
  split.
  - simpl. rewrite (proj2 (Hfold _ _)). simpl. lia.
  - intros ref Href. left. simpl. rewrite (proj1 (Hfold _ _)). simpl.
    destruct (decide (top σ ≤ ref)%nat); [lia|done].
Qed.

Lemma subscribe_keeps key σ : keeps σ (subscribe key σ).
Proof.
  unfold subscribe. destruct (subscribe_entry _ _) as [ps [t|]]; by apply keeps_same.
Qed.

Lemma tick_keeps σ : keeps σ (tick σ).
Proof.
  unfold tick. destruct (jobs σ) as [|j rest] eqn:Hj; [by apply keeps_same|].
  apply (keeps_trans _ (with_jobs rest σ)); [by apply keeps_same|].
  destruct j as [t|t|key|persisted| |]; simpl.
  - apply run_task_keeps.
  - by apply keeps_same.
  - apply subscribe_keeps.
  - apply load_keeps.
  - by apply keeps_same.
  - by apply keeps_same.
Qed.

Lemma play_keeps es σ : keeps σ (play es σ).
Proof.
  revert σ. induction es as [|e es IH]; intros σ; [by apply keeps_same|].
  simpl. apply (keeps_trans _ (step σ e)); [|apply IH].
  destruct e as [c|persisted|]; simpl.
  - apply await_isEnabled_keeps.
  - by apply keeps_same.
  - apply tick_keeps.
Qed.

(** X20. Whatever public calls are made, whenever the storage answers and
    however the jobs interleave, a record object in use keeps its [id],
    [topic], [request] and [chainId], and a response, once the object has
    one, stays the response it has: the only assignment to
    [record.response] is the one of [update], made when the object has
    none. *)
Theorem answered_forever (es : list Event) (σ : Instance) (ref : nat) :
  (ref < top σ)%nat →
  let r := heap σ ref in
  let r' := heap (play es σ) ref in
  rec_id r' = rec_id r ∧ rec_topic r' = rec_topic r ∧
  rec_request r' = rec_request r ∧ rec_chainId r' = rec_chainId r ∧
  (∀ answer, rec_response r = Some answer → rec_response r' = Some answer).
Proof.
  intros Href. simpl. destruct (play_keeps es σ) as [_ Hk].
  destruct (Hk ref Href) as [->|(Hn & r & ->)]; [done|].
  repeat split; try done. intros answer Ha. congruence.
Qed.

(** *** The gate *)











(** *** A call run alone *)

Section ViewFacts.

Context {A B : Type}.
Implicit Types (f g : A → B) (m : list (Z * A)).

Lemma jm_get_view f m (k : Z) : jm_get k (prod_map id f <$> m) = f <$> jm_get k m.
Proof.
  induction m as [|[k' v] m IH]; [done|]. rewrite fmap_cons. simpl.
  by destruct (decide (k' = k)).
Qed.

Lemma jm_set_view f m (k : Z) v :
  prod_map id f <$> jm_set k v m = jm_set k (f v) (prod_map id f <$> m).
Proof.
  induction m as [|[k' v'] m IH]; [done|]. simpl.
  destruct (decide (k' = k)); [done|]. rewrite fmap_cons. by rewrite IH.
Qed.

Lemma jm_delete_view f m (k : Z) :
  prod_map id f <$> jm_delete k m = jm_delete k (prod_map id f <$> m).
Proof.
  induction m as [|[k' v'] m IH]; [done|]. simpl.
  destruct (decide (k' = k)); [done|]. rewrite fmap_cons. by rewrite IH.
Qed.

Lemma jm_values_view f m : jm_values (prod_map id f <$> m) = f <$> jm_values m.
Proof.
  unfold jm_values. rewrite <-!list_fmap_compose. by apply list_fmap_ext; intros i [k v].
Qed.

Lemma view_ext f g m :
  (∀ v, v ∈ jm_values m → f v = g v) → prod_map id f <$> m = prod_map id g <$> m.
Proof.
  intros Hfg. apply list_fmap_ext. intros i [k v] Hi. unfold prod_map. simpl.
  f_equal. apply Hfg. unfold jm_values. apply list_elem_of_fmap.
  exists (k, v). split; [done|]. by apply list_elem_of_lookup_2 in Hi.
Qed.

End ViewFacts.

Lemma jm_has_view {A B} (f : A → B) (m : list (Z * A)) (k : Z) :
  jm_has k (prod_map id f <$> m) = jm_has k m.
Proof. unfold jm_has. rewrite jm_get_view. by destruct (jm_get k m). Qed.

(** Writing into a record object shows in the map where the object is
    filed. *)
Lemma heap_insert_view (f : nat → JsonRpcRecord) (m : list (Z * nat)) (k : Z)
    (ref : nat) (r : JsonRpcRecord) :
  NoDup (jm_values m) → jm_get k m = Some ref →
  prod_map id (<[ref := r]> f) <$> m = jm_set k r (prod_map id f <$> m).
Proof.
  induction m as [|[k' v] m IH]; [done|]. intros Hnd Hget.
  unfold jm_values in Hnd. rewrite fmap_cons in Hnd. simpl in Hnd.
  apply NoDup_cons in Hnd as [Hv Hnd]. rewrite fmap_cons. simpl in *.
  destruct (decide (k' = k)) as [->|Hne].
  - injection Hget as ->. unfold prod_map at 1. simpl. rewrite fn_lookup_insert.
    f_equal. apply view_ext. intros v Hin. rewrite fn_lookup_insert_ne; [done|].
    intros ->. done.
  - unfold prod_map at 1. simpl. rewrite fn_lookup_insert_ne.
    + f_equal. by apply IH.
    + intros ->. apply Hv. by apply (jm_get_Some_value k).
Qed.

Lemma view_delete_turn topic id σ ref :
  view (delete_turn topic id σ ref)
    = (delete_step topic id (heap σ ref) (view σ)).2.
Proof.
  unfold delete_turn, delete_step.
  destruct (decide (rec_topic (heap σ ref) = topic)); [|done].
  assert (view (emit (deleted (heap σ ref))
                  (with_index (jm_delete (rec_id (heap σ ref))) σ))
          = ((modify (with_records (jm_delete (rec_id (heap σ ref)))) ;;
              History.emit (deleted (heap σ ref))) (view σ)).2) as Hhit.
  { unfold view, emit, persist, snapshot, values. simpl.
    unfold with_stored, with_emitted, with_records, History.values. simpl.
    rewrite jm_delete_view. f_equal. f_equal. f_equal.
    by rewrite <-jm_delete_view, jm_values_view. }
  destruct id as [i|]; [|done].
  by destruct (decide (rec_id (heap σ ref) ≠ i)).
Qed.

Lemma delete_step_resolves topic id record h :
  (delete_step topic id record h).1 = Resolved ().
Proof.
  unfold delete_step. destruct (decide _); [|done].
  destruct id as [i|]; [|done]. by destruct (decide _).
Qed.

Lemma view_delete_loop topic id refs σ :
  forEach (heap σ <$> refs) (delete_step topic id) (view σ)
    = (Resolved (), view (foldl (delete_turn topic id) σ refs)).
Proof.
  revert σ. induction refs as [|ref refs IH]; intros σ; [done|].
  rewrite fmap_cons. simpl. unfold mbind, Async_bind at 1.
  pose proof (delete_step_resolves topic id (heap σ ref) (view σ)) as Hres.
  pose proof (view_delete_turn topic id σ ref) as Hview.
  destruct (delete_step topic id (heap σ ref) (view σ)) as [o h']. simpl in *.
  subst o h'. destruct (delete_turn_same topic id σ ref) as (Hheap & _).
  rewrite <-Hheap. apply IH.
Qed.


(** *** The shape of the map, whatever the interleaving *)

Lemma jm_values_set_fresh {K V} `{EqDecision K} (k : K) (v : V) (m : list (K * V)) :
  jm_get k m = None → jm_values (jm_set k v m) = jm_values m ++ [v].
Proof.
  induction m as [|[k' v'] m IH]; simpl; [done|].
  destruct (decide (k' = k)); [done|]. intros Hk. unfold jm_values in *.
  rewrite !fmap_cons. simpl. by rewrite IH.
Qed.

(** Filing an object that the map does not hold, or holds under that very
    key, leaves no object filed twice. *)
Lemma jm_NoDup_values_set {K V} `{EqDecision K} (k : K) (v : V) (m : list (K * V)) :
  NoDup (jm_keys m) → NoDup (jm_values m) →
  v ∉ jm_values m ∨ jm_get k m = Some v →
  NoDup (jm_values (jm_set k v m)).
Proof.
  induction m as [|[k' v'] m IH]; intros Hk Hv Hin.
  - simpl. unfold jm_values. simpl. apply NoDup_singleton.
  - unfold jm_keys, jm_values in *. rewrite !fmap_cons in *. simpl in *.
    apply NoDup_cons in Hk as [Hk' Hk]. apply NoDup_cons in Hv as [Hv' Hv].
    destruct (decide (k' = k)) as [->|Hne].
    + rewrite fmap_cons. simpl. apply NoDup_cons. split; [|done].
      destruct Hin as [Hin|[= ->]]; [|done].
      intros Hv''. apply Hin. by apply list_elem_of_further.
    + rewrite fmap_cons. simpl. apply NoDup_cons. split.
      * intros Hv''. apply list_elem_of_fmap in Hv'' as ([k2 v2] & Heq & Hp). simpl in Heq.
        subst v2. apply jm_elem_set in Hp as [[= -> ->]|Hp].
        -- destruct Hin as [Hin|Hin].
           ++ apply Hin. apply list_elem_of_here.
           ++ apply Hv'. apply (jm_get_Some_value k) in Hin. exact Hin.
        -- apply Hv'. apply list_elem_of_fmap. by exists (k2, v').
      * apply IH; [done|done|]. destruct Hin as [Hin|Hin]; [left|by right].
        intros Hv''. apply Hin. by apply list_elem_of_further.
Qed.

Lemma task_ok_mono n n' t : (n ≤ n')%nat → task_ok n t → task_ok n' t.
Proof. destruct t as [c|c|c [ref|e]]; simpl; try done. lia. Qed.

Lemma job_ok_mono n n' j : (n ≤ n')%nat → job_ok n j → job_ok n' j.
Proof. destruct j; simpl; try done; apply task_ok_mono. Qed.

Lemma well_formed_same σ σ' :
  heap σ' = heap σ → top σ' = top σ → index σ' = index σ →
  jobs σ' = jobs σ → parked σ' = parked σ →
  well_formed σ → well_formed σ'.
Proof. unfold well_formed, index_ok. by intros -> -> -> -> ->. Qed.

Lemma well_formed_enqueue j σ :
  job_ok (top σ) j → well_formed σ → well_formed (enqueue j σ).
Proof.
  intros Hj (Hi & Hjs & Hps). split; [done|]. split; [|done].
  simpl. apply Forall_app. split; [done|]. by apply Forall_singleton.
Qed.

Lemma well_formed_park t σ :
  task_ok (top σ) t → well_formed σ → well_formed (park t σ).
Proof.
  intros Ht (Hi & Hjs & Hps). split; [done|]. split; simpl.
  - apply Forall_app. split; [done|]. by apply Forall_singleton.
  - apply Forall_app. split; [done|]. by apply Forall_singleton.
Qed.

Lemma well_formed_await t σ :
  task_ok (top σ) t → well_formed σ → well_formed (await_isEnabled t σ).
Proof.
  intros Ht Hwf. unfold await_isEnabled. destruct (_ =? _)%nat.
  - by apply well_formed_enqueue.
  - by apply well_formed_park.
Qed.

Lemma well_formed_delete_index k σ :
  well_formed σ → well_formed (with_index (jm_delete k) σ).
Proof.
  intros ((Hk & Hv & Hids) & Hjs & Hps). split; [|done]. split; [|split]; simpl.
  - by apply jm_NoDup_delete.
  - by apply jm_NoDup_values_delete.
  - rewrite Forall_forall in *. intros p Hp. by apply Hids, (jm_elem_delete k).
Qed.

Lemma well_formed_delete_turn topic id σ ref :
  well_formed σ → well_formed (delete_turn topic id σ ref).
Proof.
  intros Hwf. unfold delete_turn.
  assert (∀ r, well_formed (emit (deleted r) (with_index (jm_delete (rec_id r)) σ))) as Hhit.
  { intros r. eapply well_formed_same; [..|by apply (well_formed_delete_index (rec_id r))];
      done. }
  destruct (decide _); [|done]. destruct id as [i|]; [|apply Hhit].
  destruct (decide _); [done|apply Hhit].
Qed.

Lemma well_formed_delete_loop topic id refs σ :
  well_formed σ → well_formed (foldl (delete_turn topic id) σ refs).
Proof.
  revert σ. induction refs as [|ref refs IH]; intros σ Hwf; [done|].
  simpl. by apply IH, well_formed_delete_turn.
Qed.

Lemma well_formed_settle c o σ : well_formed σ → well_formed (settle c o σ).
Proof. by apply well_formed_same. Qed.

Lemma well_formed_log e σ : well_formed σ → well_formed (logger_error e σ).
Proof. by apply well_formed_same. Qed.

Lemma index_ok_fresh σ ref : index_ok σ → (top σ ≤ ref)%nat → ref ∉ jm_values (index σ).
Proof.
  intros (_ & _ & Hids) Hle Hin. unfold jm_values in Hin.
  apply list_elem_of_fmap in Hin as ([k v] & -> & Hin). rewrite Forall_forall in Hids.
  destruct (Hids _ Hin) as [_ Hlt]. simpl in *. lia.
Qed.

Lemma well_formed_set_body c topic request chainId σ :
  well_formed σ → well_formed (set_body c topic request chainId σ).
Proof.
  intros Hwf. unfold set_body. destruct (jm_has _ _) eqn:Hhas.
  { by apply well_formed_settle, well_formed_log. }
  destruct Hwf as (Hi & Hjs & Hps). pose proof Hi as (Hk & Hv & Hids).
  pose proof (index_ok_fresh σ (top σ) Hi (le_n _)) as Hfresh.
  split; [|split]; simpl.
  - split; [|split]; simpl.
    + by apply jm_NoDup_set.
    + apply jm_NoDup_values_set; [done|done|by left].
    + rewrite Forall_forall in *. intros p Hp.
      apply jm_elem_set in Hp as [->|Hp]; simpl.
      * rewrite fn_lookup_insert. split; [done|lia].
      * destruct (Hids _ Hp) as [Hid Hlt]. rewrite fn_lookup_insert_ne by lia.
        split; [done|lia].
  - eapply Forall_impl; [exact Hjs|]. intros j. apply job_ok_mono. lia.
  - eapply Forall_impl; [exact Hps|]. intros p. apply task_ok_mono. lia.
Qed.

Lemma well_formed_after_gate c σ : well_formed σ → well_formed (after_gate c σ).
Proof.
  intros Hwf. destruct c as [topic request chainId|topic response|topic id|topic id|topic id];
    simpl.
  - by apply well_formed_set_body.
  - destruct (negb _); [by apply well_formed_settle | by apply well_formed_await].
  - by apply well_formed_await.
  - by apply well_formed_settle, well_formed_delete_loop.
  - destruct (negb _); [by apply well_formed_settle | by apply well_formed_await].
Qed.

Lemma well_formed_in_getRecord c σ : well_formed σ → well_formed (in_getRecord c σ).
Proof.
  intros Hwf. unfold in_getRecord. destruct (jm_get _ _) as [ref|] eqn:Hget.
  - apply well_formed_enqueue; [|done]. simpl.
    destruct Hwf as ((_ & _ & Hids) & _). rewrite Forall_forall in Hids.
    apply jm_get_Some_elem in Hget. by destruct (Hids _ Hget).
  - apply well_formed_enqueue; [done|]. by apply well_formed_log.
Qed.

Lemma well_formed_answer ref r σ :
  (ref < top σ)%nat → rec_id r = rec_id (heap σ ref) →
  well_formed σ →
  well_formed (with_index (jm_set (rec_id r) ref) (with_heap <[ref := r]> σ)).
Proof.
  intros Href Hid ((Hk & Hv & Hids) & Hjs & Hps). split; [|done].
  rewrite Forall_forall in Hids.
  split; [|split]; simpl.
  - by apply jm_NoDup_set.
  - apply jm_NoDup_values_set; [done|done|].
    destruct (decide (ref ∈ jm_values (index σ))) as [Hin|Hout]; [right|by left].
    unfold jm_values in Hin. apply list_elem_of_fmap in Hin as ([k v] & Heq & Hin).
    simpl in Heq. subst v. destruct (Hids _ Hin) as [Hkey _]. simpl in Hkey.
    rewrite Hid, Hkey. by apply jm_elem_get.
  - rewrite Forall_forall. intros p Hp.
    apply jm_elem_set in Hp as [->|Hp]; simpl.
    + by rewrite fn_lookup_insert.
    + destruct (Hids _ Hp) as [Hkey Hlt]. split; [|done].
      destruct (decide (p.2 = ref)) as [Heq|Hne].
      * rewrite Heq in *. rewrite fn_lookup_insert. congruence.
      * by rewrite fn_lookup_insert_ne.
Qed.

Lemma well_formed_after_getRecord c found σ :
  task_ok (top σ) (AfterGetRecord c found) →
  well_formed σ → well_formed (after_getRecord c found σ).
Proof.
  intros Hok Hwf. unfold after_getRecord. destruct found as [ref|e];
    [|by apply well_formed_settle].
  simpl in Hok.
  destruct c as [topic request chainId|topic response|topic id|topic id|topic id];
    try done.
  - destruct (decide _); [by apply well_formed_settle|].
    destruct (decide _); [by apply well_formed_settle|].
    apply well_formed_settle.
    eapply well_formed_same;
      [..|apply (well_formed_answer ref
                   (with_response (heap σ ref) (response_of response)) σ Hok eq_refl Hwf)];
      done.
  - destruct (decide _); [by apply well_formed_settle, well_formed_log
                         |by apply well_formed_settle].
Qed.

Lemma well_formed_run_task t σ :
  task_ok (top σ) t → well_formed σ → well_formed (run_task t σ).
Proof.
  destruct t as [c|c|c found]; simpl; intros Hok Hwf.
  - by apply well_formed_after_gate.
  - by apply well_formed_in_getRecord.
  - by apply well_formed_after_getRecord.
Qed.

Lemma subscribe_entry_ok n key ps :
  Forall (λ p, task_ok n (pk_task p)) ps →
  Forall (λ p, task_ok n (pk_task p)) (subscribe_entry key ps).1 ∧
  (∀ t, (subscribe_entry key ps).2 = Some t → task_ok n t).
Proof.
  induction 1 as [|p ps Hp Hps IH]; simpl; [done|].
  destruct (decide (pk_key p = key)).
  - destruct (pk_state p); simpl; split; try done.
    + by apply Forall_cons.
    + by apply Forall_cons.
    + by intros t [= <-].
  - destruct (subscribe_entry key ps) as [qs o]. simpl in *. destruct IH as [IH1 IH2].
    split; [by apply Forall_cons | done].
Qed.

Lemma well_formed_subscribe key σ : well_formed σ → well_formed (subscribe key σ).
Proof.
  intros (Hi & Hjs & Hps). unfold subscribe.
  destruct (subscribe_entry_ok (top σ) key (parked σ) Hps) as [Hqs Ht].
  destruct (subscribe_entry key (parked σ)) as [qs [t|]]; simpl in *.
  - apply well_formed_enqueue; [by apply Ht|]. by split.
  - by split.
Qed.

Lemma well_formed_enable σ : well_formed σ → well_formed (enable σ).
Proof.
  intros (Hi & Hjs & Hps). split; [done|]. split; simpl.
  - apply Forall_app. split; [done|]. apply Forall_fmap.
    apply Forall_forall. intros p Hp. simpl.
    apply list_elem_of_filter in Hp as [_ Hp]. rewrite Forall_forall in Hps. by apply Hps.
  - apply Forall_fmap. apply Forall_forall. intros p Hp. simpl.
    apply list_elem_of_filter in Hp as [_ Hp]. rewrite Forall_forall in Hps. by apply Hps.
Qed.

Lemma load_loop_ok (refs : list nat) (σ : Instance) :
  NoDup refs →
  Forall (λ ref, ref < top σ ∧ ref ∉ jm_values (index σ))%nat refs →
  index_ok σ →
  let σ' := foldl (λ σ ref, with_index (jm_set (rec_id (heap σ ref)) ref) σ) σ refs in
  index_ok σ' ∧ heap σ' = heap σ ∧ top σ' = top σ ∧ jobs σ' = jobs σ ∧
  parked σ' = parked σ.
Proof.
  simpl. revert σ. induction refs as [|ref refs IH]; intros σ Hnd Hrefs Hi; [done|].
  apply NoDup_cons in Hnd as [Hnew Hnd]. apply Forall_cons in Hrefs as [[Hlt Hout] Hrefs].
  simpl.
  destruct (IH (with_index (jm_set (rec_id (heap σ ref)) ref) σ)) as (H1 & H2 & H3 & H4 & H5).
  - done.
  - simpl. rewrite Forall_forall in *. intros r Hr. destruct (Hrefs r Hr) as [Hrlt Hrout].
    split; [done|]. intros Hin. unfold jm_values in Hin.
    apply list_elem_of_fmap in Hin as ([k v] & Heq & Hin). simpl in Heq. subst v.
    apply jm_elem_set in Hin as [[= _ ->]|Hin]; [done|].
    apply Hrout. unfold jm_values. apply list_elem_of_fmap. by exists (k, r).
  - destruct Hi as (Hk & Hv & Hids). split; [|split]; simpl.
    + by apply jm_NoDup_set.
    + apply jm_NoDup_values_set; [done|done|by left].
    + rewrite Forall_forall in *. intros p Hp.
      apply jm_elem_set in Hp as [->|Hp]; [done|by apply Hids].
  - done.
Qed.

Lemma well_formed_load persisted σ : well_formed σ → well_formed (load persisted σ).
Proof.
  intros Hwf. unfold load. destruct persisted as [l|]; [|done].
  destruct (length l =? 0)%nat; [done|].
  destruct (negb _) eqn:Hsize; [by do 2 apply well_formed_log|].
  apply negb_false_iff, Nat.eqb_eq in Hsize.
  destruct (index σ) as [|p ix] eqn:Hix; [|done].
  destruct Hwf as (Hi & Hjs & Hps).
  match goal with
  | |- well_formed (enqueue _ (foldl ?f ?s ?refs)) =>
      destruct (load_loop_ok refs s) as (H1 & H2 & H3 & H4 & H5)
  end.
  - apply NoDup_seq.
  - apply Forall_forall. intros ref Href. apply elem_of_seq in Href. simpl.
    rewrite Hix. split; [lia|]. apply not_elem_of_nil.
  - split; [|split]; simpl; rewrite Hix; by constructor.
  - apply well_formed_enqueue; [done|]. split; [done|]. rewrite H3, H4, H5. simpl. split.
    + eapply Forall_impl; [exact Hjs|]. intros j. apply job_ok_mono. lia.
    + eapply Forall_impl; [exact Hps|]. intros q. apply task_ok_mono. lia.
Qed.

Lemma well_formed_tick σ : well_formed σ → well_formed (tick σ).
Proof.
  intros Hwf. unfold tick. destruct (jobs σ) as [|j rest] eqn:Hj; [done|].
  destruct Hwf as (Hi & Hjs & Hps). rewrite Hj in Hjs.
  apply Forall_cons in Hjs as [Hjok Hrest].
  assert (well_formed (with_jobs rest σ)) as Hwf by (by split).
  destruct j as [t|t|key|persisted| |]; simpl.
  - by apply well_formed_run_task.
  - by apply well_formed_enqueue.
  - by apply well_formed_subscribe.
  - by apply well_formed_load.
  - by apply well_formed_enqueue.
  - by apply well_formed_enable.
Qed.

Lemma well_formed_step σ e : well_formed σ → well_formed (step σ e).
Proof.
  intros Hwf. destruct e as [c|persisted|]; simpl.
  - by apply well_formed_await.
  - by apply well_formed_enqueue.
  - by apply well_formed_tick.
Qed.

Lemma well_formed_new : well_formed new_instance.
Proof. repeat split; simpl; constructor. Qed.

(** X22. Whatever public calls are made, whenever the storage answers and
    however the jobs interleave, the map of an instance holds one entry
    per key, files no record object twice and every object under its own
    [id], and neither the map nor a continuation in the queue holds an
    identity that is not in use. *)
Theorem interleaved_well_formed (es : list Event) :
  let σ := play es new_instance in
  NoDup (jm_keys (index σ)) ∧
  NoDup (jm_values (index σ)) ∧
  (∀ k ref, jm_get k (index σ) = Some ref → rec_id (heap σ ref) = k ∧ (ref < top σ)%nat) ∧
  (∀ c ref, Run (AfterGetRecord c (inl ref)) ∈ jobs σ → (ref < top σ)%nat).
Proof.
  simpl. assert (∀ σ, well_formed σ → well_formed (play es σ)) as Hplay.
  { induction es as [|e es IH]; intros σ Hwf; [done|]. simpl.
    by apply IH, well_formed_step. }
  destruct (Hplay _ well_formed_new) as ((Hk & Hv & Hids) & Hjs & _).
  split; [done|]. split; [done|]. split.
  - intros k ref Hget. apply jm_get_Some_elem in Hget. rewrite Forall_forall in Hids.
    by apply (Hids (k, ref)).
  - intros c ref Hin. rewrite Forall_forall in Hjs. by apply (Hjs _ Hin).
Qed.

(** *** Calls run alone *)

Lemma tick_idle σ : jobs σ = [] → tick σ = σ.
Proof. unfold tick. by intros ->. Qed.

Lemma await_open t σ : cache σ = [] → await_isEnabled t σ = enqueue (Run t) σ.
Proof. unfold await_isEnabled. by intros ->. Qed.

(** On an instance with nothing queued, a job queued runs next, on the
    instance as it was. *)
Lemma tick_enqueue j σ : jobs σ = [] → tick (enqueue j σ) = run_job j σ.
Proof.
  intros Hj. rewrite (tick_cons (enqueue j σ) j []) by (simpl; by rewrite Hj).
  f_equal. destruct σ. simpl in *. by subst.
Qed.

Lemma play_cons e es σ : play (e :: es) σ = play es (step σ e).
Proof. reflexivity. Qed.

Lemma play_nil σ : play [] σ = σ.
Proof. reflexivity. Qed.

(** The first turn of a call made on an idle instance. *)
Lemma play_called c es σ :
  idle σ → play (Called c :: Turn :: es) σ = play es (after_gate c σ).
Proof.
  intros [Hj Hc]. rewrite !play_cons. cbn [step].
  by rewrite (await_open _ σ Hc), (tick_enqueue _ σ Hj).
Qed.

Lemma play_idle es σ : jobs σ = [] → Forall (λ e, e = Turn) es → play es σ = σ.
Proof.
  intros Hj Hes. induction Hes as [|e es -> _ IH]; [done|].
  rewrite play_cons. cbn [step]. by rewrite (tick_idle _ Hj).
Qed.

(** A call made on an idle instance and run alone: what the three turns
    come to, method by method. *)
Lemma alone_set topic request chainId σ :
  idle σ →
  play [Called (CallSet topic request chainId); Turn; Turn; Turn] σ
    = set_body (CallSet topic request chainId) topic request chainId σ.
Proof.
  intros Hidle. rewrite (play_called _ _ σ Hidle). cbn [after_gate].
  apply play_idle; [|by repeat constructor].
  unfold set_body. destruct Hidle as [Hj _]. by destruct (jm_has _ _).
Qed.

Lemma alone_delete topic id σ :
  idle σ →
  play [Called (CallDelete topic id); Turn; Turn; Turn] σ
    = settle (CallDelete topic id) (Resolved VUnit)
        (foldl (delete_turn topic id) σ (values σ)).
Proof.
  intros Hidle. rewrite (play_called _ _ σ Hidle). cbn [after_gate].
  apply play_idle; [|by repeat constructor]. destruct Hidle as [Hj _].
  destruct (delete_loop_same topic id (values σ) σ) as (_ & _ & _ & _ & H & _).
  simpl. by rewrite H.
Qed.

(** [getRecord] and the method that awaits it, run alone. *)
Lemma alone_getRecord c σ :
  idle σ →
  play [Turn; Turn] (await_isEnabled (InGetRecord c) σ)
    = match jm_get (wanted c) (index σ) with
      | Some ref => after_getRecord c (inl ref) σ
      | None =>
          settle c (Rejected (NO_MATCHING_ID (wanted c)))
            (logger_error (NO_MATCHING_ID (wanted c)) σ)
      end.
Proof.
  intros [Hj Hc]. rewrite (await_open _ σ Hc), !play_cons, play_nil. cbn [step].
  rewrite (tick_enqueue _ σ Hj). cbn [run_job run_task]. unfold in_getRecord.
  destruct (jm_get (wanted c) (index σ)) as [ref|].
  - by rewrite (tick_enqueue _ σ Hj).
  - by rewrite (tick_enqueue _ (logger_error _ σ) Hj).
Qed.

Lemma alone_get topic id σ :
  idle σ →
  play [Called (CallGet topic id); Turn; Turn; Turn] σ
    = match jm_get id (index σ) with
      | Some ref => after_getRecord (CallGet topic id) (inl ref) σ
      | None =>
          settle (CallGet topic id) (Rejected (NO_MATCHING_ID id))
            (logger_error (NO_MATCHING_ID id) σ)
      end.
Proof.
  intros Hidle. rewrite (play_called _ _ σ Hidle). cbn [after_gate].
  apply (alone_getRecord (CallGet topic id) σ Hidle).
Qed.

Lemma alone_update topic response σ :
  idle σ →
  play [Called (CallUpdate topic response); Turn; Turn; Turn] σ
    = match jm_get (resp_id response) (index σ) with
      | Some ref => after_getRecord (CallUpdate topic response) (inl ref) σ
      | None => settle (CallUpdate topic response) (Resolved VUnit) σ
      end.
Proof.
  intros Hidle. rewrite (play_called _ _ σ Hidle). cbn [after_gate].
  unfold jm_has. pose proof (alone_getRecord (CallUpdate topic response) σ Hidle) as Hg.
  cbn [wanted] in Hg. destruct (jm_get (resp_id response) (index σ)) as [ref|]; cbn [negb].
  - exact Hg.
  - apply play_idle; [by destruct Hidle | by repeat constructor].
Qed.

Lemma alone_exists topic id σ :
  idle σ →
  play [Called (CallExists topic id); Turn; Turn; Turn] σ
    = match jm_get id (index σ) with
      | Some ref => after_getRecord (CallExists topic id) (inl ref) σ
      | None => settle (CallExists topic id) (Resolved (VBool false)) σ
      end.
Proof.
  intros Hidle. rewrite (play_called _ _ σ Hidle). cbn [after_gate].
  unfold jm_has. pose proof (alone_getRecord (CallExists topic id) σ Hidle) as Hg.
  cbn [wanted] in Hg. destruct (jm_get id (index σ)) as [ref|]; cbn [negb].
  - exact Hg.
  - apply play_idle; [by destruct Hidle | by repeat constructor].
Qed.

(** X19. [update(topic, response)] run with no other job of the instance
    between its steps, on an instance with the gate open. The call
    resolves. When no record is filed under [response.id], or the record
    filed there has another topic, or it has a response already, no
    record object, no entry of the map and no event changes. Otherwise
    the [response] of the record object becomes [{error}] for an error
    response and [{result}] for a result; its [id], [topic], [request] and
    [chainId] stay as they are, as do every other object and the map;
    [updated] is emitted with the record, and the values of the map are
    handed to the storage. *)
Theorem update_alone (topic : string) (response : JsonRpcResponse) (σ : Instance) :
  idle σ → index_ok σ →
  let c := CallUpdate topic response in
  let σ' := play [Called c; Turn; Turn; Turn] σ in
  outcomes σ' = outcomes σ ++ [(c, Resolved VUnit)] ∧
  jobs σ' = [] ∧ errors σ' = errors σ ∧ index σ' = index σ ∧ top σ' = top σ ∧
  ((jm_get (resp_id response) (index σ) = None ∨
    ∃ ref, jm_get (resp_id response) (index σ) = Some ref ∧
           (rec_topic (heap σ ref) ≠ topic ∨ rec_response (heap σ ref) ≠ None)) →
     heap σ' = heap σ ∧ events σ' = events σ ∧ writes σ' = writes σ) ∧
  (∀ ref, jm_get (resp_id response) (index σ) = Some ref →
     rec_topic (heap σ ref) = topic → rec_response (heap σ ref) = None →
     rec_response (heap σ' ref)
       = Some (match response with
               | JsonRpcError _ error => ResponseError error
               | JsonRpcResult _ result => ResponseResult result
               end) ∧
     rec_id (heap σ' ref) = rec_id (heap σ ref) ∧
     rec_topic (heap σ' ref) = rec_topic (heap σ ref) ∧
     rec_request (heap σ' ref) = rec_request (heap σ ref) ∧
     rec_chainId (heap σ' ref) = rec_chainId (heap σ ref) ∧
     (∀ r, r ≠ ref → heap σ' r = heap σ r) ∧
     events σ' = events σ ++ [updated (heap σ' ref)] ∧
     writes σ' = writes σ ++ [snapshot σ']).
Proof.
  intros Hidle (Hkeys & Hvals & Hids) c σ'. subst c σ'.
  rewrite (alone_update topic response σ Hidle). destruct Hidle as [Hj Hc].
  destruct (jm_get (resp_id response) (index σ)) as [ref|] eqn:Hget.
  2:{ simpl. repeat split; try done. all: by simplify_eq. }
  unfold after_getRecord.
  destruct (decide (rec_topic (heap σ ref) ≠ topic)) as [Ht|Ht].
  { simpl. repeat split; try done. all: by simplify_eq. }
  destruct (decide (rec_response (heap σ ref) ≠ None)) as [Hr|Hr].
  { simpl. repeat split; try done. all: by simplify_eq. }
  assert (rec_id (heap σ ref) = resp_id response) as Hid.
  { apply jm_get_Some_elem in Hget. rewrite Forall_forall in Hids.
    by destruct (Hids _ Hget). }
  simpl. rewrite Hid, (jm_set_same _ _ _ Hget).
  split; [done|]. split; [done|]. split; [done|]. split; [done|].
  split; [done|]. split.
  { intros [?|(r & [= <-] & [?|?])]; done. }
  intros r [= <-] _ _. rewrite fn_lookup_insert.
  repeat split; try done.
  intros r Hne. by rewrite fn_lookup_insert_ne.
Qed.

(** X2. A request filed with [set], answered with [update] under the same
    topic, and read back with [get], each call made when the one before
    has settled: [get] resolves to the record
    [{id, topic, request: {method, params: request.params || null},
    chainId, response}], with [response] the [{error}] of an error
    response and the [{result}] of a result, and [exists] answers [true].
    The record is the object [set] created; the events are [created],
    with the record as it was then, and [updated]; no other key of the map
    has changed. *)
Theorem set_update_get (topic : string) (request : JsonRpcRequest)
    (chainId : option string) (response : JsonRpcResponse) (σ : Instance) :
  idle σ →
  jm_get (req_id request) (index σ) = None →
  resp_id response = req_id request →
  let s := CallSet topic request chainId in
  let u := CallUpdate topic response in
  let g := CallGet topic (req_id request) in
  let e := CallExists topic (req_id request) in
  let σ' := play [Called s; Turn; Called u; Turn; Turn; Turn;
                  Called g; Turn; Turn; Turn; Called e; Turn; Turn; Turn] σ in
  ∃ record,
    outcomes σ' = outcomes σ ++ [(s, Resolved VUnit); (u, Resolved VUnit);
                                 (g, Resolved (VRecord record));
                                 (e, Resolved (VBool true))] ∧
    rec_id record = req_id request ∧
    rec_topic record = topic ∧
    method (rec_request record) = req_method request ∧
    params (rec_request record)
      = (if truthy (req_params request) then req_params request else JsNull) ∧
    rec_chainId record = chainId ∧
    rec_response record
      = Some (match response with
              | JsonRpcError _ error => ResponseError error
              | JsonRpcResult _ result => ResponseResult result
              end) ∧
    jm_get (req_id request) (index σ') = Some (top σ) ∧
    heap σ' (top σ) = record ∧
    (∀ k, k ≠ req_id request → jm_get k (index σ') = jm_get k (index σ)) ∧
    events σ' = events σ ++
      [ created {| rec_id := rec_id record; rec_topic := rec_topic record;
                   rec_request := rec_request record;
                   rec_chainId := rec_chainId record; rec_response := None |};
        updated record ] ∧
    jobs σ' = [].
Proof.
  intros Hidle Hfresh Hid s u g e σ'. subst σ'.
  remember (play [Called s; Turn; Called u; Turn; Turn; Turn; Called g; Turn; Turn; Turn;
                  Called e; Turn; Turn; Turn] σ) as τ eqn:Hτ.
  change [Called s; Turn; Called u; Turn; Turn; Turn; Called g; Turn; Turn; Turn;
          Called e; Turn; Turn; Turn]
    with ([Called s; Turn] ++ [Called u; Turn; Turn; Turn] ++
          [Called g; Turn; Turn; Turn] ++ [Called e; Turn; Turn; Turn]) in Hτ.
  rewrite !play_app in Hτ.
  (* set *)
  rewrite (play_called s [] σ Hidle), play_nil in Hτ. subst s. cbn [after_gate] in Hτ.
  unfold set_body, jm_has in Hτ. rewrite Hfresh in Hτ.
  set (record := {| rec_id := req_id request; rec_topic := topic;
                    rec_request := {| method := req_method request;
                                      params := js_or (req_params request) JsNull |};
                    rec_chainId := chainId; rec_response := None |}) in Hτ.
  set (σ1 := settle _ _ _) in Hτ.
  assert (idle σ1) as Hidle1 by (by destruct Hidle).
  assert (jm_get (req_id request) (index σ1) = Some (top σ)) as Hget1.
  { simpl. apply jm_get_set_eq. }
  assert (heap σ1 (top σ) = record) as Hheap1.
  { simpl. apply fn_lookup_insert. }
  (* update *)
  subst u. rewrite (alone_update topic response σ1 Hidle1), Hid, Hget1 in Hτ.
  unfold after_getRecord in Hτ. rewrite Hheap1 in Hτ.
  rewrite decide_False in Hτ by (intros H; by apply H).
  rewrite decide_False in Hτ by (intros H; by apply H).
  set (answered := with_response record (response_of response)) in Hτ.
  set (σ2 := settle _ _ _) in Hτ.
  assert (idle σ2) as Hidle2 by (by destruct Hidle).
  assert (index σ2 = index σ1) as Hindex2.
  { simpl. by rewrite jm_set_set. }
  assert (heap σ2 (top σ) = answered) as Hheap2.
  { simpl. apply fn_lookup_insert. }
  (* get *)
  subst g. rewrite (alone_get topic (req_id request) σ2 Hidle2), Hindex2, Hget1 in Hτ.
  unfold after_getRecord in Hτ. rewrite Hheap2 in Hτ.
  rewrite decide_False in Hτ by (intros H; by apply H).
  set (σ3 := settle _ _ _) in Hτ.
  assert (idle σ3) as Hidle3 by (by destruct Hidle).
  (* exists *)
  subst e. rewrite (alone_exists topic (req_id request) σ3 Hidle3) in Hτ.
  change (index σ3) with (index σ2) in Hτ. rewrite Hindex2, Hget1 in Hτ.
  unfold after_getRecord in Hτ. change (heap σ3) with (heap σ2) in Hτ.
  rewrite Hheap2 in Hτ. rewrite bool_decide_eq_true_2 in Hτ by done.
  assert (index τ = jm_set (req_id request) (top σ) (index σ)) as Hindex4.
  { rewrite Hτ. transitivity (index σ2); [reflexivity|]. by rewrite Hindex2. }
  exists answered. split.
  { rewrite Hτ.
    transitivity ((((outcomes σ ++ [(CallSet topic request chainId, Resolved VUnit)])
                    ++ [(CallUpdate topic response, Resolved VUnit)])
                   ++ [(CallGet topic (req_id request), Resolved (VRecord answered))])
                  ++ [(CallExists topic (req_id request), Resolved (VBool true))]);
      [reflexivity | by rewrite <-!app_assoc]. }
  split; [reflexivity|]. split; [reflexivity|]. split; [reflexivity|].
  split; [reflexivity|]. split; [reflexivity|].
  split; [by destruct response|].
  split; [by rewrite Hindex4, jm_get_set_eq|].
  split; [by rewrite Hτ|].
  split; [intros k Hk; by rewrite Hindex4, jm_get_set_ne|].
  split.
  - rewrite Hτ.
    transitivity ((events σ ++ [created record]) ++ [updated answered]);
      [reflexivity | by rewrite <-app_assoc].
  - rewrite Hτ. transitivity (jobs σ); [reflexivity | by destruct Hidle].
Qed.


(** *** The methods in one piece and step by step *)

(** With [cached] empty the gate of the method in one piece is open. *)
Lemma view_open σ : cache σ = [] → isEnabled (view σ) = (Resolved (), view σ).
Proof. intros Hc. unfold isEnabled, view. simpl. by rewrite Hc. Qed.

(** A record object allocated at a fresh identity is not yet in the map. *)
Lemma view_fresh_heap σ ref record :
  index_ok σ → (top σ ≤ ref)%nat →
  prod_map id (<[ref := record]> (heap σ)) <$> index σ = prod_map id (heap σ) <$> index σ.
Proof.
  intros (_ & _ & Hids) Hle. apply view_ext. intros v Hv.
  rewrite fn_lookup_insert_ne; [done|]. intros <-.
  rewrite Forall_forall in Hids. unfold jm_values in Hv.
  apply list_elem_of_fmap in Hv as ([k v] & -> & Hin).
  destruct (Hids _ Hin) as [_ Hlt]. simpl in Hlt, Hle. lia.
Qed.

(** Unfolds the monad of [History] on a state at hand. *)
Ltac in_one_piece :=
  unfold History.emit, History.persist, History.logger_error, modify, throw,
    mret, Async_ret, mbind, Async_bind; cbn -[jm_values].

(** X21. A public call made on an instance with the gate open and no job
    queued, and run to its end before anything else, leaves the instance,
    with its records read through their identities, as [History.run]
    gives it, and settles as [History.run] says: the methods of module
    [History] are the methods of the class run in one piece. *)
Theorem alone_as_history (c : Call) (σ : Instance) :
  idle σ → index_ok σ →
  view (play [Called c; Turn; Turn; Turn] σ)
    = with_settled c (run c (view σ)).1 (run c (view σ)).2.
Proof.
  intros Hidle Hok. pose proof Hidle as [Hjobs Hcache].
  pose proof Hok as (Hkeys & Hvals & Hids).
  pose proof (view_open σ Hcache) as Hopen.
  destruct c as [topic request chainId|topic response|topic i|topic i|topic i].
  - rewrite (alone_set topic request chainId σ Hidle).
    unfold run, History.set, this, mbind, Async_bind. rewrite Hopen.
    change (records (view σ)) with (prod_map id (heap σ) <$> index σ).
    rewrite jm_has_view. unfold set_body.
    destruct (jm_has (req_id request) (index σ)); [reflexivity|].
    in_one_piece. unfold view, with_settled. cbn -[jm_values]. rewrite Hcache. cbn -[jm_values].
    rewrite !jm_set_view, !fn_lookup_insert, !(view_fresh_heap σ (top σ) _ Hok (le_n _)).
    f_equal. f_equal. unfold snapshot, values, History.values. cbn -[jm_values]. f_equal.
    by rewrite <-jm_values_view, jm_set_view, fn_lookup_insert,
      (view_fresh_heap σ (top σ) _ Hok (le_n _)).
  - rewrite (alone_update topic response σ Hidle).
    unfold run, History.update, History.getRecord, this, mbind, Async_bind.
    rewrite Hopen.
    change (records (view σ)) with (prod_map id (heap σ) <$> index σ).
    rewrite jm_has_view. unfold jm_has.
    destruct (jm_get (resp_id response) (index σ)) as [ref|] eqn:Hget; [|reflexivity].
    assert (rec_id (heap σ ref) = resp_id response) as Hid.
    { apply jm_get_Some_elem in Hget. rewrite Forall_forall in Hids.
      by destruct (Hids _ Hget). }
    cbn [negb]. rewrite Hopen.
    change (records (view σ)) with (prod_map id (heap σ) <$> index σ).
    rewrite jm_get_view, Hget. cbn [fmap option_fmap option_map].
    unfold after_getRecord. in_one_piece.
    destruct (decide (rec_topic (heap σ ref) ≠ topic)); [reflexivity|].
    destruct (decide (rec_response (heap σ ref) ≠ None)); [reflexivity|].
    in_one_piece. unfold view, with_settled, emit, persist, snapshot, values, History.values.
    cbn -[jm_values]. rewrite Hcache, Hid, (jm_set_same _ _ _ Hget), <-jm_values_view.
    rewrite (heap_insert_view (heap σ) (index σ) (resp_id response) ref _ Hvals Hget).
    by rewrite jm_set_set.
  - rewrite (alone_get topic i σ Hidle).
    unfold run, History.get, History.getRecord, this, mbind, Async_bind.
    rewrite Hopen, Hopen.
    change (records (view σ)) with (prod_map id (heap σ) <$> index σ).
    rewrite jm_get_view.
    destruct (jm_get i (index σ)) as [ref|] eqn:Hget; [|reflexivity].
    cbn [fmap option_fmap option_map]. unfold after_getRecord. in_one_piece.
    by destruct (decide (rec_topic (heap σ ref) ≠ topic)).
  - rewrite (alone_delete topic i σ Hidle).
    unfold run, History.delete, this, mbind, Async_bind. rewrite Hopen.
    replace (History.values (view σ)) with (heap σ <$> values σ)
      by (unfold History.values, values; cbn -[jm_values]; by rewrite jm_values_view).
    rewrite (view_delete_loop topic i (values σ) σ). reflexivity.
  - rewrite (alone_exists topic i σ Hidle).
    unfold run, History.exists_, History.getRecord, this, mbind, Async_bind.
    rewrite Hopen.
    change (records (view σ)) with (prod_map id (heap σ) <$> index σ).
    rewrite jm_has_view. unfold jm_has.
    destruct (jm_get i (index σ)) as [ref|] eqn:Hget; [|reflexivity].
    cbn [negb]. rewrite Hopen.
    change (records (view σ)) with (prod_map id (heap σ) <$> index σ).
    by rewrite jm_get_view, Hget.
Qed.

(** *** The facts above, on concrete instances *)

Lemma instance7_idle : idle instance7.
Proof. by split. Defined.

Lemma instance7_ok : index_ok instance7.
Proof.
  split; [|split].
  - apply NoDup_singleton.
  - apply NoDup_singleton.
  - apply Forall_singleton. split; [reflexivity | simpl; lia].
Defined.

Lemma update_alone_witness :
  rec_response
    (heap (play [Called (CallUpdate "T" response7); Turn; Turn; Turn] instance7) 0)
    = Some (ResponseResult (JsString "0x1")).
Proof.
  destruct (update_alone "T" response7 instance7 instance7_idle instance7_ok)
    as (_ & _ & _ & _ & _ & _ & Happly).
  exact (proj1 (Happly 0 eq_refl eq_refl eq_refl)).
Defined.

Lemma set_update_get_witness :
  ∃ record,
    outcomes (play [Called (CallSet "T" request7 None); Turn;
                    Called (CallUpdate "T" response7); Turn; Turn; Turn;
                    Called (CallGet "T" 7); Turn; Turn; Turn;
                    Called (CallExists "T" 7); Turn; Turn; Turn] new_instance)
      = [(CallSet "T" request7 None, Resolved VUnit);
         (CallUpdate "T" response7, Resolved VUnit);
         (CallGet "T" 7, Resolved (VRecord record));
         (CallExists "T" 7, Resolved (VBool true))] ∧
    rec_response record = Some (ResponseResult (JsString "0x1")).
Proof.
  destruct (set_update_get "T" request7 None response7 new_instance)
    as (record & Ho & _ & _ & _ & _ & _ & Hr & _); [by split|done|done|].
  exists record. by split.
Defined.


Lemma alone_as_history_witness :
  view (play [Called (CallGet "T" 7); Turn; Turn; Turn] instance7)
    = with_settled (CallGet "T" 7) (run (CallGet "T" 7) (view instance7)).1
        (run (CallGet "T" 7) (view instance7)).2.
Proof. exact (alone_as_history (CallGet "T" 7) instance7 instance7_idle instance7_ok). Defined.

Lemma update_overtaken_witness :
  let σ' := play [Called (CallUpdate "T" response7); Called (CallDelete "T" None);
                  Turn; Turn; Turn; Turn] instance7 in
  outcomes σ' = outcomes instance7 ++
                  [(CallDelete "T" None, Resolved VUnit);
                   (CallUpdate "T" response7, Rejected (NO_MATCHING_ID 7))] ∧
  jm_get 7%Z (index σ') = None.
Proof.
  destruct (update_overtaken "T" response7 None 0 instance7 instance7_idle
              eq_refl eq_refl eq_refl eq_refl (or_introl eq_refl)) as (Ho & Hi & _).
  by split.
Defined.


Lemma exists_spec_witness :
  ∃ b, outcomes (play [Called (CallExists "T" 7); Turn; Turn; Turn] instance7)
         = outcomes instance7 ++ [(CallExists "T" 7, Resolved (VBool b))] ∧
       (b = true ↔ ∃ ref, jm_get 7%Z (index instance7) = Some ref ∧
                          rec_topic (heap instance7 ref) = "T").
Proof.
  destruct (proj1 (exists_spec "T" 7 instance7 instance7_idle)) as (b & Ho & Hb & _).
  exists b. by split.
Defined.




Lemma answered_forever_witness :
  rec_response
    (heap (play [Called (CallUpdate "T" (JsonRpcResult 7 JsNull)); Turn; Turn; Turn]
             answered7) 0)
    = Some (ResponseResult (JsString "0x1")).
Proof.
  destruct (answered_forever
              [Called (CallUpdate "T" (JsonRpcResult 7 JsNull)); Turn; Turn; Turn]
              answered7 0 (le_n 1)) as (_ & _ & _ & _ & Ha).
  exact (Ha _ eq_refl).
Defined.


(** Two calls parked while [restore] stands between its load and its
    [enable], an [update] of the restored record and then a [delete] of
    its topic: released by [enable] they interleave as above, and the
    [update] is rejected. *)
Lemma parked_update_overtaken :
  let u := CallUpdate "A" (JsonRpcResult 1 JsNull) in
  let d := CallDelete "A" None in
  let σ := play ([Called u; Called d] ++ replicate 10 Turn) loading1 in
  outcomes σ = [(d, Resolved VUnit); (u, Rejected (NO_MATCHING_ID 1))] ∧
  index σ = [] ∧ jobs σ = [] ∧ parked σ = [].
Proof. by vm_compute. Qed.


End LoopFacts.

(** ** Further properties of the relay *)

Module RelayMore.

Import Relay RelayFacts.


(** *** The message handler, frame by frame *)

Section HandlerFacts.

Variable JSON_parse : string → option JsValue.
Variable safeJsonStringify : JsValue → string.
Variable isLegacySocketMessage : JsValue → option bool.
Variable isJsonRpcPayload : JsValue → option bool.
Variable legacyDisabled : bool.
Variable jsonRpcDisabled : bool.
Variable legacy_onRequest : string → JsValue → WebSocketService → WebSocketService.
Variable jsonrpc_onPayload : string → JsValue → WebSocketService → WebSocketService.




(** *** A socket's life *)

(** X15. Once [addNewSocket] has registered a socket, [send] to its
    socketId returns [true] and the text reaches that socket object; once
    the close handler has run, [send] to that socketId returns [false].
    The server has seen [open] and then [close] for the socketId. *)
Theorem accept_send_close (socketId : string) (socket : nat) (msg : SocketMessage)
    (ws : WebSocketService) :
  let ws1 := addNewSocket socketId socket ws in
  let text := match msg with
              | MsgString s => s
              | MsgPayload payload => safeJsonStringify payload
              end in
  (send safeJsonStringify socketId msg ws1).1 = true ∧
  sent (objects (send safeJsonStringify socketId msg ws1).2 socket)
    = sent (objects ws socket) ++ [text] ∧
  (send safeJsonStringify socketId msg (on_close socketId ws1)).1 = false ∧
  (∀ s, objects (send safeJsonStringify socketId msg (on_close socketId ws1)).2 s
        = objects ws s) ∧
  events (on_close socketId ws1) = events ws ++ [ws_open socketId; ws_close socketId].
Proof.
  simpl. unfold send, getSocket, addNewSocket, on_close. simpl.
  rewrite jm_get_set_eq, jm_get_delete_eq. simpl. rewrite fn_lookup_alter.
  repeat split; try done. by rewrite <- app_assoc.
Qed.

Lemma beat_socket_events ws socketId e :
  e ∈ events ws → e ∈ events (beat_socket ws socketId).
Proof.
  intros Hin. unfold beat_socket.
  destruct (jm_get socketId (sockets ws)) as [socket|]; [|done].
  destruct (decide (isAlive (objects ws socket) = Some false)); [|done].
  simpl. apply elem_of_app. by left.
Qed.

Lemma beat_events l : ∀ ws e, e ∈ events ws → e ∈ events (foldl beat_socket ws l).
Proof.
  induction l as [|k l IH]; intros ws e Hin; [done|].
  simpl. by apply IH, beat_socket_events.
Qed.

(** The beat tells the server of the close of a socket it finds with
    [isAlive] false. *)
Lemma beat_dead_event ws socketId socket :
  sockets_ok (sockets ws) → jm_get socketId (sockets ws) = Some socket →
  isAlive (objects ws socket) = Some false →
  ws_close socketId ∈ events (clearInactiveSockets ws).
Proof.
  intros Hok Hget Hdead. unfold clearInactiveSockets.
  pose proof (jm_get_Some_key _ _ _ Hget) as Hin.
  apply list_elem_of_split in Hin as (l1 & l2 & Hkeys).
  pose proof (proj1 Hok) as Hnd. rewrite Hkeys in Hnd.
  apply NoDup_app in Hnd as (_ & Hl1 & _).
  assert (socketId ∉ l1) as Hnot1.
  { intros Hin1. apply (Hl1 _ Hin1). apply list_elem_of_here. }
  rewrite Hkeys, foldl_app. simpl.
  destruct (beat_others_present l1 ws socketId socket Hnot1 Hok Hget) as (Hget1 & Hobj1 & _).
  rewrite <- Hobj1 in Hdead.
  rewrite (beat_socket_dead _ socketId socket Hget1 Hdead).
  apply beat_events. simpl. apply elem_of_app. right. apply list_elem_of_here.
Qed.

(** X12. A socket the beat found with [isAlive] false is out of reach
    afterwards: [send] to its socketId returns [false] and touches no
    socket object, [isSocketConnected] answers [false], and the server has
    been told of the close. *)
Theorem evicted_unreachable (socketId : string) (socket : nat) (msg : SocketMessage)
    (ws : WebSocketService) :
  sockets_ok (sockets ws) →
  jm_get socketId (sockets ws) = Some socket →
  isAlive (objects ws socket) = Some false →
  let ws' := clearInactiveSockets ws in
  (send safeJsonStringify socketId msg ws').1 = false ∧
  (∀ s, objects (send safeJsonStringify socketId msg ws').2 s = objects ws' s) ∧
  (isSocketConnected socketId ws').1 = false ∧
  ws_close socketId ∈ events ws'.
Proof.
  intros Hok Hget Hdead. simpl.
  destruct (beat_registered ws socketId socket Hok Hget) as (Hbeat & _).
  destruct (Hbeat Hdead) as (Hgone & _).
  unfold send, isSocketConnected, getSocket. rewrite Hgone. simpl.
  repeat split; try done. by apply (beat_dead_event ws socketId socket).
Qed.

End HandlerFacts.

(** *** [close] *)

Lemma close_loop l : ∀ ws,
  let ws' := foldl (λ ws s, on_object s (socket_close 1012) ws) ws l in
  sockets ws' = sockets ws ∧ events ws' = events ws ∧
  ∀ s, objects ws' s = if decide (s ∈ l) then socket_close 1012 (objects ws s)
                       else objects ws s.
Proof.
  induction l as [|a l IH]; intros ws; simpl.
  - split; [done|]. split; [done|]. intros s. done.
  - destruct (IH (on_object a (socket_close 1012) ws)) as (Hs & He & Ho).
    split; [done|]. split; [done|]. intros s. rewrite Ho. simpl.
    destruct (decide (s = a)) as [->|Hne].
    + rewrite fn_lookup_alter. rewrite (decide_True (P := a ∈ a :: l)) by apply list_elem_of_here.
      by destruct (decide (a ∈ l)).
    + rewrite fn_lookup_alter_ne by done.
      destruct (decide (s ∈ l)) as [Hin|Hin].
      * rewrite decide_True; [done|]. by apply list_elem_of_further.
      * rewrite decide_False; [done|]. intros Hc. apply elem_of_cons in Hc as [?|?]; done.
Qed.

(** X11. [close] asks every registered socket to close with code 1012 and
    asks nothing else of it; a socket object the map does not hold is left
    alone, and the map and the server events are as before. *)
Theorem close_spec (ws : WebSocketService) :
  sockets (close ws) = sockets ws ∧
  events (close ws) = events ws ∧
  (∀ socketId socket, jm_get socketId (sockets ws) = Some socket →
     objects (close ws) socket = socket_close 1012 (objects ws socket) ∧
     closed (objects (close ws) socket) = Some 1012%Z ∧
     sent (objects (close ws) socket) = sent (objects ws socket) ∧
     terminated (objects (close ws) socket) = terminated (objects ws socket)) ∧
  (∀ s, s ∉ jm_values (sockets ws) → objects (close ws) s = objects ws s).
Proof.
  unfold close. destruct (close_loop (jm_values (sockets ws)) ws) as (Hs & He & Ho).
  split; [done|]. split; [done|]. split.
  - intros socketId socket Hget. apply jm_get_Some_value in Hget.
    rewrite Ho, decide_True by done. done.
  - intros s Hs'. by rewrite Ho, decide_False.
Qed.

(** *** A silent socket *)

Lemma pongs_sockets others : ∀ ws,
  sockets (foldl (λ w s, on_pong s w) ws others) = sockets ws.
Proof. induction others as [|s l IH]; intros ws; simpl; [done|]. by rewrite IH. Qed.

Lemma pongs_object others socket : ∀ ws,
  socket ∉ others →
  objects (foldl (λ w s, on_pong s w) ws others) socket = objects ws socket.
Proof.
  induction others as [|s l IH]; intros ws Hnot; simpl; [done|].
  apply not_elem_of_cons in Hnot as [Hne Hnot]. rewrite IH by done.
  unfold on_pong. simpl. by rewrite fn_lookup_alter_ne.
Qed.

Lemma beat_entries l : ∀ ws p, p ∈ sockets (foldl beat_socket ws l) → p ∈ sockets ws.
Proof.
  induction l as [|k l IH]; intros ws p Hin; [done|].
  simpl in Hin. apply IH in Hin.
  destruct (beat_socket_sockets ws k) as [Hs|Hs]; rewrite Hs in Hin; [done|].
  by apply (jm_elem_delete k).
Qed.

(** After the beat that found it with [isAlive] false, no entry of the map
    holds the socket object. *)
Lemma beat_dead_gone ws socketId socket :
  sockets_ok (sockets ws) → jm_get socketId (sockets ws) = Some socket →
  isAlive (objects ws socket) = Some false →
  socket ∉ jm_values (sockets (clearInactiveSockets ws)).
Proof.
  intros Hok Hget Hdead Hin.
  destruct (beat_registered ws socketId socket Hok Hget) as (Hbeat & _).
  destruct (Hbeat Hdead) as (Hgone & _).
  unfold jm_values in Hin. apply list_elem_of_fmap in Hin as ([k s] & -> & Hin).
  simpl in *. pose proof Hin as Hin0. apply beat_entries in Hin0.
  apply jm_get_Some_elem in Hget.
  assert (k = socketId) as -> by exact (jm_value_key k socketId s _ (proj2 Hok) Hin0 Hget).
  apply jm_get_None in Hgone. apply Hgone.
  apply (list_elem_of_fmap_2 fst) in Hin. exact Hin.
Qed.

(** X13. A registered socket whose peer sends no pong is gone after two
    beats, whatever pongs other sockets sent in between: it is out of the
    map and has been terminated. *)
Theorem silent_socket_evicted (ws : WebSocketService) (socketId : string) (socket : nat)
    (others : list nat) :
  sockets_ok (sockets ws) →
  jm_get socketId (sockets ws) = Some socket →
  socket ∉ others →
  let ws' := clearInactiveSockets
               (foldl (λ w s, on_pong s w) (clearInactiveSockets ws) others) in
  jm_get socketId (sockets ws') = None ∧
  terminated (objects ws' socket) = true.
Proof.
  intros Hok Hget Hnot. simpl.
  destruct (beat_registered ws socketId socket Hok Hget) as (Hdead & Hlive).
  pose proof (clearInactiveSockets_ok ws Hok) as Hok1.
  set (ws1 := clearInactiveSockets ws) in *.
  set (ws2 := foldl (λ w s, on_pong s w) ws1 others).
  assert (sockets ws2 = sockets ws1) as Hs2 by apply pongs_sockets.
  assert (objects ws2 socket = objects ws1 socket) as Ho2 by by apply pongs_object.
  destruct (decide (isAlive (objects ws socket) = Some false)) as [Ha|Ha].
  - destruct (Hdead Ha) as (Hgone & Hobj).
    destruct (beat_others_absent (jm_keys (sockets ws2)) ws2 socketId socket) as (Hg & Ho).
    + rewrite Hs2. by apply (beat_dead_gone ws socketId socket).
    + by rewrite Hs2.
    + split; [exact Hg|]. unfold clearInactiveSockets. by rewrite Ho, Ho2, Hobj.
  - destruct (Hlive Ha) as (Hstay & Hobj).
    destruct (beat_registered ws2 socketId socket) as (Hdead2 & _).
    + by rewrite Hs2.
    + by rewrite Hs2.
    + destruct Hdead2 as (Hg & Ho); [by rewrite Ho2, Hobj|].
      split; [done|]. by rewrite Ho.
Qed.

(** *** What the map of sockets keeps *)

Lemma addNewSocket_ok socketId socket ws :
  sockets_ok (sockets ws) →
  jm_get socketId (sockets ws) = None → socket ∉ jm_values (sockets ws) →
  sockets_ok (sockets (addNewSocket socketId socket ws)).
Proof.
  intros [Hk Hv] Hfresh Hnew. unfold addNewSocket. simpl.
  rewrite (jm_set_fresh _ _ _ Hfresh). unfold sockets_ok, jm_keys, jm_values in *.
  rewrite !fmap_app. simpl. split.
  - apply NoDup_app. split; [done|]. split; [|apply NoDup_singleton].
    intros k Hin Hk'. apply list_elem_of_singleton in Hk' as ->.
    by apply (jm_get_None socketId (sockets ws)) in Hfresh.
  - apply NoDup_app. split; [done|]. split; [|apply NoDup_singleton].
    intros s Hin Hs'. by apply list_elem_of_singleton in Hs' as ->.
Qed.

Lemma live_ok ws e :
  sockets_ok (sockets ws) → admissible ws e → sockets_ok (sockets (live ws e)).
Proof.
  intros Hok Hadm. destruct e as [socketId socket|socketId| |socket]; simpl.
  - destruct Hadm as [Hfresh Hnew]. by apply addNewSocket_ok.
  - by apply sockets_ok_delete.
  - by apply clearInactiveSockets_ok.
  - done.
Qed.

(** X14. Through any run of connections accepted under unused socketIds,
    connections closed, beats and pongs, the map keeps one entry per
    socketId and never holds a socket object twice: two socketIds never
    lead to the same socket. *)
Theorem life_keeps_sockets_apart (es : list LifeEvent) (ws : WebSocketService) :
  sockets_ok (sockets ws) → admissible_run ws es →
  sockets_ok (sockets (foldl live ws es)) ∧
  ∀ id1 id2 socket,
    jm_get id1 (sockets (foldl live ws es)) = Some socket →
    jm_get id2 (sockets (foldl live ws es)) = Some socket →
    id1 = id2.
Proof.
  intros Hok Hrun.
  assert (sockets_ok (sockets (foldl live ws es))) as Hend.
  { revert ws Hok Hrun. induction es as [|e es IH]; intros ws Hok Hrun; [done|].
    destruct Hrun as [Hadm Hrun]. simpl. apply IH; [by apply live_ok | done]. }
  split; [done|]. intros id1 id2 socket. by apply sockets_ok_key.
Qed.

(** *** Concrete runs *)


Lemma evicted_unreachable_witness :
  (send (λ _, "null") "b" (MsgString "hello") (clearInactiveSockets service2_after_beat)).1
    = false ∧
  ws_close "b" ∈ events (clearInactiveSockets service2_after_beat).
Proof.
  destruct (evicted_unreachable (λ _, "null") "b" 1 (MsgString "hello") service2_after_beat
              service2_after_beat_ok eq_refl eq_refl) as (Hsend & _ & _ & Hev).
  by split.
Defined.

Lemma silent_socket_evicted_witness :
  jm_get "b" (sockets (clearInactiveSockets
                         (foldl (λ w s, on_pong s w) (clearInactiveSockets service2) [0])))
    = None.
Proof.
  apply (silent_socket_evicted service2 "b" 1 [0] service2_ok eq_refl).
  apply (bool_decide_unpack _). vm_compute. exact I.
Defined.

Lemma life_keeps_sockets_apart_witness :
  sockets_ok (sockets (foldl live service0
    [Accepted "a" 0; Accepted "b" 1; Beaten; Ponged 0; Beaten; Closed "a"])).
Proof.
  apply (life_keeps_sockets_apart
           [Accepted "a" 0; Accepted "b" 1; Beaten; Ponged 0; Beaten; Closed "a"] service0).
  - apply (bool_decide_unpack _). vm_compute. exact I.
  - simpl. repeat split; try reflexivity; apply (bool_decide_unpack _); vm_compute; exact I.
Defined.

End RelayMore.

(** ** Properties of the helpers and of the subscribe route *)

Module UtilsFacts.

Import Utils.

(** *** [assertType] *)

(** On an own property [assertType] looks at the value; on a key the
    object does not hold, at what the object inherits. *)
Lemma assertType_own (obj : list (string * JsValue)) (key type : string) v :
  jm_get key obj = Some v →
  (assertType obj key type = Returned () ↔ truthy v = true ∧ typeof v = type).
Proof.
  intros Hv. unfold assertType, js_lookup. rewrite Hv. simpl.
  destruct (truthy v); simpl.
  - destruct (String.eqb (typeof v) type) eqn:He; simpl.
    + apply String.eqb_eq in He. by split.
    + apply String.eqb_neq in He. split; [done | by intros [_ ?]].
  - split; [done | by intros [? _]].
Qed.

Lemma assertType_inherited (obj : list (string * JsValue)) (key type : string) :
  jm_get key obj = None →
  (assertType obj key type = Returned () ↔
     (key ∈ object_methods ∧ type = "function") ∨
     (key = "__proto__" ∧ type = "object")).
Proof.
  intros Hv. unfold assertType, js_lookup. rewrite Hv.
  destruct (bool_decide (key ∈ object_methods)) eqn:Hm.
  - apply bool_decide_eq_true in Hm. cbn [looked_truthy looked_typeof negb orb].
    destruct (String.eqb "function" type) eqn:He; cbn [negb].
    + apply String.eqb_eq in He. split; [intros _; left; by split | done].
    + apply String.eqb_neq in He. split; [done|].
      intros [[_ ->]|[-> _]]; [done|]. exfalso. unfold object_methods in Hm.
      repeat (apply elem_of_cons in Hm as [Hm|Hm]; [discriminate|]).
      by apply elem_of_nil in Hm.
  - apply bool_decide_eq_false in Hm.
    destruct (String.eqb key "__proto__") eqn:Hp;
      cbn [looked_truthy looked_typeof negb orb].
    + apply String.eqb_eq in Hp.
      destruct (String.eqb "object" type) eqn:He; cbn [negb].
      * apply String.eqb_eq in He. split; [intros _; right; by split | done].
      * apply String.eqb_neq in He. split; [done|].
        intros [[? _]|[_ ->]]; done.
    + apply String.eqb_neq in Hp. split; [done|].
      intros [[? _]|[? _]]; done.
Qed.

Lemma assertType_throws (obj : list (string * JsValue)) (key type : string) :
  assertType obj key type ≠ Returned () →
  assertType obj key type
    = Threw ("Missing or invalid " +:+ dquote +:+ key +:+ dquote +:+ " param").
Proof. unfold assertType. by destruct (_ || _). Qed.

Lemma assertType_string fields key :
  assertType fields key "string" = Returned () ↔
  ∃ s, jm_get key fields = Some (JsString s) ∧ s ≠ "".
Proof.
  destruct (jm_get key fields) as [v|] eqn:Hv.
  - rewrite (assertType_own _ _ _ v Hv). split.
    + intros [Ht Hty]. destruct v as [| |b|n|s|items|l]; try done.
      exists s. split; [done|]. by intros ->.
    + intros (s & [= ->] & Hne). split; [|done].
      simpl. by apply negb_true_iff, String.eqb_neq.
  - rewrite (assertType_inherited _ _ _ Hv). split.
    + intros [[_ ?]|[_ ?]]; done.
    + by intros (s & ? & _).
Qed.

(** X16. [assertType(obj, key, type)] on a plain object, type by type. It
    returns for ["string"] exactly on an own non-empty string, for
    ["number"] on an own number other than zero, for ["boolean"] on an own
    [true], for ["object"] on an own array or object and on the inherited
    [__proto__], and for ["function"] exactly on a method inherited from
    [Object.prototype] that no own property hides: [obj[key]] follows the
    prototype chain. It returns for no other type, and so not for
    ["undefined"]; [null], [false], [0] and the empty string pass for no
    type. When it does not return it throws the message that names the
    key. *)
Theorem assertType_spec (obj : list (string * JsValue)) (key : string) :
  (assertType obj key "string" = Returned () ↔
     ∃ s, jm_get key obj = Some (JsString s) ∧ s ≠ "") ∧
  (assertType obj key "number" = Returned () ↔
     ∃ n, jm_get key obj = Some (JsNumber n) ∧ n ≠ 0%Z) ∧
  (assertType obj key "boolean" = Returned () ↔
     jm_get key obj = Some (JsBool true)) ∧
  (assertType obj key "object" = Returned () ↔
     (∃ items, jm_get key obj = Some (JsArray items)) ∨
     (∃ fields, jm_get key obj = Some (JsObject fields)) ∨
     (jm_get key obj = None ∧ key = "__proto__")) ∧
  (assertType obj key "function" = Returned () ↔
     jm_get key obj = None ∧
     key ∈ [ "constructor"; "hasOwnProperty"; "isPrototypeOf";
             "propertyIsEnumerable"; "toLocaleString"; "toString"; "valueOf";
             "__defineGetter__"; "__defineSetter__"; "__lookupGetter__";
             "__lookupSetter__" ]) ∧
  (∀ type, type ∉ [ "string"; "number"; "boolean"; "object"; "function" ] →
     assertType obj key type ≠ Returned ()) ∧
  (∀ type, assertType obj key type ≠ Returned () →
     assertType obj key type
       = Threw ("Missing or invalid " +:+ dquote +:+ key +:+ dquote +:+ " param")).
Proof.
  change [ "constructor"; "hasOwnProperty"; "isPrototypeOf";
           "propertyIsEnumerable"; "toLocaleString"; "toString"; "valueOf";
           "__defineGetter__"; "__defineSetter__"; "__lookupGetter__";
           "__lookupSetter__" ] with object_methods.
  split; [apply assertType_string|].
  destruct (jm_get key obj) as [v|] eqn:Hv.
  - rewrite !(assertType_own _ _ _ v Hv).
    split; [|split; [|split; [|split; [|split]]]].
    + split.
      * intros [Ht Hty]. destruct v as [| |b|n|s|items|l]; try done.
        exists n. split; [done|]. simpl in Ht. intros ->. done.
      * intros (n & [= ->] & Hn). split; [|done]. simpl.
        apply negb_true_iff, Z.eqb_neq. done.
    + split.
      * intros [Ht Hty]. destruct v as [| |[|]|n|s|items|l]; done.
      * by intros [= ->].
    + split.
      * intros [Ht Hty]. destruct v as [| |b|n|s|items|l]; try done.
        -- left. by eexists.
        -- right. left. by eexists.
      * intros [(items & [= ->])|[(fields & [= ->])|[? _]]]; done.
    + split; [|by intros [? _]]. intros [Ht Hty]. by destruct v.
    + intros type Hty. rewrite (assertType_own _ _ _ v Hv). intros [Ht <-].
      apply Hty. destruct v; try done;
        repeat first [apply list_elem_of_here | apply list_elem_of_further].
    + apply assertType_throws.
  - rewrite !(assertType_inherited _ _ _ Hv).
    split; [|split; [|split; [|split; [|split]]]].
    + split; [intros [[_ ?]|[_ ?]]; done | by intros (n & ? & _)].
    + split; [intros [[_ ?]|[_ ?]]; done | done].
    + split.
      * intros [[_ ?]|[-> _]]; [done|]. right. right. done.
      * intros [(? & ?)|[(? & ?)|[_ ->]]]; try done. by right.
    + split.
      * intros [[? _]|[_ ?]]; done.
      * intros [_ ?]. by left.
    + intros type Hty. rewrite (assertType_inherited _ _ _ Hv).
      intros [[_ ->]|[_ ->]]; apply Hty;
        repeat first [apply list_elem_of_here | apply list_elem_of_further].
    + apply assertType_throws.
Qed.

(** *** [POST /subscribe] *)

Lemma body_accepted (body : JsValue) :
  assertType [("body", body)] "body" "object" = Returned () ↔
  (∃ fields, body = JsObject fields) ∨ (∃ items, body = JsArray items).
Proof.
  rewrite (assertType_own [("body", body)] "body" "object" body eq_refl). split.
  - intros [Ht Hty]. destruct body; try done; eauto.
  - intros [(fields & ->)|(items & ->)]; done.
Qed.

Lemma returned_or_not (r : Result unit) : r = Returned () ∨ r ≠ Returned ().
Proof. destruct r as [[]|m]; [by left | by right]. Qed.

(** X17. [POST /subscribe] registers a webhook only for a body that is an
    object holding non-empty strings under [topic] and [webhook], and then
    calls [register] with exactly these two; it answers 200 when
    [register] returns and 400 with the error's message when it throws.
    Any other body is answered 400 without [register] being consulted,
    with the message naming the first of [body], [topic], [webhook] that
    fails. *)
Theorem post_subscribe_spec (register : string → string → option string)
    (body : JsValue) :
  (∀ fields topic webhook,
     body = JsObject fields →
     jm_get "topic" fields = Some (JsString topic) → topic ≠ "" →
     jm_get "webhook" fields = Some (JsString webhook) → webhook ≠ "" →
     post_subscribe register body =
       match register topic webhook with
       | None => Subscribed topic webhook
       | Some m => BadRequest ("Error: " +:+ m)
       end) ∧
  (∀ topic webhook,
     post_subscribe register body = Subscribed topic webhook →
     register topic webhook = None ∧ topic ≠ "" ∧ webhook ≠ "" ∧
     ∃ fields, body = JsObject fields ∧
               jm_get "topic" fields = Some (JsString topic) ∧
               jm_get "webhook" fields = Some (JsString webhook)) ∧
  ((∀ fields, body ≠ JsObject fields) → (∀ items, body ≠ JsArray items) →
     post_subscribe register body
       = BadRequest ("Error: Missing or invalid " +:+ dquote +:+ "body" +:+ dquote
                     +:+ " param")) ∧
  ((∃ items, body = JsArray items) ∨
   (∃ fields, body = JsObject fields ∧
              ∀ s, jm_get "topic" fields = Some (JsString s) → s = "") →
     post_subscribe register body
       = BadRequest ("Error: Missing or invalid " +:+ dquote +:+ "topic" +:+ dquote
                     +:+ " param")) ∧
  (∀ fields topic,
     body = JsObject fields →
     jm_get "topic" fields = Some (JsString topic) → topic ≠ "" →
     (∀ s, jm_get "webhook" fields = Some (JsString s) → s = "") →
     post_subscribe register body
       = BadRequest ("Error: Missing or invalid " +:+ dquote +:+ "webhook" +:+ dquote
                     +:+ " param")).
Proof.
  assert (∀ fields key,
            (∀ s, jm_get key fields = Some (JsString s) → s = "") →
            assertType fields key "string"
              = Threw ("Missing or invalid " +:+ dquote +:+ key +:+ dquote +:+ " param"))
    as Hbad.
  { intros fields key Hnone. apply assertType_throws. intros Hret.
    apply assertType_string in Hret as (s & Hs & Hne). by apply Hne, Hnone. }
  assert (∀ fields key s, jm_get key fields = Some (JsString s) → s ≠ "" →
            assertType fields key "string" = Returned ()) as Hgood.
  { intros fields key s Hs Hne. apply assertType_string. by exists s. }
  split; [|split; [|split; [|split]]].
  - intros fields topic webhook -> Ht Htne Hw Hwne. unfold post_subscribe.
    rewrite (proj2 (body_accepted (JsObject fields))) by eauto.
    rewrite (Hgood _ _ _ Ht Htne), (Hgood _ _ _ Hw Hwne).
    unfold js_lookup. by rewrite Ht, Hw.
  - intros topic webhook. unfold post_subscribe.
    destruct (returned_or_not (assertType [("body", body)] "body" "object")) as [Hb|Hb];
      [|by rewrite (assertType_throws _ _ _ Hb)].
    rewrite Hb. set (fields := match body with JsObject f => f | _ => [] end).
    destruct (returned_or_not (assertType fields "topic" "string")) as [Ht|Ht];
      [|by rewrite (assertType_throws _ _ _ Ht)].
    rewrite Ht.
    destruct (returned_or_not (assertType fields "webhook" "string")) as [Hw|Hw];
      [|by rewrite (assertType_throws _ _ _ Hw)].
    rewrite Hw.
    apply assertType_string in Ht as (t & Ht & Htne).
    apply assertType_string in Hw as (w & Hw & Hwne).
    unfold js_lookup. rewrite Ht, Hw.
    destruct (register t w) eqn:Hreg; [done|]. intros [= <- <-].
    split; [done|]. split; [done|]. split; [done|].
    destruct body as [| |b|n|s|items|f]; try done. by exists f.
  - intros Hobj Harr. unfold post_subscribe.
    rewrite assertType_throws; [done|]. intros Hret.
    apply body_accepted in Hret as [(f & ->)|(i & ->)]; [by apply (Hobj f) | by apply (Harr i)].
  - intros [(items & ->)|(fields & -> & Hnone)]; unfold post_subscribe.
    + rewrite (proj2 (body_accepted (JsArray items))) by eauto. by rewrite Hbad.
    + rewrite (proj2 (body_accepted (JsObject fields))) by eauto. by rewrite Hbad.
  - intros fields topic -> Ht Htne Hnone. unfold post_subscribe.
    rewrite (proj2 (body_accepted (JsObject fields))) by eauto.
    by rewrite (Hgood _ _ _ Ht Htne), Hbad.
Qed.

(** *** [getRequestIP] *)

Lemma before_comma_free s : comma_free (before_comma s) = true.
Proof.
  induction s as [|c s IH]; simpl; [done|].
  destruct (Ascii.eqb c (Ascii.ascii_of_nat 44)) eqn:Hc; simpl; [done|].
  by rewrite Hc, IH.
Qed.

Lemma header_ip_returned req h ip :
  header_ip req h = Returned (Some ip) → comma_free ip = true.
Proof.
  unfold header_ip. destruct (jm_get h (headers req)) as [[s|[|s l]]|]; try done.
  - destruct (String.eqb s ""); [done|]. intros [= <-]. apply before_comma_free.
  - intros [= <-]. apply before_comma_free.
Qed.

Lemma getRequestIP_unfold req :
  getRequestIP req =
    match header_ip req "cf-connecting-ip" with
    | Threw m => Threw m
    | Returned a =>
        match header_ip req "x-forwarded-for" with
        | Threw m => Threw m
        | Returned b =>
            match find_truthy [a; b] with
            | Some ip => Returned (Some ip)
            | None => Returned (remoteAddress req)
            end
        end
    end.
Proof.
  unfold getRequestIP, IP_HEADERS. simpl.
  destruct (header_ip req "cf-connecting-ip") as [a|m]; [|done].
  by destruct (header_ip req "x-forwarded-for") as [b|m].
Qed.

Lemma header_ip_single req h s :
  jm_get h (headers req) = Some (Single s) → before_comma s ≠ "" →
  header_ip req h = Returned (Some (before_comma s)).
Proof.
  intros Hh Hne. unfold header_ip. rewrite Hh.
  destruct (String.eqb s "") eqn:He; [|done].
  apply String.eqb_eq in He. by subst.
Qed.

Lemma header_ip_throws req h :
  (∃ m, header_ip req h = Threw m) ↔ jm_get h (headers req) = Some (Multi []).
Proof.
  unfold header_ip. destruct (jm_get h (headers req)) as [[s|[|s l]]|].
  - destruct (String.eqb s ""); split; [intros (m & ?)| |intros (m & ?)|]; done.
  - split; [done|]. intros _. by eexists.
  - split; [intros (m & ?)|]; done.
  - split; [intros (m & ?)|]; done.
Qed.

Lemma find_truthy_found xs ip :
  find_truthy xs = Some ip → Some ip ∈ xs ∧ ip ≠ "".
Proof.
  induction xs as [|[s|] xs IH]; simpl; [done|..].
  - destruct (String.eqb s "") eqn:He.
    + intros Hf. destruct (IH Hf). split; [by apply list_elem_of_further | done].
    + apply String.eqb_neq in He. intros [= <-]. split; [apply list_elem_of_here | done].
  - intros Hf. destruct (IH Hf). split; [by apply list_elem_of_further | done].
Qed.

(** [split(',')[0]] gives the text up to the first comma: of a text that
    has no comma followed by nothing or by a comma and more, it gives that
    text. *)
Lemma before_comma_app ip rest :
  comma_free ip = true →
  rest = "" ∨ (∃ r, rest = "," +:+ r) →
  before_comma (ip +:+ rest) = ip.
Proof.
  intros Hfree Hrest. induction ip as [|c ip IH].
  - destruct Hrest as [->|(r & ->)]; reflexivity.
  - simpl in Hfree. apply andb_true_iff in Hfree as [Hc Hfree].
    change (String c ip +:+ rest) with (String c (ip +:+ rest)).
    simpl. apply negb_true_iff in Hc. rewrite Hc. f_equal. by apply IH.
Qed.

(** X18. [getRequestIP] prefers [cf-connecting-ip] to [x-forwarded-for] and
    either to the socket's address, and of a header it takes the text
    before the first comma: from a header [ip] or [ip,more], where [ip]
    is not empty and has no comma, it returns [ip]. An address it takes
    from a header is not empty and has no comma. A [cf-connecting-ip]
    that starts with a comma yields nothing, and the next source is
    taken. An empty array under either header makes it throw. *)
Theorem getRequestIP_spec (req : IncomingMessage) :
  (∀ ip rest,
     jm_get "cf-connecting-ip" (headers req) = Some (Single (ip +:+ rest)) →
     ip ≠ "" → comma_free ip = true → rest = "" ∨ (∃ r, rest = "," +:+ r) →
     jm_get "x-forwarded-for" (headers req) ≠ Some (Multi []) →
     getRequestIP req = Returned (Some ip)) ∧
  (∀ ip rest,
     jm_get "cf-connecting-ip" (headers req) = None →
     jm_get "x-forwarded-for" (headers req) = Some (Single (ip +:+ rest)) →
     ip ≠ "" → comma_free ip = true → rest = "" ∨ (∃ r, rest = "," +:+ r) →
     getRequestIP req = Returned (Some ip)) ∧
  (jm_get "cf-connecting-ip" (headers req) = None →
   jm_get "x-forwarded-for" (headers req) = None →
     getRequestIP req = Returned (remoteAddress req)) ∧
  (∀ r,
     jm_get "cf-connecting-ip" (headers req) = Some (Single ("," +:+ r)) →
     jm_get "x-forwarded-for" (headers req) = None →
     getRequestIP req = Returned (remoteAddress req)) ∧
  (∀ ip, getRequestIP req = Returned (Some ip) →
     remoteAddress req = Some ip ∨ (ip ≠ "" ∧ comma_free ip = true)) ∧
  (jm_get "cf-connecting-ip" (headers req) = Some (Multi []) ∨
   jm_get "x-forwarded-for" (headers req) = Some (Multi []) →
     ∃ m, getRequestIP req = Threw m).
Proof.
  rewrite getRequestIP_unfold. split; [|split; [|split; [|split; [|split]]]].
  - intros ip rest Hcf Hne Hfree Hrest Hxff.
    pose proof (before_comma_app ip rest Hfree Hrest) as Hip.
    rewrite (header_ip_single _ _ _ Hcf) by (by rewrite Hip). rewrite Hip.
    destruct (header_ip req "x-forwarded-for") as [b|m] eqn:Hb.
    + simpl. destruct (String.eqb ip "") eqn:He; [|done].
      by apply String.eqb_eq in He.
    + exfalso. apply Hxff. apply header_ip_throws. by exists m.
  - intros ip rest Hcf Hxff Hne Hfree Hrest.
    pose proof (before_comma_app ip rest Hfree Hrest) as Hip.
    rewrite (header_ip_single _ _ _ Hxff) by (by rewrite Hip). rewrite Hip.
    unfold header_ip. rewrite Hcf. simpl.
    destruct (String.eqb ip "") eqn:He; [|done].
    by apply String.eqb_eq in He.
  - intros Hcf Hxff. unfold header_ip. by rewrite Hcf, Hxff.
  - intros r Hcf Hxff. unfold header_ip. by rewrite Hcf, Hxff.
  - intros ip. destruct (header_ip req "cf-connecting-ip") as [a|m] eqn:Ha; [|done].
    destruct (header_ip req "x-forwarded-for") as [b|m] eqn:Hb; [|done].
    destruct (find_truthy [a; b]) as [ip'|] eqn:Hf.
    + intros [= <-]. right. apply find_truthy_found in Hf as [Hin Hne].
      split; [done|].
      apply elem_of_cons in Hin as [<-|Hin]; [by apply (header_ip_returned req _ _ Ha)|].
      apply list_elem_of_singleton in Hin as <-. by apply (header_ip_returned req _ _ Hb).
    + intros [= ->]. by left.
  - intros [Hcf|Hxff].
    + apply header_ip_throws in Hcf as (m & ->). by exists m.
    + apply header_ip_throws in Hxff as (m & Hm). rewrite Hm.
      destruct (header_ip req "cf-connecting-ip") as [a|m']; by eexists.
Qed.

(** *** The facts above, on concrete requests *)

Lemma assertType_spec_witness :
  assertType [] "constructor" "function" = Returned () ∧
  assertType [("id", JsNumber 5)] "id" "number" = Returned () ∧
  assertType [("id", JsNumber 5)] "id" "boolean" ≠ Returned () ∧
  assertType [("id", JsNumber 0)] "id" "number" ≠ Returned ().
Proof.
  split; [|split; [|split]].
  - apply (proj1 (proj2 (proj2 (proj2 (proj2 (assertType_spec [] "constructor")))))).
    split; [done|]. apply list_elem_of_here.
  - apply (proj1 (proj2 (assertType_spec [("id", JsNumber 5)] "id"))).
    by exists 5%Z.
  - intros Hret.
    by apply (proj1 (proj2 (proj2 (assertType_spec [("id", JsNumber 5)] "id")))) in Hret.
  - intros Hret.
    apply (proj1 (proj2 (assertType_spec [("id", JsNumber 0)] "id"))) in Hret
      as (n & [= <-] & Hn).
    done.
Defined.

Lemma getRequestIP_spec_witness :
  getRequestIP {| headers := [("cf-connecting-ip", Single "1.2.3.4, 5.6.7.8");
                              ("x-forwarded-for", Single "9.9.9.9")];
                  remoteAddress := Some "10.0.0.1" |}
    = Returned (Some "1.2.3.4") ∧
  getRequestIP {| headers := [("x-forwarded-for", Single "9.9.9.9")];
                  remoteAddress := Some "10.0.0.1" |}
    = Returned (Some "9.9.9.9").
Proof.
  split.
  - apply (proj1 (getRequestIP_spec _) "1.2.3.4" ", 5.6.7.8"); try done.
    right. by exists " 5.6.7.8".
  - apply (proj1 (proj2 (getRequestIP_spec _)) "9.9.9.9" ""); try done.
    by left.
Defined.

End UtilsFacts.
